(** * ChanLun structural-decomposition engine: shallow embedding and properties

    The engine (services/chanlun.ts) turns a list of OHLC bars into merged
    bars, fractals, strokes (Bi), segments, pivots and buy/sell signals.

    Modelling conventions
    - a JavaScript [number] holding a price or an indicator value is the
      rational ([Q]) that the double is.  Comparisons and [Math.max] /
      [Math.min] / [Math.abs] are exact on doubles; every [+], [-], [*] and
      [/] of the source (the EMA and MACD series, the force sum, the
      threshold product) is followed by the rounding [fl] to the nearest
      double, ties to even, and a decimal literal such as [0.9] is [fl] of
      its decimal value.  NaN and the infinities (overflow, division by
      zero) are outside the model;
    - timestamps are integers ([Z]); array positions are [nat];
    - an array that is only ever pushed to and read at its end is kept
      newest-first inside the loops and reversed when the loop finishes. *)

From Stdlib Require Import String.
From Stdlib Require Import List ZArith QArith Qminmax Qabs Lqa Lia Bool.
From Stdlib Require Import Sorted Permutation.
Import ListNotations.

Close Scope Q_scope.
Open Scope nat_scope.
Open Scope list_scope.

(* ------------------------------------------------------------------ *)
(** ** Numbers *)

Definition Qlt_bool (x y : Q) : bool := negb (Qle_bool y x).

(** [Math.max] / [Math.min] on two numbers. *)
Definition Math_max (x y : Q) : Q := Qmax x y.
Definition Math_min (x y : Q) : Q := Qmin x y.
(** The three-argument calls [Math.max(a, b, c)] / [Math.min(a, b, c)]. *)
Definition Math_max3 (a b c : Q) : Q := Math_max (Math_max a b) c.
Definition Math_min3 (a b c : Q) : Q := Math_min (Math_min a b) c.

(** [n / d] rounded to the nearest integer, ties to the even one
    ([0 <= n], [0 < d]). *)
Definition roundHalfEven (n d : Z) : Z :=
  let q := (n / d)%Z in
  match (2 * (n mod d) ?= d)%Z with
  | Lt => q
  | Gt => (q + 1)%Z
  | Eq => if Z.even q then q else (q + 1)%Z
  end.

(** The binary exponent of [n / d], the [e] with [2^e <= n / d < 2^(e+1)]
    ([0 < n], [0 < d]). *)
Definition binade (n d : Z) : Z :=
  let e0 := (Z.log2 n - Z.log2 d)%Z in
  if (d * 2 ^ Z.max 0 e0 <=? n * 2 ^ Z.max 0 (- e0))%Z then e0 else (e0 - 1)%Z.

(** [2^e] for an integer [e] of either sign. *)
Definition pow2 (e : Z) : Q :=
  if (0 <=? e)%Z then inject_Z (2 ^ e) else 1 # Z.to_pos (2 ^ (- e)).

(** [n / d] as a double: an integer of at most 53 bits times a power of two
    that is at least [2^-1074]. *)
Definition flPos (n d : Z) : Q :=
  let e := Z.max (binade n d - 52) (-1074) in
  let m := roundHalfEven (n * 2 ^ Z.max 0 (- e)) (d * 2 ^ Z.max 0 e) in
  (inject_Z m * pow2 e)%Q.

(** Rounding to the nearest double (IEEE 754 binary64, round to nearest,
    ties to even); a result beyond the largest double is outside the
    model.  [fl_isDouble] and [fl_nearest] below show that the result is a
    double and that no double is nearer to the argument. *)
Definition fl (x : Q) : Q :=
  match Qnum x with
  | Z0 => 0%Q
  | Zpos n => flPos (Zpos n) (Zpos (Qden x))
  | Zneg n => (- flPos (Zpos n) (Zpos (Qden x)))%Q
  end.

(** The doubles, with no bound on the exponent from above: an integer of at
    most 53 bits times a power of two that is at least [2^-1074]. *)
Definition isDouble (q : Q) : Prop :=
  exists m e : Z,
    (Z.abs m <= 2 ^ 53)%Z /\ (-1074 <= e)%Z /\ (q == inject_Z m * pow2 e)%Q.

(** The arithmetic operators of the source on doubles. *)
Definition fadd (x y : Q) : Q := fl (x + y).
Definition fsub (x y : Q) : Q := fl (x - y).
Definition fmul (x y : Q) : Q := fl (x * y).
Definition fdiv (x y : Q) : Q := fl (x / y).

(* ------------------------------------------------------------------ *)
(** ** Data model (types.ts) *)

Record Kline := mkKline {
  k_time : Z;
  k_open : Q;
  k_high : Q;
  k_low : Q;
  k_close : Q;
  k_volume : Q
}.

(** [interface MergedKline extends Kline]: the inherited fields are [bar]. *)
Record MergedKline := mkMergedKline {
  bar : Kline;
  originalStartIndex : nat;
  originalEndIndex : nat;
  children : list Kline
}.

Definition m_high (m : MergedKline) : Q := k_high (bar m).
Definition m_low (m : MergedKline) : Q := k_low (bar m).
Definition m_time (m : MergedKline) : Z := k_time (bar m).

Inductive PointType := top | bottom.
Inductive Dir := up | down.

Definition PointType_eqb (a b : PointType) : bool :=
  match a, b with
  | top, top | bottom, bottom => true
  | _, _ => false
  end.

Definition Dir_eqb (a b : Dir) : bool :=
  match a, b with
  | up, up | down, down => true
  | _, _ => false
  end.

Record ChanPoint := mkPoint {
  p_index : nat;
  p_price : Q;
  p_type : PointType;
  p_time : Z;
  isFractal : bool
}.

Record ChanBi := mkBi {
  bi_start : ChanPoint;
  bi_end : ChanPoint;
  bi_type : Dir;
  isValid : bool
}.

Record ChanSeg := mkSeg {
  seg_start : ChanPoint;
  seg_end : ChanPoint;
  seg_type : Dir;
  seg_biList : list ChanBi
}.

Inductive PivotLevel := level_bi | level_seg.
Inductive PivotDirection := neutral | pivot_up | pivot_down.

Record ChanPivot := mkPivot {
  startBiIndex : nat;
  endBiIndex : nat;
  zg : Q;
  zd : Q;
  gg : Q;
  dd : Q;
  direction : PivotDirection;
  startTime : Z;
  endTime : Z;
  level : PivotLevel
}.

Inductive BiType := bi_old | bi_new | bi_fractal | bi_custom.

(** The fields of [AppSettings] that the engine reads. *)
Record AppSettings := mkSettings {
  biType : BiType;
  biKCount : Z;
  macdFast : Z;
  macdSlow : Z;
  macdSignal : Z
}.

(* ------------------------------------------------------------------ *)
(** ** 1. Inclusion processing: [processInclusionStrict] *)

(** The containment predicate of the merge loop:
    [isNextInLast || isLastInNext]. *)
Definition isNextInLast (lastK : MergedKline) (nextK : Kline) : bool :=
  Qle_bool (k_high nextK) (m_high lastK) && Qle_bool (m_low lastK) (k_low nextK).
Definition isLastInNext (lastK : MergedKline) (nextK : Kline) : bool :=
  Qle_bool (m_high lastK) (k_high nextK) && Qle_bool (k_low nextK) (m_low lastK).

(** Loop state: [result] newest-first, and the [direction] accumulator
    (0 unknown, 1 up, -1 down). *)
Definition InclusionState : Type := (list MergedKline * Z)%type.

Definition inclusionStep (i : nat) (nextK : Kline) (st : InclusionState)
  : InclusionState :=
  let '(result, direction) := st in
  match result with
  | [] => st
  | lastK :: older =>
    if isNextInLast lastK nextK || isLastInNext lastK nextK then
      let direction :=
        if (direction =? 0)%Z then
          match older with
          | prevK :: _ => if Qlt_bool (m_high prevK) (m_high lastK) then 1%Z else (-1)%Z
          | [] => 1%Z
          end
        else direction in
      let newHigh :=
        if (direction =? 1)%Z then Math_max (m_high lastK) (k_high nextK)
        else Math_min (m_high lastK) (k_high nextK) in
      let newLow :=
        if (direction =? 1)%Z then Math_max (m_low lastK) (k_low nextK)
        else Math_min (m_low lastK) (k_low nextK) in
      let b := bar lastK in
      (mkMergedKline
         (mkKline (k_time nextK) (k_open b) newHigh newLow (k_close b) (k_volume b))
         (originalStartIndex lastK) i (children lastK ++ [nextK]) :: older,
       direction)
    else
      let direction :=
        if Qlt_bool (m_high lastK) (k_high nextK) && Qlt_bool (m_low lastK) (k_low nextK)
        then 1%Z
        else if Qlt_bool (k_high nextK) (m_high lastK) && Qlt_bool (k_low nextK) (m_low lastK)
        then (-1)%Z
        else direction in
      (mkMergedKline nextK i i [nextK] :: lastK :: older, direction)
  end.

(** [for (let i = 1; i < klines.length; i++)], run on [klines[i..]]. *)
Fixpoint inclusionLoop (i : nat) (rest : list Kline) (st : InclusionState)
  : InclusionState :=
  match rest with
  | [] => st
  | nextK :: rest' => inclusionLoop (S i) rest' (inclusionStep i nextK st)
  end.

Definition processInclusionStrict (klines : list Kline) : list MergedKline :=
  match klines with
  | [] => []
  | k0 :: rest =>
    rev (fst (inclusionLoop 1 rest ([mkMergedKline k0 0 0 [k0]], 0%Z)))
  end.

(** The containment predicate between two merged bars. *)
Definition containment (a b : MergedKline) : bool :=
  isNextInLast a (bar b) || isLastInNext a (bar b).

(* ------------------------------------------------------------------ *)
(** ** 2. Fractals: [identifyFractals] *)

(** The body of the loop at one interior position. *)
Definition fractalOf (prev curr next : MergedKline) : option ChanPoint :=
  if Qlt_bool (m_high prev) (m_high curr) && Qlt_bool (m_high next) (m_high curr)
  then Some (mkPoint (originalEndIndex curr) (m_high curr) top (m_time curr) true)
  else if Qlt_bool (m_low curr) (m_low prev) && Qlt_bool (m_low curr) (m_low next)
  then Some (mkPoint (originalEndIndex curr) (m_low curr) bottom (m_time curr) true)
  else None.

Definition pushed {A : Type} (o : option A) : list A :=
  match o with
  | Some a => [a]
  | None => []
  end.

(** [for (let i = 1; i < klines.length - 1; i++)]: the list is walked with
    a window of three consecutive merged bars. *)
Fixpoint identifyFractals (klines : list MergedKline) : list ChanPoint :=
  match klines with
  | [] => []
  | prev :: tl =>
    match tl with
    | curr :: next :: _ => pushed (fractalOf prev curr next) ++ identifyFractals tl
    | _ => []
    end
  end.

(** The same loop body addressed by position, [klines[i-1], klines[i],
    klines[i+1]]. *)
Definition fractalAt (klines : list MergedKline) (i : nat) : option ChanPoint :=
  match i with
  | 0 => None
  | S j =>
    match nth_error klines j, nth_error klines i, nth_error klines (S i) with
    | Some prev, Some curr, Some next => fractalOf prev curr next
    | _, _, _ => None
    end
  end.

(* ------------------------------------------------------------------ *)
(** ** 3. Strokes: [generateBi] *)

(** 3.1 One iteration of the same-type filter.  [rawPoints] is newest-first;
    [lastPt] is always the last pushed element, i.e. its head. *)
Definition alternationStep (rawPoints : list ChanPoint) (curr : ChanPoint)
  : list ChanPoint :=
  match rawPoints with
  | [] => [curr]
  | lastPt :: older =>
    if PointType_eqb (p_type curr) (p_type lastPt) then
      if PointType_eqb (p_type curr) top && Qlt_bool (p_price lastPt) (p_price curr)
      then curr :: older
      else if PointType_eqb (p_type curr) bottom
              && Qlt_bool (p_price curr) (p_price lastPt)
      then curr :: older
      else rawPoints
    else curr :: rawPoints
  end.

Definition alternationFilter (fractals : list ChanPoint) : list ChanPoint :=
  match fractals with
  | [] => []
  | f0 :: rest => rev (fold_left alternationStep rest [f0])
  end.

(** [Array.prototype.findIndex]: position of the first match, or -1. *)
Fixpoint findIndexFrom {A : Type} (f : A -> bool) (l : list A) (i : Z) : Z :=
  match l with
  | [] => (-1)%Z
  | x :: l' => if f x then i else findIndexFrom f l' (i + 1)%Z
  end.

Definition findIndex {A : Type} (f : A -> bool) (l : list A) : Z :=
  findIndexFrom f l 0%Z.

(** [k.time === t || (k.children && k.children.some(c => c.time === t))] *)
Definition holdsTime (t : Z) (k : MergedKline) : bool :=
  (m_time k =? t)%Z || existsb (fun c => (k_time c =? t)%Z) (children k).

(** [kCount]: distance between the merged-bar positions of the two points. *)
Definition kCount (klines : list MergedKline) (start end_ : ChanPoint) : Z :=
  let startMKIdx := findIndex (holdsTime (p_time start)) klines in
  let endMKIdx := findIndex (holdsTime (p_time end_)) klines in
  Z.abs (endMKIdx - startMKIdx).

(** [settings.biKCount || 5] *)
Definition biKCountOrDefault (settings : AppSettings) : Z :=
  if (biKCount settings =? 0)%Z then 5%Z else biKCount settings.

(** The [switch (settings.biType)] that sets [isValid]. *)
Definition biIsValid (settings : AppSettings) (kCount : Z) : bool :=
  match biType settings with
  | bi_old => (4 <=? kCount)%Z
  | bi_new => (3 <=? kCount)%Z
  | bi_fractal => true
  | bi_custom => (biKCountOrDefault settings - 1 <=? kCount)%Z
  end.

Definition biOf (start end_ : ChanPoint) : ChanBi :=
  mkBi start end_
       (match p_type start with bottom => up | top => down end) true.

(** 3.2 [for (let i = 0; i < rawPoints.length - 1; i++)] over the pairs
    [rawPoints[i], rawPoints[i+1]]. *)
Fixpoint validBiLoop (klines : list MergedKline) (settings : AppSettings)
         (rawPoints : list ChanPoint) : list ChanBi :=
  match rawPoints with
  | [] => []
  | start :: tl =>
    match tl with
    | [] => []
    | end_ :: _ =>
      (if biIsValid settings (kCount klines start end_)
       then [biOf start end_] else [])
      ++ validBiLoop klines settings tl
    end
  end.

(** 3.3 The continuity loop: both branches push [currentBi] and move on. *)
Fixpoint continuityLoop (currentBi : ChanBi) (rest : list ChanBi) : list ChanBi :=
  match rest with
  | [] => [currentBi]
  | next :: rest' =>
    if (p_time (bi_end currentBi) =? p_time (bi_start next))%Z
    then currentBi :: continuityLoop next rest'
    else currentBi :: continuityLoop next rest'
  end.

Definition generateBi (fractals : list ChanPoint) (klines : list MergedKline)
           (settings : AppSettings) : list ChanBi :=
  if length fractals <? 2 then [] else
  let rawPoints := alternationFilter fractals in
  if length rawPoints <? 2 then [] else
  match validBiLoop klines settings rawPoints with
  | [] => []
  | b0 :: rest => continuityLoop b0 rest
  end.

(* ------------------------------------------------------------------ *)
(** ** 4. Segments: [checkSegmentDestruction], [generateSegmentsStrict] *)

Definition biHigh (b : ChanBi) : Q :=
  Math_max (p_price (bi_start b)) (p_price (bi_end b)).
Definition biLow (b : ChanBi) : Q :=
  Math_min (p_price (bi_start b)) (p_price (bi_end b)).

(** Step 5 of the loop body: the turn of the feature pair and the
    rebound / retrace test. *)
Definition turnConfirmed (type : Dir) (mergedF1H mergedF1L effectiveF2H effectiveF2L : Q)
           (reboundBi : ChanBi) (peakPrice : Q) : bool :=
  match type with
  | up =>
    let isFeatureDown :=
      Qlt_bool effectiveF2H mergedF1H && Qlt_bool effectiveF2L mergedF1L in
    if isFeatureDown then Qlt_bool (p_price (bi_end reboundBi)) peakPrice
    else false
  | down =>
    let isFeatureUp :=
      Qlt_bool mergedF1H effectiveF2H && Qlt_bool mergedF1L effectiveF2L in
    if isFeatureUp then Qlt_bool peakPrice (p_price (bi_end reboundBi))
    else false
  end.

(** One iteration of the [for] loop at position [i]: [true] when the body
    executes [return i], [false] when it reaches a [continue] or falls
    through.  Every read is in range under the loop guard; a read outside
    the array gives [false]. *)
Definition destructionAt (biList : list ChanBi) (i : nat) (type : Dir) : bool :=
  match nth_error biList i with
  | None => false
  | Some candidateBi =>
    if negb (Dir_eqb (bi_type candidateBi) type) then false
    else if length biList <=? i + 3 then false
    else
      match nth_error biList (i + 1), nth_error biList (i + 3) with
      | Some f1, Some f2 =>
        let f1H := biHigh f1 in
        let f1L := biLow f1 in
        let f2H := biHigh f2 in
        let f2L := biLow f2 in
        let isF2inF1 := Qle_bool f2H f1H && Qle_bool f1L f2L in
        let isF1inF2 := Qle_bool f1H f2H && Qle_bool f2L f1L in
        let peakPrice := p_price (bi_end candidateBi) in
        if isF2inF1 || isF1inF2 then
          let mergedF1H :=
            match type with up => Math_min f1H f2H | down => Math_max f1H f2H end in
          let mergedF1L :=
            match type with up => Math_min f1L f2L | down => Math_max f1L f2L end in
          if i + 5 <? length biList then
            match nth_error biList (i + 5), nth_error biList (i + 4) with
            | Some f3, Some reboundBi =>
              turnConfirmed type mergedF1H mergedF1L (biHigh f3) (biLow f3)
                            reboundBi peakPrice
            | _, _ => false
            end
          else false
        else
          match nth_error biList (i + 2) with
          | Some reboundBi => turnConfirmed type f1H f1L f2H f2L reboundBi peakPrice
          | None => false
          end
      | _, _ => false
      end
  end.

(** [for (let i = startIndex; i < biList.length - 3; i++)] with [count]
    iterations left; [None] stands for the result [-1]. *)
Fixpoint destructionScan (biList : list ChanBi) (type : Dir) (i count : nat)
  : option nat :=
  match count with
  | 0 => None
  | S count' =>
    if destructionAt biList i type then Some i
    else destructionScan biList type (S i) count'
  end.

Definition checkSegmentDestruction (biList : list ChanBi) (startIndex : nat)
           (type : Dir) : option nat :=
  destructionScan biList type startIndex (length biList - 3 - startIndex).

Definition flipDir (d : Dir) : Dir :=
  match d with up => down | down => up end.

(** [biList.slice(a, b)] and [biList.slice(a)]. *)
Definition slice {A : Type} (l : list A) (a b : nat) : list A :=
  firstn (b - a) (skipn a l).
Definition sliceFrom {A : Type} (l : list A) (a : nat) : list A := skipn a l.

(** A small error monad: [None] is "no result" (the loop budget ran out, or
    an element of an array was read outside its bounds). *)
Definition bind {A B : Type} (m : option A) (f : A -> option B) : option B :=
  match m with
  | Some a => f a
  | None => None
  end.

Notation "x <- m ;; k" := (bind m (fun x => k))
  (at level 61, m at next level, right associativity).

(** The [while (i < biList.length)] loop, with a budget of iterations. *)
Fixpoint segmentLoop (fuel : nat) (biList : list ChanBi)
         (startBiIndex : nat) (currentSegType : Dir) (i : nat)
  : option (list ChanSeg) :=
  match fuel with
  | 0 => None
  | S fuel' =>
    if i <? length biList then
      first <- nth_error biList startBiIndex ;;
      match checkSegmentDestruction biList startBiIndex currentSegType with
      | None =>
        lastBi <- nth_error biList (length biList - 1) ;;
        Some [mkSeg (bi_start first) (bi_end lastBi) currentSegType
                    (sliceFrom biList startBiIndex)]
      | Some potentialEndIndex =>
        endBi <- nth_error biList potentialEndIndex ;;
        more <- segmentLoop fuel' biList potentialEndIndex
                  (flipDir currentSegType) potentialEndIndex ;;
        Some (mkSeg (bi_start first) (bi_end endBi) currentSegType
                    (slice biList startBiIndex (potentialEndIndex + 1)) :: more)
      end
    else Some []
  end.

Definition generateSegmentsStrict (biList : list ChanBi) : option (list ChanSeg) :=
  match biList with
  | [] => Some []
  | b0 :: _ =>
    if length biList <? 3 then Some []
    else segmentLoop (2 * length biList + 2) biList 0 (bi_type b0) 0
  end.

(* ------------------------------------------------------------------ *)
(** ** 5./6. Pivots: [generatePivotsFromBi], [generatePivotsFromSeg] *)

(** The extension loop [while (j < biList.length)], run on [biList[j..]];
    it returns the final [(endBiIdx, currentGG, currentDD)]. *)
Fixpoint extendPivot (rest : list ChanBi) (j : nat) (currentZG currentZD : Q)
         (endBiIdx : nat) (currentGG currentDD : Q) : nat * Q * Q :=
  match rest with
  | [] => (endBiIdx, currentGG, currentDD)
  | nextBi :: rest' =>
    let h := biHigh nextBi in
    let l := biLow nextBi in
    if Qlt_bool (Math_max l currentZD) (Math_min h currentZG)
    then extendPivot rest' (S j) currentZG currentZD
                     j (Math_max currentGG h) (Math_min currentDD l)
    else (endBiIdx, currentGG, currentDD)
  end.

(** The [for (let i = 0; i <= biList.length - 3; i += 1)] loop, whose body
    also assigns [i]; [pivots] is newest-first. *)
Fixpoint pivotLoop (fuel : nat) (biList : list ChanBi) (i : nat)
         (pivots : list ChanPivot) : option (list ChanPivot) :=
  match fuel with
  | 0 => None
  | S fuel' =>
    if i + 3 <=? length biList then
      b1 <- nth_error biList i ;;
      b2 <- nth_error biList (i + 1) ;;
      b3 <- nth_error biList (i + 2) ;;
      if Dir_eqb (bi_type b1) (bi_type b2) then pivotLoop fuel' biList (S i) pivots
      else
        let zg := Math_min3 (biHigh b1) (biHigh b2) (biHigh b3) in
        let zd := Math_max3 (biLow b1) (biLow b2) (biLow b3) in
        if Qlt_bool zd zg then
          let '(endBiIdx, currentGG, currentDD) :=
            extendPivot (skipn (i + 3) biList) (i + 3) zg zd (i + 2)
                        (Math_max3 (biHigh b1) (biHigh b2) (biHigh b3))
                        (Math_min3 (biLow b1) (biLow b2) (biLow b3)) in
          if match pivots with
             | [] => true
             | lastP :: _ => endBiIndex lastP <? i
             end
          then
            endBi <- nth_error biList endBiIdx ;;
            pivotLoop fuel' biList (endBiIdx - 1 + 1)
              (mkPivot i endBiIdx zg zd currentGG currentDD neutral
                       (p_time (bi_start b1)) (p_time (bi_end endBi)) level_bi
               :: pivots)
          else pivotLoop fuel' biList (S i) pivots
        else pivotLoop fuel' biList (S i) pivots
    else Some (rev pivots)
  end.

Definition generatePivotsFromBi (biList : list ChanBi) : option (list ChanPivot) :=
  if length biList <? 3 then Some []
  else pivotLoop (length biList) biList 0 [].

Definition pseudoBi (s : ChanSeg) : ChanBi :=
  mkBi (seg_start s) (seg_end s) (seg_type s) true.

Definition asSegLevel (p : ChanPivot) : ChanPivot :=
  mkPivot (startBiIndex p) (endBiIndex p) (zg p) (zd p) (gg p) (dd p)
          (direction p) (startTime p) (endTime p) level_seg.

Definition generatePivotsFromSeg (segList : list ChanSeg) : option (list ChanPivot) :=
  rawPivots <- generatePivotsFromBi (map pseudoBi segList) ;;
  Some (map asSegLevel rawPivots).

(** Pivot validity, as a decidable check. *)
Definition pivotValid (p : ChanPivot) : Prop :=
  (zd p < zg p)%Q /\ (zg p <= gg p)%Q /\ (dd p <= zd p)%Q.

(* ------------------------------------------------------------------ *)
(** ** MACD (services/indicators.ts) *)

Record MACDResult := mkMACD { dif : Q; dea : Q; hist : Q }.

(** [emaArray.push(data[i] * k + emaArray[i - 1] * (1 - k))]. *)
Fixpoint emaLoop (k prev : Q) (data : list Q) : list Q :=
  match data with
  | [] => []
  | d :: data' =>
    let e := fadd (fmul d k) (fmul prev (fsub 1 k)) in
    e :: emaLoop k e data'
  end.

(** [k = 2 / (period + 1)].  At [period = -1] the source divides by zero
    and every entry after the first is NaN; those entries are outside the
    model, the length and the first entry are not. *)
Definition calculateEMA (data : list Q) (period : Z) : list Q :=
  match data with
  | [] => []
  | d0 :: data' =>
    let k := fdiv 2 (fadd (inject_Z period) 1) in
    d0 :: emaLoop k d0 data'
  end.

Fixpoint zipWith {A B C : Type} (f : A -> B -> C) (l : list A) (l' : list B)
  : list C :=
  match l, l' with
  | a :: t, b :: t' => f a b :: zipWith f t t'
  | _, _ => []
  end.

Definition calculateMACD (klines : list Kline) (fastPeriod slowPeriod signalPeriod : Z)
  : list MACDResult :=
  match klines with
  | [] => []
  | _ :: _ =>
    let closePrices := map k_close klines in
    let emaFast := calculateEMA closePrices fastPeriod in
    let emaSlow := calculateEMA closePrices slowPeriod in
    let difs := zipWith fsub emaFast emaSlow in
    let dea := calculateEMA difs signalPeriod in
    zipWith (fun d e => mkMACD d e (fmul (fsub d e) 2)) difs dea
  end.

(* ------------------------------------------------------------------ *)
(** ** 7. Structure and signals: [analyzeStructure] *)

Inductive SignalType := sig_1B | sig_2B | sig_3B | sig_1S | sig_2S | sig_3S.
Inductive Trend := trend_up | trend_down | consolidation.

Record BuySellPoint := mkSignal {
  s_type : SignalType;
  s_price : Q;
  s_time : Z;
  desc : string;
  isSegmentLevel : bool
}.

Record Divergence := mkDivergence {
  isDivergent : bool;
  d_type : option PointType;
  strength : Q;
  description : string
}.

Record ChanLunFeatures := mkFeatures {
  f_klines : list MergedKline;
  fractals : list ChanPoint;
  biList : list ChanBi;
  segList : list ChanSeg;
  pivots : list ChanPivot;
  trend : Trend;
  buySellPoints : list BuySellPoint;
  divergence : Divergence
}.

Definition trendOf (biList : list ChanBi) (biPivots segPivots : list ChanPivot)
  : Trend :=
  let activePivots := if 2 <=? length segPivots then segPivots else biPivots in
  if 2 <=? length activePivots then
    match rev activePivots with
    | lastP :: prevP :: _ =>
      if Qlt_bool (zg prevP) (zd lastP) then trend_up
      else if Qlt_bool (zg lastP) (zd prevP) then trend_down
      else consolidation
    | _ => consolidation
    end
  else
    match rev biList with
    | lastBi :: _ => if Dir_eqb (bi_type lastBi) up then trend_up else trend_down
    | [] => consolidation
    end.

(** [getRangeMACD(startIndex, endIndex).area].  Positions are naturals, so
    the guard [startIndex < 0] never fires. *)
Definition getRangeMACD (macd : list MACDResult) (startIndex endIndex : nat) : Q :=
  if length macd <=? endIndex then 0%Q
  else
    fold_left
      (fun area i =>
         match nth_error macd i with
         | Some m => fadd area (Qabs (hist m))
         | None => area
         end)
      (seq startIndex (S endIndex - startIndex)) 0%Q.

Definition getBiMACD (macd : list MACDResult) (bi : ChanBi) : Q :=
  getRangeMACD macd (p_index (bi_start bi)) (p_index (bi_end bi)).
Definition getSegMACD (macd : list MACDResult) (seg : ChanSeg) : Q :=
  getRangeMACD macd (p_index (seg_start seg)) (p_index (seg_end seg)).

(** The 1B / 1S block for one pair [curr = list[i]], [prev = list[i-2]],
    shared by both granularities up to the threshold, the description and
    the level flag.  [currForce < prevForce * threshold] compares with the
    rounded product. *)
Definition divergenceSignal (currType : Dir) (currEnd prevEnd : ChanPoint)
           (currForce prevForce threshold : Q) (descB descS : string)
           (segLevel : bool) : list BuySellPoint :=
  if Dir_eqb currType down && Qlt_bool (p_price currEnd) (p_price prevEnd) then
    if Qlt_bool currForce (fmul prevForce threshold)
    then [mkSignal sig_1B (p_price currEnd) (p_time currEnd) descB segLevel]
    else []
  else if Dir_eqb currType up && Qlt_bool (p_price prevEnd) (p_price currEnd) then
    if Qlt_bool currForce (fmul prevForce threshold)
    then [mkSignal sig_1S (p_price currEnd) (p_time currEnd) descS segLevel]
    else []
  else [].

(** The stroke-level call; the literal [0.9] is the double nearest to nine
    tenths. *)
Definition biDivergenceAt (macd : list MACDResult) (curr prev : ChanBi)
  : list BuySellPoint :=
  divergenceSignal (bi_type curr) (bi_end curr) (bi_end prev)
                   (getBiMACD macd curr) (getBiMACD macd prev) (fl (9 # 10))
                   "一买 (盘背)" "一卖 (盘背)" false.

(** The segment-level call, with the literal [0.8]. *)
Definition segDivergenceAt (macd : list MACDResult) (curr prev : ChanSeg)
  : list BuySellPoint :=
  divergenceSignal (seg_type curr) (seg_end curr) (seg_end prev)
                   (getSegMACD macd curr) (getSegMACD macd prev) (fl (8 # 10))
                   "🔥线段底背驰" "🔥线段顶背驰" true.

(** The 3B / 3S block at stroke position [i]. *)
Definition thirdTypeAt (biPivots : list ChanPivot) (i : nat)
           (curr breakout : ChanBi) : list BuySellPoint :=
  match find (fun p => endBiIndex p =? i - 2) biPivots with
  | None => []
  | Some pivot =>
    (if Dir_eqb (bi_type curr) down && Dir_eqb (bi_type breakout) up
        && Qlt_bool (zg pivot) (p_price (bi_end breakout))
        && Qlt_bool (zg pivot) (p_price (bi_end curr))
     then [mkSignal sig_3B (p_price (bi_end curr)) (p_time (bi_end curr))
                    "三买 (中枢破坏)" false]
     else [])
    ++
    (if Dir_eqb (bi_type curr) up && Dir_eqb (bi_type breakout) down
        && Qlt_bool (p_price (bi_end breakout)) (zd pivot)
        && Qlt_bool (p_price (bi_end curr)) (zd pivot)
     then [mkSignal sig_3S (p_price (bi_end curr)) (p_time (bi_end curr))
                    "三卖 (中枢破坏)" false]
     else [])
  end.

(** Body of [for (let i = 2; i < biList.length; i++)] at position [i]. *)
Definition biSignalsAt (macd : list MACDResult) (biPivots : list ChanPivot)
           (biList : list ChanBi) (i : nat) : list BuySellPoint :=
  match nth_error biList i, nth_error biList (i - 2), nth_error biList (i - 1) with
  | Some curr, Some prev, Some breakout =>
    biDivergenceAt macd curr prev ++ thirdTypeAt biPivots i curr breakout
  | _, _, _ => []
  end.

(** Body of [for (let i = 2; i < segList.length; i++)] at position [i]. *)
Definition segSignalsAt (macd : list MACDResult) (segList : list ChanSeg)
           (i : nat) : list BuySellPoint :=
  match nth_error segList i, nth_error segList (i - 2) with
  | Some curr, Some prev => segDivergenceAt macd curr prev
  | _, _ => []
  end.

Definition signalsOf (macd : list MACDResult) (biPivots : list ChanPivot)
           (biList : list ChanBi) (segList : list ChanSeg) : list BuySellPoint :=
  flat_map (biSignalsAt macd biPivots biList) (seq 2 (length biList - 2))
  ++ flat_map (segSignalsAt macd segList) (seq 2 (length segList - 2)).

Definition noDivergence : Divergence := mkDivergence false None 0%Q "".

Definition latestDivergenceOf (buySellPoints : list BuySellPoint)
           (klines : list Kline) : Divergence :=
  match rev buySellPoints with
  | lastSignal :: _ =>
    match s_type lastSignal with
    | sig_1B | sig_1S =>
      match rev klines with
      | lastK :: _ =>
        if (Z.abs (s_time lastSignal - k_time lastK) <? 3600 * 1000 * 10)%Z
        then mkDivergence true
               (Some match s_type lastSignal with sig_1B => bottom | _ => top end)
               (fl (95 # 100)) (desc lastSignal)
        else noDivergence
      | [] => noDivergence
      end
    | _ => noDivergence
    end
  | [] => noDivergence
  end.

Definition analyzeStructure (biList : list ChanBi) (segList : list ChanSeg)
           (biPivots segPivots : list ChanPivot) (macd : list MACDResult)
           (klines : list Kline) : list BuySellPoint * Divergence * Trend :=
  let buySellPoints := signalsOf macd biPivots biList segList in
  (buySellPoints, latestDivergenceOf buySellPoints klines,
   trendOf biList biPivots segPivots).

(* ------------------------------------------------------------------ *)
(** ** The engine: [calculateChanLun] *)

Definition emptyResult : ChanLunFeatures :=
  mkFeatures [] [] [] [] [] consolidation [] noDivergence.

(** [sort((a, b) => a.startTime - b.startTime)]: a stable sort. *)
Fixpoint insertByStartTime (p : ChanPivot) (l : list ChanPivot) : list ChanPivot :=
  match l with
  | [] => [p]
  | q :: l' =>
    if (startTime p <=? startTime q)%Z then p :: l
    else q :: insertByStartTime p l'
  end.

Definition sortByStartTime (l : list ChanPivot) : list ChanPivot :=
  fold_right insertByStartTime [] l.

Definition calculateChanLun (klines : list Kline) (settings : AppSettings)
  : option ChanLunFeatures :=
  if length klines <? 10 then Some emptyResult
  else
    let mergedKlines := processInclusionStrict klines in
    let fractals := identifyFractals mergedKlines in
    let biList := generateBi fractals mergedKlines settings in
    segList <- generateSegmentsStrict biList ;;
    biPivots <- generatePivotsFromBi biList ;;
    segPivots <- generatePivotsFromSeg segList ;;
    let allPivots := sortByStartTime (biPivots ++ segPivots) in
    let macd := calculateMACD klines (macdFast settings) (macdSlow settings)
                              (macdSignal settings) in
    let '(buySellPoints, divergence, trend) :=
      analyzeStructure biList segList biPivots segPivots macd klines in
    Some (mkFeatures mergedKlines fractals biList segList allPivots
                     trend buySellPoints divergence).

(* ------------------------------------------------------------------ *)
(** ** Invariants of the inclusion loop *)

(** Two neighbouring merged bars, the later one strictly higher (both high
    and low) or strictly lower than the earlier one. *)
Definition stepRel (a b : MergedKline) : Prop :=
  (m_high a < m_high b /\ m_low a < m_low b)%Q
  \/ (m_high b < m_high a /\ m_low b < m_low a)%Q.

(** Every neighbouring pair of a newest-first list is a strict step. *)
Fixpoint stepChain (result : list MergedKline) : Prop :=
  match result with
  | [] => True
  | x :: older =>
    match older with
    | [] => True
    | y :: _ => stepRel y x /\ stepChain older
    end
  end.

(** The [direction] accumulator agrees with the step between the last two
    merged bars. *)
Definition inclusionInv (st : InclusionState) : Prop :=
  let '(result, d) := st in
  stepChain result /\
  match result with
  | x :: y :: _ =>
    (d = 1%Z /\ (m_high y < m_high x /\ m_low y < m_low x)%Q)
    \/ (d = (-1)%Z /\ (m_high x < m_high y /\ m_low x < m_low y)%Q)
  | _ => True
  end.

(** Original-index spans of a newest-first list: each span is non-empty,
    starts right after the span of the next older bar, and the oldest one
    starts at 0. *)
Fixpoint spanChain (result : list MergedKline) : Prop :=
  match result with
  | [] => True
  | x :: older =>
    originalStartIndex x <= originalEndIndex x
    /\ match older with
       | [] => originalStartIndex x = 0
       | y :: _ => originalStartIndex x = S (originalEndIndex y)
       end
    /\ spanChain older
  end.

(** Before bar [i] is processed the newest span ends at [i - 1]. *)
Definition spanInv (i : nat) (st : InclusionState) : Prop :=
  match fst st with
  | x :: _ => S (originalEndIndex x) = i
  | [] => False
  end /\ spanChain (fst st).

(** The merged bar's [originalEndIndex] is the position of the source bar
    whose time it carries. *)
Definition mappedBack (klines : list Kline) (m : MergedKline) : Prop :=
  exists k, nth_error klines (originalEndIndex m) = Some k /\ k_time k = m_time m.

(* ------------------------------------------------------------------ *)
(** ** Properties of the alternation filter *)

(** Consecutive elements differ in type. *)
Definition strictlyAlternates (points : list ChanPoint) : Prop :=
  forall i a b,
    nth_error points i = Some a -> nth_error points (S i) = Some b ->
    p_type a <> p_type b.

(** The same property on a newest-first accumulator. *)
Fixpoint altChain (rawPoints : list ChanPoint) : Prop :=
  match rawPoints with
  | [] => True
  | x :: older =>
    match older with
    | [] => True
    | y :: _ => p_type y <> p_type x /\ altChain older
    end
  end.

(** [p] is at least as extreme as [q]: not lower for a top, not higher for a
    bottom. *)
Definition atLeastAsExtreme (p q : ChanPoint) : Prop :=
  match p_type p with
  | top => (p_price q <= p_price p)%Q
  | bottom => (p_price p <= p_price q)%Q
  end.

Definition strictlyMoreExtreme (p q : ChanPoint) : Prop :=
  match p_type p with
  | top => (p_price q < p_price p)%Q
  | bottom => (p_price p < p_price q)%Q
  end.

(** [p] is the point kept for the run [run] of same-type input points. *)
Definition keptOfRun (run : list ChanPoint) (p : ChanPoint) : Prop :=
  In p run
  /\ forall q, In q run -> p_type q = p_type p /\ atLeastAsExtreme p q.

Definition topAt (t : Z) (price : Z) : ChanPoint :=
  mkPoint (Z.to_nat t) (inject_Z price) top t true.
Definition bottomAt (t : Z) (price : Z) : ChanPoint :=
  mkPoint (Z.to_nat t) (inject_Z price) bottom t true.

(** Three tops in a row, the first one the highest. *)
Definition threeTops : list ChanPoint := [topAt 1 10; topAt 2 5; topAt 3 7].

(* ------------------------------------------------------------------ *)
(** ** Properties of the validity filter *)

(** The threshold rule in the words of the specification: [custom] compares
    with the configured bar count minus 1. *)
Definition statedAccepts (settings : AppSettings) (count : Z) : Prop :=
  match biType settings with
  | bi_old => (4 <= count)%Z
  | bi_new => (3 <= count)%Z
  | bi_fractal => True
  | bi_custom => (biKCount settings - 1 <= count)%Z
  end.

(** The threshold rule with the fallback of the code: a configured count of
    0 is replaced by 5. *)
Definition accepts (settings : AppSettings) (count : Z) : Prop :=
  match biType settings with
  | bi_old => (4 <= count)%Z
  | bi_new => (3 <= count)%Z
  | bi_fractal => True
  | bi_custom =>
    ((if (biKCount settings =? 0)%Z then 5 else biKCount settings) - 1 <= count)%Z
  end.

Definition adjacentPairs {A : Type} (l : list A) : list (A * A) :=
  combine l (tl l).

(** The filter accepts a pair of adjacent points exactly when the stated
    rule holds for its count. *)
Definition validityAsStated (klines : list MergedKline) (settings : AppSettings)
           (rawPoints : list ChanPoint) : Prop :=
  forall i s e,
    nth_error rawPoints i = Some s -> nth_error rawPoints (S i) = Some e ->
    (In (biOf s e) (validBiLoop klines settings rawPoints)
     <-> statedAccepts settings (kCount klines s e)).

(** Test bars: bar number [i] has time [i], high [c + 1] and low [c - 1]
    for the [i]-th centre [c]. *)
Definition barsAround (centres : list Z) : list Kline :=
  map (fun ic : nat * Z =>
         let '(i, c) := ic in
         mkKline (Z.of_nat i) (inject_Z (c - 1)) (inject_Z (c + 1))
                 (inject_Z (c - 1)) (inject_Z (c + 1)) 1%Q)
      (combine (seq 0 (length centres)) centres).

(** A zig-zag of 33 bars. *)
Definition zigzagBars : list Kline :=
  barsAround [10; 12; 14; 12; 10; 12; 14; 16; 18; 16; 14; 16; 18; 20; 22; 20; 18;
              16; 14; 12; 10; 8; 10; 12; 10; 8; 6; 4; 6; 8; 6; 4; 2]%Z.

Definition fractalSettings : AppSettings := mkSettings bi_fractal 5 12 26 9.
Definition customZeroSettings : AppSettings := mkSettings bi_custom 0 12 26 9.

(* ------------------------------------------------------------------ *)
(** ** The destruction test in the words of the specification *)

(** The price ranges of two feature elements overlap: one contains the
    other. *)
Definition rangesOverlap (f1 f2 : ChanBi) : Prop :=
  (biHigh f2 <= biHigh f1 /\ biLow f1 <= biLow f2)%Q
  \/ (biHigh f1 <= biHigh f2 /\ biLow f2 <= biLow f1)%Q.

(** The merge rule opposite to the segment direction: (min, min) for an up
    segment, (max, max) for a down segment. *)
Definition oppositeMergeHigh (type : Dir) (f1 f2 : ChanBi) : Q :=
  match type with
  | up => Math_min (biHigh f1) (biHigh f2)
  | down => Math_max (biHigh f1) (biHigh f2)
  end.
Definition oppositeMergeLow (type : Dir) (f1 f2 : ChanBi) : Q :=
  match type with
  | up => Math_min (biLow f1) (biLow f2)
  | down => Math_max (biLow f1) (biLow f2)
  end.

(** (a) the pair moves opposite the segment direction. *)
Definition movesOpposite (type : Dir) (firstH firstL secondH secondL : Q) : Prop :=
  match type with
  | up => (secondH < firstH /\ secondL < firstL)%Q
  | down => (firstH < secondH /\ firstL < secondL)%Q
  end.

(** (b) the rebound / retrace stroke closes back through the candidate's
    price. *)
Definition closesBackThrough (type : Dir) (rebound candidate : ChanBi) : Prop :=
  match type with
  | up => (p_price (bi_end rebound) < p_price (bi_end candidate))%Q
  | down => (p_price (bi_end candidate) < p_price (bi_end rebound))%Q
  end.

(** Termination is confirmed at the candidate stroke [i] of a segment of
    direction [type]. *)
Definition terminationConfirmed (biList : list ChanBi) (i : nat) (type : Dir) : Prop :=
  exists candidate f1 f2,
    nth_error biList i = Some candidate
    /\ bi_type candidate = type
    /\ nth_error biList (i + 1) = Some f1
    /\ nth_error biList (i + 3) = Some f2
    /\ ((~ rangesOverlap f1 f2
         /\ exists rebound,
              nth_error biList (i + 2) = Some rebound
              /\ movesOpposite type (biHigh f1) (biLow f1) (biHigh f2) (biLow f2)
              /\ closesBackThrough type rebound candidate)
        \/ (rangesOverlap f1 f2
            /\ exists f3 rebound,
                 nth_error biList (i + 5) = Some f3
                 /\ nth_error biList (i + 4) = Some rebound
                 /\ movesOpposite type (oppositeMergeHigh type f1 f2)
                                  (oppositeMergeLow type f1 f2)
                                  (biHigh f3) (biLow f3)
                 /\ closesBackThrough type rebound candidate)).

(* ------------------------------------------------------------------ *)
(** ** Properties of the segment list *)

(** Exact partition: the owned stroke lists, concatenated in order, are the
    stroke chain. *)
Definition partitionsExactly (biList : list ChanBi) (segments : list ChanSeg) : Prop :=
  concat (map seg_biList segments) = biList.

(** Concatenation in which every list after the first gives up its first
    element (the stroke it shares with the list before it). *)
Definition joinShared (owned : list (list ChanBi)) : list ChanBi :=
  match owned with
  | [] => []
  | first :: rest => first ++ concat (map (@tl ChanBi) rest)
  end.

(** Every owned list is non-empty and begins with the last stroke of the
    list before it. *)
Fixpoint sharesBoundaries (owned : list (list ChanBi)) : Prop :=
  match owned with
  | [] => True
  | a :: rest =>
    a <> []
    /\ match rest with
       | [] => True
       | b :: _ => hd_error b = nth_error a (length a - 1)
       end
    /\ sharesBoundaries rest
  end.

(** Termination measure of the segment loop: the strokes left from
    [startBiIndex], counted twice, plus one while the stroke at
    [startBiIndex] can still be returned as a candidate. *)
Definition segmentMeasure (biList : list ChanBi) (startBiIndex : nat) (type : Dir)
  : nat :=
  2 * (length biList - startBiIndex)
  + match nth_error biList startBiIndex with
    | Some b => if Dir_eqb (bi_type b) type then 1 else 0
    | None => 0
    end.

(** The strokes of the zig-zag in [fractal] mode. *)
Definition zigzagStrokes : list ChanBi :=
  let merged := processInclusionStrict zigzagBars in
  generateBi (identifyFractals merged) merged fractalSettings.

(* ------------------------------------------------------------------ *)
(** ** Properties of the first-type divergence signals *)

(** Sum of the absolute histogram values of a run of MACD entries, added
    up in bar order in double arithmetic. *)
Definition sumAbsHist (entries : list MACDResult) : Q :=
  fold_left (fun area m => fadd area (Qabs (hist m))) entries 0%Q.

(** The MACD entries at positions [startIndex .. endIndex]. *)
Definition barRange (macd : list MACDResult) (startIndex endIndex : nat)
  : list MACDResult :=
  firstn (S endIndex - startIndex) (skipn startIndex macd).

(** The swing sets a new price extreme beyond the swing two places before
    it: a lower end for a down swing, a higher end for an up swing. *)
Definition newExtreme (type : Dir) (currEnd prevEnd : ChanPoint) : Prop :=
  match type with
  | down => (p_price currEnd < p_price prevEnd)%Q
  | up => (p_price prevEnd < p_price currEnd)%Q
  end.

Definition firstTypeOf (type : Dir) : SignalType :=
  match type with
  | down => sig_1B
  | up => sig_1S
  end.

Definition isFirstType (s : BuySellPoint) : Prop :=
  s_type s = sig_1B \/ s_type s = sig_1S.

(** Settings whose MACD periods keep the smoothing factor [2 / (period + 1)]
    of every EMA finite. *)
Definition finitePeriods (settings : AppSettings) : Prop :=
  macdFast settings <> (-1)%Z /\ macdSlow settings <> (-1)%Z
  /\ macdSignal settings <> (-1)%Z.

(** The rule for a swing and the swing two places before it: the later
    swing sets a new price extreme, and its force is strictly below the
    given fraction of the earlier swing's force, the product being the
    double the source computes. *)
Definition firstTypeRule (fraction : Q) (type : Dir) (currEnd prevEnd : ChanPoint)
           (currForce prevForce : Q) : Prop :=
  newExtreme type currEnd prevEnd /\ (currForce < fmul prevForce fraction)%Q.

(** The first-type signal of a swing: 1B for a down swing and 1S for an up
    swing, at the swing's end price and time, with the given level tag. *)
Definition firstTypeSignal (type : Dir) (endPoint : ChanPoint) (segLevel : bool)
           (s : BuySellPoint) : Prop :=
  s_type s = firstTypeOf type
  /\ s_price s = p_price endPoint /\ s_time s = p_time endPoint
  /\ isSegmentLevel s = segLevel.

(* ------------------------------------------------------------------ *)
(** ** The engine's fractal list *)

(** Every neighbouring pair of an in-order list is a strict step. *)
Fixpoint stepsInOrder (klines : list MergedKline) : Prop :=
  match klines with
  | [] => True
  | a :: tl =>
    match tl with
    | [] => True
    | b :: _ => stepRel a b /\ stepsInOrder tl
    end
  end.

(** The type a fractal must have when it follows the step from [a] to [b]:
    after a rise only a top can come next, after a fall only a bottom. *)
Definition turnAfter (a b : MergedKline) : PointType :=
  if Qlt_bool (m_high a) (m_high b) then top else bottom.

(** The same alternation property on an in-order list, with the type the
    first point is allowed to have. *)
Fixpoint alternatesFrom (first : PointType) (points : list ChanPoint) : Prop :=
  match points with
  | [] => True
  | p :: rest =>
    p_type p = first
    /\ alternatesFrom (match first with top => bottom | bottom => top end) rest
  end.

(** Bar times strictly increase along the input. *)
Definition timesIncrease (klines : list Kline) : Prop :=
  forall i j ki kj,
    i < j -> nth_error klines i = Some ki -> nth_error klines j = Some kj ->
    (k_time ki < k_time kj)%Z.

(** The children of a merged bar are source bars inside its span. *)
Definition childrenInSpan (klines : list Kline) (m : MergedKline) : Prop :=
  forall c, In c (children m) ->
    exists idx, originalStartIndex m <= idx <= originalEndIndex m
                /\ nth_error klines idx = Some c.

(** The extreme price of a source bar for a point type. *)
Definition extremeOf (type : PointType) (k : Kline) : Q :=
  match type with
  | top => k_high k
  | bottom => k_low k
  end.

(** A point whose time and price are both taken from one source bar, the
    bar holding the extreme: some bar of the input has the point's time and,
    as its high (for a top) or low (for a bottom), the point's price. *)
Definition takenFromExtremeBar (klines : list Kline) (p : ChanPoint) : Prop :=
  exists k,
    In k klines
    /\ p_time p = k_time k
    /\ (p_price p == extremeOf (p_type p) k)%Q.

(* ------------------------------------------------------------------ *)
(** ** Small inputs used to instantiate the theorems *)

(** Test bars: bar number [i] has time [i] and the [i]-th (low, high)
    range. *)
Definition barsBetween (ranges : list (Z * Z)) : list Kline :=
  map (fun ir : nat * (Z * Z) =>
         let '(i, (lo, hi)) := ir in
         mkKline (Z.of_nat i) (inject_Z lo) (inject_Z hi)
                 (inject_Z lo) (inject_Z hi) 1%Q)
      (combine (seq 0 (length ranges)) ranges).

(** Three strokes over four bars: two up strokes with a down stroke between
    them, the later up stroke ending higher than the earlier one. *)
Definition thresholdStrokes : list ChanBi :=
  [biOf (bottomAt 0 1) (topAt 1 5); biOf (topAt 1 5) (bottomAt 2 3);
   biOf (bottomAt 2 3) (topAt 3 7)].

(** A MACD series with the given histogram values. *)
Definition histSeries (values : list Q) : list MACDResult :=
  map (mkMACD 0 0) values.

(** Eleven bars rising to a peak and falling again; bar 6, with range
    [10, 14], lies inside bar 5, with range [9, 15], and is merged into
    it. *)
Definition insideBars : list Kline :=
  barsBetween [(1, 3); (3, 5); (5, 7); (7, 9); (8, 13); (9, 15); (10, 14);
               (7, 12); (5, 10); (3, 8); (1, 6)]%Z.

(** Nine bars, one below the minimum length. *)
Definition nineBars : list Kline := barsAround [1; 2; 3; 4; 5; 6; 7; 8; 9]%Z.

(** Six bars rising to a peak and falling again; bars 1 and 2 have the same
    range, so the second is merged into the first. *)
Definition peakBars : list Kline := barsAround [10; 12; 12; 14; 12; 10]%Z.

(* ------------------------------------------------------------------ *)
(** ** Further properties of the inclusion loop *)

(** The prices and times a merged bar carries, in terms of the source bars
    merged into it: high and low are the high and the low of some child,
    open, close and volume are those of the first child, the time is that
    of the last child. *)
Definition carriesChildValues (m : MergedKline) : Prop :=
  (exists c, In c (children m) /\ m_high m = k_high c)
  /\ (exists c, In c (children m) /\ m_low m = k_low c)
  /\ (exists c0 others,
         children m = c0 :: others
         /\ k_open (bar m) = k_open c0
         /\ k_close (bar m) = k_close c0
         /\ k_volume (bar m) = k_volume c0)
  /\ (exists before cl, children m = before ++ [cl] /\ m_time m = k_time cl).

(** Invariant of the loop before bar [i] is processed: the children of the
    merged bars, in order, are the first [i] source bars, and each merged
    bar's children are the source bars of its span. *)
Definition childrenInv (klines : list Kline) (i : nat) (st : InclusionState) : Prop :=
  concat (map children (rev (fst st))) = firstn i klines
  /\ Forall (fun m => children m
                      = slice klines (originalStartIndex m) (S (originalEndIndex m)))
            (fst st).

(** A well-formed bar: its low is not above its high. *)
Definition lowBelowHigh (k : Kline) : Prop := (k_low k <= k_high k)%Q.


(** Every neighbouring pair of a list, in order, is related by [R]. *)
Fixpoint neighbours {A : Type} (R : A -> A -> Prop) (l : list A) : Prop :=
  match l with
  | [] => True
  | a :: tl =>
    match tl with
    | [] => True
    | b :: _ => R a b /\ neighbours R tl
    end
  end.

(** The containment test of the merge loop on two source bars. *)
Definition barsContained (a b : Kline) : bool :=
  Qle_bool (k_high b) (k_high a) && Qle_bool (k_low a) (k_low b)
  || Qle_bool (k_high a) (k_high b) && Qle_bool (k_low b) (k_low a).

Definition risesTo (a b : Kline) : Prop :=
  (k_high a < k_high b /\ k_low a < k_low b)%Q.
Definition fallsTo (a b : Kline) : Prop :=
  (k_high b < k_high a /\ k_low b < k_low a)%Q.

(** The bars [rest], at positions [i], [i + 1], ..., each as a merged bar of
    its own. *)
Fixpoint wrapFrom (i : nat) (rest : list Kline) : list MergedKline :=
  match rest with
  | [] => []
  | k :: rest' => mkMergedKline k i i [k] :: wrapFrom (S i) rest'
  end.

(** A result without any structure. *)
Definition noStructure (r : ChanLunFeatures) : Prop :=
  fractals r = [] /\ biList r = [] /\ segList r = [] /\ pivots r = []
  /\ buySellPoints r = [] /\ trend r = consolidation
  /\ divergence r = noDivergence.

(** A point that sits on a source bar: its index is the position of a bar
    and its time is that bar's time. *)
Definition pointOnBar (klines : list Kline) (p : ChanPoint) : Prop :=
  exists k, nth_error klines (p_index p) = Some k /\ k_time k = p_time p.


(* ------------------------------------------------------------------ *)
(** ** Further properties of strokes and segments *)

(** A swing that runs forward: it starts at an earlier bar than it ends. *)
Definition biForward (b : ChanBi) : Prop :=
  p_index (bi_start b) < p_index (bi_end b).
Definition segForward (s : ChanSeg) : Prop :=
  p_index (seg_start s) < p_index (seg_end s).

(** [a] ends no later than [b] starts. *)
Definition biBefore (a b : ChanBi) : Prop :=
  p_index (bi_end a) <= p_index (bi_start b).

(** A stroke joins a bottom to a top (up) or a top to a bottom (down). *)
Definition biJoinsOppositeTypes (b : ChanBi) : Prop :=
  match bi_type b with
  | up => p_type (bi_start b) = bottom /\ p_type (bi_end b) = top
  | down => p_type (bi_start b) = top /\ p_type (bi_end b) = bottom
  end.

(** The run of the segment loop from [startBiIndex] with direction [type],
    read off the list of segments it produced: every segment but the last
    ends at the position [p] returned by [checkSegmentDestruction] and owns
    the strokes [startBiIndex .. p]; the next one starts at [p] with the
    flipped direction; the last one owns everything from its start on. *)
Fixpoint segmentRun (biList : list ChanBi) (startBiIndex : nat) (type : Dir)
         (segments : list ChanSeg) : Prop :=
  match segments with
  | [] => False
  | s :: more =>
    seg_type s = type
    /\ (exists first,
          nth_error biList startBiIndex = Some first
          /\ seg_start s = bi_start first)
    /\ match more with
       | [] =>
         checkSegmentDestruction biList startBiIndex type = None
         /\ seg_biList s = sliceFrom biList startBiIndex
         /\ exists lastBi,
              nth_error biList (length biList - 1) = Some lastBi
              /\ seg_end s = bi_end lastBi
       | _ :: _ =>
         exists p endBi,
           checkSegmentDestruction biList startBiIndex type = Some p
           /\ nth_error biList p = Some endBi
           /\ seg_end s = bi_end endBi
           /\ seg_biList s = slice biList startBiIndex (p + 1)
           /\ segmentRun biList p (flipDir type) more
       end
  end.

(** Consecutive segments have opposite directions, starting with [type]. *)
Fixpoint segmentsAlternateFrom (type : Dir) (segments : list ChanSeg) : Prop :=
  match segments with
  | [] => True
  | s :: more => seg_type s = type /\ segmentsAlternateFrom (flipDir type) more
  end.

(** A segment's end points are those of its owned strokes: it starts where
    its first stroke starts and ends where its last stroke ends. *)
Definition segmentSpansOwned (s : ChanSeg) : Prop :=
  exists first last,
    hd_error (seg_biList s) = Some first
    /\ nth_error (seg_biList s) (length (seg_biList s) - 1) = Some last
    /\ seg_start s = bi_start first
    /\ seg_end s = bi_end last.

(** The last owned stroke of a segment has the segment's direction. *)
Definition endsOnOwnDirection (s : ChanSeg) : Prop :=
  exists last,
    nth_error (seg_biList s) (length (seg_biList s) - 1) = Some last
    /\ bi_type last = seg_type s.


(* ------------------------------------------------------------------ *)
(** ** Further properties of pivots *)

(** The overlap test of the extension loop:
    [Math.min(h, currentZG) > Math.max(l, currentZD)]. *)
Definition swingOverlapsBand (b : ChanBi) (zg zd : Q) : Prop :=
  (Math_max (biLow b) zd < Math_min (biHigh b) zg)%Q.

(** Where a pivot sits in its swing list: it covers at least three swings,
    all inside the list; its band comes from its first three swings, the
    first two of opposite direction; its times are the start of its first
    and the end of its last swing. *)
Definition pivotRange (biList : list ChanBi) (p : ChanPivot) : Prop :=
  startBiIndex p + 2 <= endBiIndex p
  /\ endBiIndex p < length biList
  /\ direction p = neutral
  /\ exists b1 b2 b3 bEnd,
       nth_error biList (startBiIndex p) = Some b1
       /\ nth_error biList (startBiIndex p + 1) = Some b2
       /\ nth_error biList (startBiIndex p + 2) = Some b3
       /\ nth_error biList (endBiIndex p) = Some bEnd
       /\ bi_type b1 <> bi_type b2
       /\ zg p = Math_min3 (biHigh b1) (biHigh b2) (biHigh b3)
       /\ zd p = Math_max3 (biLow b1) (biLow b2) (biLow b3)
       /\ startTime p = p_time (bi_start b1)
       /\ endTime p = p_time (bi_end bEnd).

(** What the bands of a pivot say about the swings it covers: [gg] and
    [dd] are the highest high and the lowest low of the covered swings, every
    absorbed swing overlaps the band [zd, zg], and the swing after the pivot,
    if any, does not. *)
Definition pivotBands (biList : list ChanBi) (p : ChanPivot) : Prop :=
  (forall j b, startBiIndex p <= j <= endBiIndex p ->
               nth_error biList j = Some b ->
               (dd p <= biLow b /\ biHigh b <= gg p)%Q)
  /\ (exists j b, startBiIndex p <= j <= endBiIndex p
                  /\ nth_error biList j = Some b /\ gg p = biHigh b)
  /\ (exists j b, startBiIndex p <= j <= endBiIndex p
                  /\ nth_error biList j = Some b /\ dd p = biLow b)
  /\ (forall j b, startBiIndex p + 3 <= j <= endBiIndex p ->
                  nth_error biList j = Some b ->
                  swingOverlapsBand b (zg p) (zd p))
  /\ (forall b, nth_error biList (endBiIndex p + 1) = Some b ->
                ~ swingOverlapsBand b (zg p) (zd p)).

(** Neighbouring pivots of a newest-first list cover disjoint runs. *)
Fixpoint pivotChain (pivots : list ChanPivot) : Prop :=
  match pivots with
  | [] => True
  | p :: older =>
    match older with
    | [] => True
    | q :: _ => endBiIndex q < startBiIndex p /\ pivotChain older
    end
  end.

(** Everything the loop guarantees about a stroke-level pivot. *)
Definition pivotOver (biList : list ChanBi) (p : ChanPivot) : Prop :=
  pivotRange biList p /\ pivotBands biList p /\ level p = level_bi.


(* ------------------------------------------------------------------ *)
(** ** Further properties of the signal analyzer *)

Definition isThirdType (s : BuySellPoint) : Prop :=
  s_type s = sig_3B \/ s_type s = sig_3S.

(** The comparison of the two latest pivots. *)
Definition pivotTrend (prevP lastP : ChanPivot) : Trend :=
  if Qlt_bool (zg prevP) (zd lastP) then trend_up
  else if Qlt_bool (zg lastP) (zd prevP) then trend_down
  else consolidation.

(** The direction of a stroke as a trend. *)
Definition strokeTrend (b : ChanBi) : Trend :=
  if Dir_eqb (bi_type b) up then trend_up else trend_down.

(** The recency window of the active divergence, [3600 * 1000 * 10], in
    whatever unit the bar times are given. *)
Definition recencyWindow : Z := (3600 * 1000 * 10)%Z.

(** The length of a day when times are counted in seconds. *)
Definition secondsPerDay : Z := 86400%Z.

(** Pivots in the order of their start times. *)
Definition startsNoLater (p q : ChanPivot) : Prop := (startTime p <= startTime q)%Z.

(* ------------------------------------------------------------------ *)
(** ** Prices along the engine's fractals and strokes *)

(** From a top the next point is strictly lower, from a bottom strictly
    higher. *)
Definition priceTurns (p q : ChanPoint) : Prop :=
  match p_type p with
  | top => (p_price q < p_price p)%Q
  | bottom => (p_price p < p_price q)%Q
  end.

(** An up stroke ends above its start, a down stroke below it. *)
Definition biMovesItsWay (b : ChanBi) : Prop :=
  match bi_type b with
  | up => (p_price (bi_start b) < p_price (bi_end b))%Q
  | down => (p_price (bi_end b) < p_price (bi_start b))%Q
  end.

(** What the step from [prev] to [curr] says about the first fractal that
    follows: after a rise it is a top at least as high as [curr], after a
    fall a bottom at least as low as [curr]. *)
Definition firstPointBound (prev curr : MergedKline) (points : list ChanPoint) : Prop :=
  match points with
  | [] => True
  | p :: _ =>
    if Qlt_bool (m_high prev) (m_high curr)
    then p_type p = top /\ (m_high curr <= p_price p)%Q
    else p_type p = bottom /\ (p_price p <= m_low curr)%Q
  end.

(* ------------------------------------------------------------------ *)
(** ** A further small input *)

(** Twelve strictly rising bars. *)
Definition risingBars : list Kline :=
  barsAround [1; 3; 5; 7; 9; 11; 13; 15; 17; 19; 21; 23]%Z.

(** * Proofs *)

(* ------------------------------------------------------------------ *)
(** ** The model on concrete inputs *)

Example peakBars_merged :
  map (fun m => (originalStartIndex m, originalEndIndex m, m_time m))
      (processInclusionStrict peakBars)
  = [(0, 0, 0%Z); (1, 2, 2%Z); (3, 3, 3%Z); (4, 4, 4%Z); (5, 5, 5%Z)].
Proof. vm_compute. reflexivity. Qed.

Example peakBars_fractals :
  identifyFractals (processInclusionStrict peakBars)
  = [mkPoint 3 (inject_Z 15) top 3%Z true].
Proof. vm_compute. reflexivity. Qed.

Example zigzag_stroke_directions :
  map bi_type zigzagStrokes = [down; up; down; up; down; up; down; up].
Proof. vm_compute. reflexivity. Qed.

Example zigzag_first_destruction :
  checkSegmentDestruction zigzagStrokes 0 down = Some 0
  /\ checkSegmentDestruction zigzagStrokes 0 up = Some 1
  /\ checkSegmentDestruction zigzagStrokes 1 down = None.
Proof. vm_compute. repeat split; reflexivity. Qed.

Example zigzag_segments :
  option_map (map (fun s => (seg_type s, length (seg_biList s))))
             (generateSegmentsStrict zigzagStrokes)
  = Some [(down, 1); (up, 2); (down, 7)].
Proof. vm_compute. reflexivity. Qed.

Example zigzag_pivots :
  option_map (map (fun p => (startBiIndex p, endBiIndex p)))
             (generatePivotsFromBi zigzagStrokes)
  = Some [(0, 4); (5, 7)].
Proof. vm_compute. reflexivity. Qed.

Example threeTops_filtered : alternationFilter threeTops = [topAt 1 10].
Proof. vm_compute. reflexivity. Qed.

(* ------------------------------------------------------------------ *)
(** ** Comparisons on rationals *)

Lemma Qlt_bool_iff x y : Qlt_bool x y = true <-> (x < y)%Q.
Proof.
  unfold Qlt_bool. rewrite negb_true_iff. split.
  - intro H. apply Qnot_le_lt. intro L. apply Qle_bool_iff in L. congruence.
  - intro H. destruct (Qle_bool y x) eqn:E; [|reflexivity].
    apply Qle_bool_iff in E. exfalso. exact (Qlt_not_le _ _ H E).
Qed.

Lemma Qlt_bool_false x y : Qlt_bool x y = false <-> (y <= x)%Q.
Proof.
  unfold Qlt_bool. rewrite negb_false_iff. apply Qle_bool_iff.
Qed.

Lemma Qle_bool_false x y : Qle_bool x y = false <-> (y < x)%Q.
Proof.
  rewrite <- Qlt_bool_iff. unfold Qlt_bool.
  destruct (Qle_bool x y); simpl; intuition congruence.
Qed.

(** Turns the boolean comparisons of the context into propositions. *)
Ltac qbool :=
  repeat match goal with
  | H : andb _ _ = true |- _ => apply andb_true_iff in H; destruct H
  | H : andb _ _ = false |- _ => apply andb_false_iff in H; destruct H
  | H : orb _ _ = false |- _ => apply orb_false_iff in H; destruct H
  | H : orb _ _ = true |- _ => apply orb_true_iff in H; destruct H
  | H : Qle_bool _ _ = true |- _ => apply Qle_bool_iff in H
  | H : Qle_bool _ _ = false |- _ => apply Qle_bool_false in H
  | H : Qlt_bool _ _ = true |- _ => apply Qlt_bool_iff in H
  | H : Qlt_bool _ _ = false |- _ => apply Qlt_bool_false in H
  end.

(** Splits every [Qmax] / [Qmin] of the goal and context into its cases. *)
Ltac qminmax :=
  unfold Math_max3, Math_min3, Math_max, Math_min in *;
  repeat match goal with
  | |- context [Qmax ?a ?b] =>
      let m := fresh "m" in
      destruct (Q.max_spec a b) as [[? ?]|[? ?]];
      set (m := Qmax a b) in *; clearbody m
  | |- context [Qmin ?a ?b] =>
      let m := fresh "m" in
      destruct (Q.min_spec a b) as [[? ?]|[? ?]];
      set (m := Qmin a b) in *; clearbody m
  | H : context [Qmax ?a ?b] |- _ =>
      let m := fresh "m" in
      destruct (Q.max_spec a b) as [[? ?]|[? ?]];
      set (m := Qmax a b) in *; clearbody m
  | H : context [Qmin ?a ?b] |- _ =>
      let m := fresh "m" in
      destruct (Q.min_spec a b) as [[? ?]|[? ?]];
      set (m := Qmin a b) in *; clearbody m
  end.

(* ------------------------------------------------------------------ *)
(** ** Rounding to doubles *)

(** One tenth is not a double; the nearest one is
    [3602879701896397 / 2^55]. *)
Example fl_one_tenth : (fl (1 # 10) == 3602879701896397 # 36028797018963968)%Q.
Proof. vm_compute. reflexivity. Qed.

(** A tie goes to the even neighbour: [2^53 + 1] rounds down to [2^53] and
    [2^53 + 3] up to [2^53 + 4]. *)
Example fl_ties_to_even :
  (fl (inject_Z 9007199254740993) == inject_Z 9007199254740992
   /\ fl (inject_Z 9007199254740995) == inject_Z 9007199254740996)%Q.
Proof. split; vm_compute; reflexivity. Qed.

(** The smallest positive double is [2^-1074]; half of it rounds to zero. *)
Example fl_underflow :
  (fl (1 # Z.to_pos (2 ^ 1075)) == 0 /\ fl (3 # Z.to_pos (2 ^ 1075)) == 1 # Z.to_pos (2 ^ 1073))%Q.
Proof. split; vm_compute; reflexivity. Qed.

(** The threshold product is rounded: [7 * 0.9] is the double [6.3], so a
    force of [6.3] is not below it, although the double [6.3] lies below
    the rational [63 / 10]. *)
Example threshold_product_is_rounded :
  Qlt_bool (fl (63 # 10)) (fmul 7 (fl (9 # 10))) = false
  /\ Qlt_bool (fl (63 # 10)) (7 * (9 # 10))%Q = true.
Proof. split; vm_compute; reflexivity. Qed.

(** With histogram values 7, 0, 6.3, 0 the forces of the two up strokes are
    7 and 6.3, and no signal is emitted; with 6.2 in place of 6.3 the later
    stroke gives a 1S. *)
Example rounded_threshold_gives_no_signal :
  signalsOf (histSeries [7; 0; fl (63 # 10); 0]%Q) [] thresholdStrokes [] = []
  /\ map s_type
         (signalsOf (histSeries [7; 0; fl (62 # 10); 0]%Q) [] thresholdStrokes [])
     = [sig_1S].
Proof. split; vm_compute; reflexivity. Qed.

Lemma fl_zero x : (x == 0)%Q -> fl x = 0%Q.
Proof.
  intro H. unfold Qeq in H. simpl in H.
  unfold fl. replace (Qnum x) with 0%Z by lia. reflexivity.
Qed.

Lemma pow2_pos e : (0 < pow2 e)%Q.
Proof.
  unfold pow2. destruct (0 <=? e)%Z eqn:E.
  - apply Z.leb_le in E. change 0%Q with (inject_Z 0). rewrite <- Zlt_Qlt.
    apply Z.pow_pos_nonneg; lia.
  - reflexivity.
Qed.

(** [pow2 e] as a quotient of two integer powers, one of which is 1. *)
Lemma pow2_split e :
  (pow2 e * inject_Z (2 ^ Z.max 0 (- e)) == inject_Z (2 ^ Z.max 0 e))%Q.
Proof.
  unfold pow2. destruct (Z.leb_spec 0 e) as [H|H].
  - rewrite (Z.max_l 0 (- e)), (Z.max_r 0 e) by lia. simpl. ring.
  - rewrite (Z.max_r 0 (- e)), (Z.max_l 0 e) by lia.
    assert (Hp : (0 < 2 ^ (- e))%Z) by (apply Z.pow_pos_nonneg; lia).
    unfold Qeq, Qmult, inject_Z. simpl.
    destruct (2 ^ (- e))%Z; simpl; lia.
Qed.

Lemma pow2_shift e j :
  (0 <= j)%Z -> (pow2 (e + j) == inject_Z (2 ^ j) * pow2 e)%Q.
Proof.
  intro Hj.
  assert (Hs := pow2_split e). assert (Hs' := pow2_split (e + j)).
  set (A := (2 ^ Z.max 0 (- e))%Z) in *. set (C := (2 ^ Z.max 0 e)%Z) in *.
  set (A' := (2 ^ Z.max 0 (- (e + j)))%Z) in *.
  set (C' := (2 ^ Z.max 0 (e + j))%Z) in *.
  assert (HA : (0 < A)%Z) by (apply Z.pow_pos_nonneg; lia).
  assert (HA' : (0 < A')%Z) by (apply Z.pow_pos_nonneg; lia).
  assert (Hrel : (C' * A = 2 ^ j * C * A')%Z).
  { unfold A, C, A', C'. rewrite <- !Z.pow_add_r by lia. f_equal. lia. }
  assert (HAq : (0 < inject_Z A)%Q) by (change 0%Q with (inject_Z 0); rewrite <- Zlt_Qlt; exact HA).
  assert (HAq' : (0 < inject_Z A')%Q) by (change 0%Q with (inject_Z 0); rewrite <- Zlt_Qlt; exact HA').
  apply (Qmult_inj_r _ _ (inject_Z A * inject_Z A')); [intro H0; nra|].
  transitivity (inject_Z C' * inject_Z A)%Q; [rewrite <- Hs'; ring|].
  transitivity (inject_Z (2 ^ j) * inject_Z C * inject_Z A')%Q;
    [rewrite <- !inject_Z_mult; rewrite Hrel; reflexivity|].
  rewrite <- Hs. ring.
Qed.

Lemma pow2_mono e e' : (e <= e')%Z -> (pow2 e <= pow2 e')%Q.
Proof.
  intro H. replace e' with (e + (e' - e))%Z by lia.
  rewrite pow2_shift by lia.
  assert (H1 : (1 <= inject_Z (2 ^ (e' - e)))%Q).
  { change 1%Q with (inject_Z 1). rewrite <- Zle_Qle.
    assert (0 < 2 ^ (e' - e))%Z by (apply Z.pow_pos_nonneg; lia). lia. }
  pose proof (pow2_pos e). nra.
Qed.

Lemma inject_Z_pos z : (0 < z)%Z -> (0 < inject_Z z)%Q.
Proof. intro H. change 0%Q with (inject_Z 0). rewrite <- Zlt_Qlt. exact H. Qed.

Lemma Qmake_times_den n p : ((n # p) * inject_Z (Zpos p) == inject_Z n)%Q.
Proof. unfold Qeq, Qmult, inject_Z. simpl. lia. Qed.

(** The difference between a grid point [k * 2^e] and [n / p], scaled to an
    integer. *)
Lemma scaled_diff k n p e :
  ((inject_Z k * pow2 e - (n # p)) * (inject_Z (2 ^ Z.max 0 (- e)) * inject_Z (Zpos p))
   == inject_Z (k * (Zpos p * 2 ^ Z.max 0 e) - n * 2 ^ Z.max 0 (- e)))%Q.
Proof.
  pose proof (pow2_split e) as Hs. pose proof (Qmake_times_den n p) as Hd.
  set (A := inject_Z (2 ^ Z.max 0 (- e))) in *.
  unfold Zminus. rewrite inject_Z_plus, inject_Z_opp, !inject_Z_mult.
  fold A. rewrite <- Hs, <- Hd. ring.
Qed.

Lemma scale_pos p e :
  (0 < inject_Z (2 ^ Z.max 0 (- e)) * inject_Z (Zpos p))%Q.
Proof.
  apply Qmult_lt_0_compat; apply inject_Z_pos; [apply Z.pow_pos_nonneg|]; lia.
Qed.

Lemma scaled_sign u W a :
  (0 < W)%Q -> (u * W == inject_Z a)%Q ->
  ((u <= 0)%Q <-> (a <= 0)%Z) /\ ((u < 0)%Q <-> (a < 0)%Z).
Proof.
  intros HW H.
  assert (Ha : (inject_Z a <= 0 <-> (a <= 0)%Z)%Q)
    by (change 0%Q with (inject_Z 0); rewrite <- Zle_Qle; tauto).
  assert (Hb : (inject_Z a < 0 <-> (a < 0)%Z)%Q)
    by (change 0%Q with (inject_Z 0); rewrite <- Zlt_Qlt; tauto).
  rewrite <- Ha, <- Hb, <- H. split; split; intro; nra.
Qed.

Lemma Qabs_le_scaled u v W a b :
  (0 < W)%Q -> (u * W == inject_Z a)%Q -> (v * W == inject_Z b)%Q ->
  (Z.abs a <= Z.abs b)%Z -> (Qabs u <= Qabs v)%Q.
Proof.
  intros HW Hu Hv H.
  apply (Qmult_le_r _ _ W HW).
  assert (E : forall t c, (t * W == inject_Z c)%Q -> (Qabs t * W == inject_Z (Z.abs c))%Q).
  { intros t c Ht.
    rewrite <- (Qabs_pos W) at 1 by (apply Qlt_le_weak; exact HW).
    rewrite <- Qabs_Qmult, Ht. reflexivity. }
  rewrite (E u a Hu), (E v b Hv). rewrite <- Zle_Qle. exact H.
Qed.

Lemma roundHalfEven_nearest n d k :
  (0 <= n)%Z -> (0 < d)%Z ->
  (Z.abs (roundHalfEven n d * d - n) <= Z.abs (k * d - n))%Z.
Proof.
  intros Hn Hd. unfold roundHalfEven.
  pose proof (Z.div_mod n d ltac:(lia)) as E.
  pose proof (Z.mod_pos_bound n d Hd) as Hr.
  set (q := (n / d)%Z) in *. set (r := (n mod d)%Z) in *.
  assert (Hk : (k <= q \/ q + 1 <= k)%Z) by lia.
  destruct (Z.compare_spec (2 * r) d) as [C|C|C];
    [destruct (Z.even q)|..]; destruct Hk; nia.
Qed.

Lemma roundHalfEven_nonneg n d : (0 <= n)%Z -> (0 < d)%Z -> (0 <= roundHalfEven n d)%Z.
Proof.
  intros Hn Hd. unfold roundHalfEven.
  pose proof (Z.div_pos n d Hn Hd).
  destruct (2 * (n mod d) ?= d)%Z; [destruct (Z.even (n / d))|..]; lia.
Qed.

Lemma roundHalfEven_bound n d B :
  (0 <= n)%Z -> (0 < d)%Z -> (n < B * d)%Z -> (roundHalfEven n d <= B)%Z.
Proof.
  intros Hn Hd H. unfold roundHalfEven.
  assert (n / d < B)%Z by (apply Z.div_lt_upper_bound; lia).
  destruct (2 * (n mod d) ?= d)%Z; [destruct (Z.even (n / d))|..]; lia.
Qed.

Lemma pow2_nonneg_exp e : (0 <= e)%Z -> pow2 e = inject_Z (2 ^ e).
Proof. intro H. unfold pow2. destruct (Z.leb_spec 0 e); [reflexivity|lia]. Qed.

(** [binade] brackets the quotient. *)
Lemma binade_spec n p :
  (pow2 (binade (Zpos n) (Zpos p)) <= Zpos n # p
   /\ Zpos n # p < pow2 (binade (Zpos n) (Zpos p) + 1))%Q.
Proof.
  set (x := (Zpos n # p)%Q).
  pose proof (Z.log2_spec (Zpos n) ltac:(lia)) as [Ln Un].
  pose proof (Z.log2_spec (Zpos p) ltac:(lia)) as [Lp Up].
  pose proof (Z.log2_nonneg (Zpos n)) as Hln.
  pose proof (Z.log2_nonneg (Zpos p)) as Hlp.
  set (ln := Z.log2 (Zpos n)) in *. set (lp := Z.log2 (Zpos p)) in *.
  assert (Hx : (x * inject_Z (Zpos p) == inject_Z (Zpos n))%Q)
    by apply Qmake_times_den.
  assert (Hxpos : (0 < x)%Q) by reflexivity.
  (* upper bound: x < pow2 (ln - lp + 1) *)
  assert (HU : (x < pow2 (ln - lp + 1))%Q).
  { pose proof (pow2_shift (ln - lp + 1) lp Hlp) as Hs.
    replace (ln - lp + 1 + lp)%Z with (Z.succ ln) in Hs by lia.
    rewrite (pow2_nonneg_exp (Z.succ ln)) in Hs by lia.
    assert (H1 : (inject_Z (Zpos n) < inject_Z (2 ^ Z.succ ln))%Q)
      by (rewrite <- Zlt_Qlt; exact Un).
    assert (H2 : (inject_Z (2 ^ lp) <= inject_Z (Zpos p))%Q)
      by (rewrite <- Zle_Qle; exact Lp).
    assert (H3 : (0 < inject_Z (2 ^ lp))%Q)
      by (apply inject_Z_pos, Z.pow_pos_nonneg; lia).
    pose proof (pow2_pos (ln - lp + 1)).
    apply Qnot_le_lt. intro Hc.
    assert (H0 : (inject_Z (2 ^ lp) * pow2 (ln - lp + 1) <= x * inject_Z (Zpos p))%Q).
    { apply Qle_trans with (inject_Z (2 ^ lp) * x)%Q.
      - apply Qmult_le_l; [exact H3|exact Hc].
      - rewrite (Qmult_comm x). apply Qmult_le_compat_r; [exact H2|lra]. }
    rewrite Hx, <- Hs in H0. exact (Qlt_not_le _ _ H1 H0). }
  (* lower bound: pow2 (ln - lp - 1) <= x *)
  assert (HL : (pow2 (ln - lp - 1) <= x)%Q).
  { pose proof (pow2_shift (ln - lp - 1) (lp + 1) ltac:(lia)) as Hs.
    replace (ln - lp - 1 + (lp + 1))%Z with ln in Hs by lia.
    rewrite (pow2_nonneg_exp ln) in Hs by lia.
    assert (H1 : (inject_Z (2 ^ ln) <= inject_Z (Zpos n))%Q)
      by (rewrite <- Zle_Qle; exact Ln).
    assert (H2 : (inject_Z (Zpos p) < inject_Z (2 ^ (lp + 1)))%Q)
      by (rewrite <- Zlt_Qlt; exact Up).
    assert (H3 : (0 < inject_Z (Zpos p))%Q) by reflexivity.
    pose proof (pow2_pos (ln - lp - 1)).
    apply Qnot_lt_le. intro Hc.
    assert (H0 : (x * inject_Z (Zpos p) < inject_Z (2 ^ (lp + 1)) * pow2 (ln - lp - 1))%Q).
    { apply Qle_lt_trans with (pow2 (ln - lp - 1) * inject_Z (Zpos p))%Q.
      - apply Qmult_le_compat_r; lra.
      - rewrite (Qmult_comm (inject_Z (2 ^ (lp + 1)))).
        apply Qmult_lt_l; [exact H|exact H2]. }
    rewrite Hx, <- Hs in H0. exact (Qlt_not_le _ _ H0 H1). }
  unfold binade. fold ln lp.
  destruct (Z.leb_spec (Zpos p * 2 ^ Z.max 0 (ln - lp))
                       (Zpos n * 2 ^ Z.max 0 (- (ln - lp)))) as [T|T].
  - split; [|exact HU].
    pose proof (scaled_diff 1 (Zpos n) p (ln - lp)) as Hd.
    destruct (scaled_sign _ _ _ (scale_pos p (ln - lp)) Hd) as [[_ H1] _].
    fold x in H1. specialize (H1 ltac:(lia)).
    change (inject_Z 1) with 1%Q in H1. lra.
  - replace (ln - lp - 1 + 1)%Z with (ln - lp)%Z by lia. split; [exact HL|].
    pose proof (scaled_diff 1 (Zpos n) p (ln - lp)) as Hd.
    destruct (scaled_sign _ _ _ (scale_pos p (ln - lp)) Hd) as [[H1 _] _].
    fold x in H1. apply Qnot_le_lt. intro Hc.
    change (inject_Z 1) with 1%Q in H1.
    assert (H : (1 * pow2 (ln - lp) - x <= 0)%Q) by lra.
    specialize (H1 H). lia.
Qed.

Lemma flPos_isDouble n p : isDouble (flPos (Zpos n) (Zpos p)).
Proof.
  unfold flPos.
  destruct (binade_spec n p) as [_ Hup].
  set (b := binade (Zpos n) (Zpos p)) in *.
  set (e := Z.max (b - 52) (-1074)).
  set (N := (Zpos n * 2 ^ Z.max 0 (- e))%Z).
  set (D := (Zpos p * 2 ^ Z.max 0 e)%Z).
  assert (HN : (0 <= N)%Z)
    by (apply Z.mul_nonneg_nonneg; [lia|apply Z.pow_nonneg; lia]).
  assert (HD : (0 < D)%Z)
    by (apply Z.mul_pos_pos; [lia|apply Z.pow_pos_nonneg; lia]).
  exists (roundHalfEven N D), e.
  split; [|split; [lia|reflexivity]].
  rewrite Z.abs_eq by (apply roundHalfEven_nonneg; assumption).
  apply roundHalfEven_bound; try assumption.
  pose proof (scaled_diff (2 ^ 53) (Zpos n) p e) as Hd. fold N D in Hd.
  destruct (scaled_sign _ _ _ (scale_pos p e) Hd) as [[_ H1] _].
  assert (Hlt : (Zpos n # p < inject_Z (2 ^ 53) * pow2 e)%Q).
  { rewrite <- pow2_shift by lia.
    apply Qlt_le_trans with (pow2 (b + 1)); [exact Hup|].
    apply pow2_mono. lia. }
  destruct (Z.lt_ge_cases N (2 ^ 53 * D)) as [L|L]; [exact L|].
  exfalso.
  assert (Hle : (inject_Z (2 ^ 53) * pow2 e - (Zpos n # p) <= 0)%Q)
    by (apply H1; lia).
  lra.
Qed.

Lemma flPos_nearest n p q :
  isDouble q ->
  (Qabs (flPos (Zpos n) (Zpos p) - (Zpos n # p)) <= Qabs (q - (Zpos n # p)))%Q.
Proof.
  intros [m' [e' [Hm [He Hq]]]].
  unfold flPos.
  destruct (binade_spec n p) as [Hlow _].
  set (b := binade (Zpos n) (Zpos p)) in *.
  set (e := Z.max (b - 52) (-1074)).
  set (N := (Zpos n * 2 ^ Z.max 0 (- e))%Z).
  set (D := (Zpos p * 2 ^ Z.max 0 e)%Z).
  set (x := (Zpos n # p)%Q) in *.
  assert (HN : (0 <= N)%Z)
    by (apply Z.mul_nonneg_nonneg; [lia|apply Z.pow_nonneg; lia]).
  assert (HD : (0 < D)%Z)
    by (apply Z.mul_pos_pos; [lia|apply Z.pow_pos_nonneg; lia]).
  assert (Hgrid : forall k,
             (Qabs (inject_Z (roundHalfEven N D) * pow2 e - x)
              <= Qabs (inject_Z k * pow2 e - x))%Q).
  { intro k.
    apply (Qabs_le_scaled _ _ _ _ _ (scale_pos p e)
             (scaled_diff (roundHalfEven N D) (Zpos n) p e)
             (scaled_diff k (Zpos n) p e)).
    fold N D. apply roundHalfEven_nearest; assumption. }
  destruct (Z.le_gt_cases e e') as [Hee|Hee].
  - (* [q] lies on the grid of [fl x] *)
    assert (Hq' : (q == inject_Z (m' * 2 ^ (e' - e)) * pow2 e)%Q).
    { rewrite Hq. replace e' with (e + (e' - e))%Z at 1 by lia.
      rewrite pow2_shift by lia. rewrite inject_Z_mult. ring. }
    rewrite Hq'. apply Hgrid.
  - (* [q] is below the binade of [x] *)
    assert (Heb : e = (b - 52)%Z) by lia.
    assert (Hg : (pow2 b == inject_Z (2 ^ 52) * pow2 e)%Q).
    { replace b with (e + 52)%Z at 1 by lia. apply pow2_shift. lia. }
    assert (Hqabs : (Qabs q <= pow2 b)%Q).
    { rewrite Hq, Qabs_Qmult.
      rewrite (Qabs_pos (pow2 e')) by (apply Qlt_le_weak, pow2_pos).
      assert (Hm' : (Qabs (inject_Z m') <= inject_Z (2 ^ 53))%Q).
      { change (Qabs (inject_Z m')) with (inject_Z (Z.abs m')).
        rewrite <- Zle_Qle. exact Hm. }
      assert (He1 : (pow2 e' <= pow2 (e - 1))%Q) by (apply pow2_mono; lia).
      assert (He2 : (pow2 e == inject_Z 2 * pow2 (e - 1))%Q).
      { replace e with (e - 1 + 1)%Z at 1 by lia. apply (pow2_shift (e - 1) 1). lia. }
      pose proof (pow2_pos e') as P1. pose proof (pow2_pos (e - 1)) as P2.
      apply Qle_trans with (inject_Z (2 ^ 53) * pow2 e')%Q;
        [apply Qmult_le_compat_r; [exact Hm'|lra]|].
      apply Qle_trans with (inject_Z (2 ^ 53) * pow2 (e - 1))%Q;
        [apply Qmult_le_l; [reflexivity|exact He1]|].
      rewrite Hg, He2.
      change (inject_Z (2 ^ 53)) with (inject_Z (2 ^ 52) * inject_Z 2)%Q.
      apply Qle_lteq. right. ring. }
    apply Qle_trans with (Qabs (inject_Z (2 ^ 52) * pow2 e - x)); [apply Hgrid|].
    rewrite <- Hg.
    pose proof (Qle_Qabs q) as Hq1.
    pose proof (Qle_Qabs (x - q)) as Hq2.
    rewrite (Qabs_Qminus x q) in Hq2.
    rewrite (Qabs_neg (pow2 b - x)) by lra.
    lra.
Qed.

Lemma isDouble_opp q : isDouble q -> isDouble (- q).
Proof.
  intros [m [e [Hm [He Hq]]]]. exists (- m)%Z, e.
  split; [lia|]. split; [exact He|].
  rewrite Hq, inject_Z_opp. ring.
Qed.

(** [fl] returns a double, *)
Lemma fl_isDouble x : isDouble (fl x).
Proof.
  unfold fl. destruct x as [[|n|n] p]; cbn [Qnum Qden].
  - exists 0%Z, 0%Z. split; [simpl; lia|]. split; [lia|reflexivity].
  - apply flPos_isDouble.
  - apply isDouble_opp, flPos_isDouble.
Qed.

(** and no double is nearer to [x] than [fl x]. *)
Lemma fl_nearest x q : isDouble q -> (Qabs (fl x - x) <= Qabs (q - x))%Q.
Proof.
  intro Hq. unfold fl. destruct x as [[|n|n] p]; cbn [Qnum Qden].
  - assert (E : (0 - (0 # p) == 0)%Q) by reflexivity.
    rewrite E. exact (Qabs_nonneg _).
  - apply flPos_nearest, Hq.
  - pose proof (flPos_nearest n p (- q) (isDouble_opp q Hq)) as H.
    assert (E1 : (- flPos (Zpos n) (Zpos p) - (Zneg n # p)
                  == - (flPos (Zpos n) (Zpos p) - (Zpos n # p)))%Q).
    { assert (E : (Zneg n # p == - (Zpos n # p))%Q) by reflexivity.
      rewrite E. ring. }
    assert (E2 : (q - (Zneg n # p) == - (- q - (Zpos n # p)))%Q).
    { assert (E : (Zneg n # p == - (Zpos n # p))%Q) by reflexivity.
      rewrite E. ring. }
    rewrite E1, E2, !Qabs_opp. exact H.
Qed.

Lemma flPos_nonneg n d : (0 < n)%Z -> (0 < d)%Z -> (0 <= flPos n d)%Q.
Proof.
  intros Hn Hd. unfold flPos.
  set (e := Z.max (binade n d - 52) (-1074)).
  apply Qmult_le_0_compat; [|apply Qlt_le_weak, pow2_pos].
  change 0%Q with (inject_Z 0). rewrite <- Zle_Qle.
  apply roundHalfEven_nonneg.
  - apply Z.mul_nonneg_nonneg; [lia|]. apply Z.pow_nonneg. lia.
  - apply Z.mul_pos_pos; [exact Hd|]. apply Z.pow_pos_nonneg; lia.
Qed.

Lemma fl_nonneg x : (0 <= x)%Q -> (0 <= fl x)%Q.
Proof.
  intro H. unfold fl. destruct x as [n d]. simpl.
  destruct n as [|n|n].
  - apply Qle_refl.
  - apply flPos_nonneg; lia.
  - unfold Qle in H. simpl in H. lia.
Qed.

(* ------------------------------------------------------------------ *)
(** ** Inclusion loop: strict steps *)

Lemma stepRel_not_contained a b : stepRel a b -> containment a b = false.
Proof.
  unfold stepRel, containment, isNextInLast, isLastInNext, m_high, m_low.
  intros [[H1 H2]|[H1 H2]]; apply orb_false_iff; split; apply andb_false_iff.
  - left. apply Qle_bool_false. exact H1.
  - right. apply Qle_bool_false. exact H2.
  - right. apply Qle_bool_false. exact H2.
  - left. apply Qle_bool_false. exact H1.
Qed.

Lemma inclusionStep_inv i k st : inclusionInv st -> inclusionInv (inclusionStep i k st).
Proof.
  destruct st as [[|x older] d]; [trivial|].
  unfold inclusionInv, inclusionStep.
  intros [Hc Hd].
  destruct (isNextInLast x k || isLastInNext x k) eqn:E.
  - destruct older as [|y rest]; [simpl; auto|].
    simpl in Hc. destruct Hc as [Hyx Hc].
    assert (Hd0 : (d =? 0)%Z = false) by (destruct Hd as [[-> _]|[-> _]]; reflexivity).
    rewrite Hd0.
    destruct Hd as [[-> [U1 U2]]|[-> [U1 U2]]]; simpl Z.eqb; cbv iota;
      unfold m_high, m_low in *; simpl.
    + assert (k_high (bar y) < Math_max (k_high (bar x)) (k_high k)
              /\ k_low (bar y) < Math_max (k_low (bar x)) (k_low k))%Q
        by (split; qminmax; lra).
      unfold stepRel, m_high, m_low; simpl. intuition.
    + assert (Math_min (k_high (bar x)) (k_high k) < k_high (bar y)
              /\ Math_min (k_low (bar x)) (k_low k) < k_low (bar y))%Q
        by (split; qminmax; lra).
      unfold stepRel, m_high, m_low; simpl. intuition.
  - unfold isNextInLast, isLastInNext, m_high, m_low in *.
    destruct (Qlt_bool (k_high (bar x)) (k_high k) && Qlt_bool (k_low (bar x)) (k_low k)) eqn:EU.
    + qbool; simpl; unfold stepRel, m_high, m_low; simpl; intuition.
    + destruct (Qlt_bool (k_high k) (k_high (bar x)) && Qlt_bool (k_low k) (k_low (bar x))) eqn:ED.
      * qbool; simpl; unfold stepRel, m_high, m_low; simpl; intuition.
      * exfalso. qbool; lra.
Qed.

Lemma inclusionLoop_inv rest : forall i st,
  inclusionInv st -> inclusionInv (inclusionLoop i rest st).
Proof.
  induction rest as [|k rest IH]; intros i st H; simpl; [exact H|].
  apply IH, inclusionStep_inv, H.
Qed.

Lemma processInclusionStrict_stepChain klines :
  stepChain (rev (processInclusionStrict klines)).
Proof.
  destruct klines as [|k0 rest]; simpl; [exact I|].
  rewrite rev_involutive.
  pose proof (inclusionLoop_inv rest 1 ([mkMergedKline k0 0 0 [k0]], 0%Z)) as H.
  destruct (inclusionLoop 1 rest _) as [res d]. simpl.
  apply H. simpl. auto.
Qed.

(** Neighbours of the in-order list are neighbours of the newest-first one. *)
Lemma rev_neighbours (A : Type) (l : list A) i a b :
  nth_error (rev l) i = Some a -> nth_error (rev l) (S i) = Some b ->
  exists j, nth_error l (S j) = Some a /\ nth_error l j = Some b.
Proof.
  rewrite !nth_error_rev.
  destruct (Nat.ltb_spec (S i) (length l)) as [L|L]; [|discriminate].
  destruct (Nat.ltb_spec i (length l)) as [L'|L']; [|lia].
  intros Ha Hb. exists (length l - S (S i)). split; [|exact Hb].
  replace (S (length l - S (S i))) with (length l - S i) by lia. exact Ha.
Qed.

Lemma stepChain_nth result : forall j a b,
  stepChain result ->
  nth_error result (S j) = Some a -> nth_error result j = Some b -> stepRel a b.
Proof.
  induction result as [|x older IH]; intros j a b Hc Ha Hb.
  - destruct j; discriminate.
  - destruct older as [|y rest]; [destruct j; discriminate|].
    destruct Hc as [Hyx Hc]. destruct j as [|j].
    + simpl in Ha, Hb. injection Ha as <-. injection Hb as <-. exact Hyx.
    + apply (IH j); assumption.
Qed.

Lemma processInclusionStrict_steps klines i a b :
  nth_error (processInclusionStrict klines) i = Some a ->
  nth_error (processInclusionStrict klines) (S i) = Some b ->
  stepRel a b.
Proof.
  intros Ha Hb.
  rewrite <- (rev_involutive (processInclusionStrict klines)) in Ha, Hb.
  destruct (rev_neighbours _ _ _ _ _ Ha Hb) as [j [Ha' Hb']].
  exact (stepChain_nth _ _ _ _ (processInclusionStrict_stepChain klines) Ha' Hb').
Qed.

(* ------------------------------------------------------------------ *)
(** ** Inclusion loop: original-index spans *)

Lemma inclusionStep_spans i k st :
  spanInv i st -> spanInv (S i) (inclusionStep i k st).
Proof.
  destruct st as [[|x older] d]; unfold spanInv; simpl; [tauto|].
  intros [He [Hle [Hs Hc]]].
  destruct (isNextInLast x k || isLastInNext x k); simpl.
  - repeat split; try assumption; lia.
  - repeat split; try assumption; lia.
Qed.

Lemma inclusionLoop_spans rest : forall i st,
  spanInv i st -> spanInv (i + length rest) (inclusionLoop i rest st).
Proof.
  induction rest as [|k rest IH]; intros i st H; simpl.
  - rewrite Nat.add_0_r. exact H.
  - replace (i + S (length rest)) with (S i + length rest) by lia.
    apply IH, inclusionStep_spans, H.
Qed.

Lemma processInclusionStrict_spans k0 rest :
  exists x older,
    rev (processInclusionStrict (k0 :: rest)) = x :: older
    /\ S (originalEndIndex x) = length (k0 :: rest)
    /\ spanChain (x :: older).
Proof.
  simpl processInclusionStrict. rewrite rev_involutive.
  pose proof (inclusionLoop_spans rest 1 ([mkMergedKline k0 0 0 [k0]], 0%Z)) as H.
  destruct (inclusionLoop 1 rest _) as [[|x older] d]; unfold spanInv in H; simpl in H.
  - exfalso. apply H. split; [reflexivity|]. simpl. auto.
  - exists x, older. split; [reflexivity|]. simpl. apply H. simpl; auto.
Qed.

Lemma spanChain_oldest result : forall x,
  spanChain (x :: result) ->
  exists first, hd_error (rev (x :: result)) = Some first
                /\ originalStartIndex first = 0.
Proof.
  induction result as [|y rest IH]; intros x H.
  - exists x. simpl in *. tauto.
  - destruct H as [_ [_ H]]. destruct (IH y H) as [first [Hf H0]].
    exists first. split; [|exact H0].
    change (rev (x :: y :: rest)) with (rev (y :: rest) ++ [x]).
    destruct (rev (y :: rest)); [discriminate|exact Hf].
Qed.

Lemma spanChain_nonempty result :
  spanChain result -> Forall (fun m => originalStartIndex m <= originalEndIndex m) result.
Proof.
  induction result as [|x older IH]; intro H; constructor.
  - apply H.
  - apply IH, H.
Qed.

Lemma spanChain_nth result : forall j a b,
  spanChain result ->
  nth_error result (S j) = Some a -> nth_error result j = Some b ->
  originalStartIndex b = S (originalEndIndex a).
Proof.
  induction result as [|x older IH]; intros j a b Hc Ha Hb.
  - destruct j; discriminate.
  - destruct Hc as [_ [Hs Hc]]. destruct j as [|j].
    + simpl in Ha, Hb. injection Hb as <-.
      destruct older; [discriminate|]. simpl in Ha. injection Ha as <-. exact Hs.
    + apply (IH j); assumption.
Qed.

(** Every span is non-empty. *)
Lemma processInclusionStrict_span_nonempty klines m :
  In m (processInclusionStrict klines) ->
  originalStartIndex m <= originalEndIndex m.
Proof.
  destruct klines as [|k0 rest]; [intros []|].
  destruct (processInclusionStrict_spans k0 rest) as [x [older [Hrev [_ Hc]]]].
  intro Hin. apply (proj1 (in_rev _ _)) in Hin. rewrite Hrev in Hin.
  exact (proj1 (Forall_forall _ _) (spanChain_nonempty _ Hc) m Hin).
Qed.

(** Each span starts one past the end of the span before it. *)
Lemma processInclusionStrict_span_adjacent klines i a b :
  nth_error (processInclusionStrict klines) i = Some a ->
  nth_error (processInclusionStrict klines) (S i) = Some b ->
  originalStartIndex b = originalEndIndex a + 1.
Proof.
  destruct klines as [|k0 rest]; [destruct i; discriminate|].
  destruct (processInclusionStrict_spans k0 rest) as [x [older [Hrev [_ Hc]]]].
  intros Ha Hb.
  rewrite <- (rev_involutive (processInclusionStrict (k0 :: rest))) in Ha, Hb.
  rewrite Hrev in Ha, Hb.
  destruct (rev_neighbours _ _ _ _ _ Ha Hb) as [j [Ha' Hb']].
  rewrite (spanChain_nth _ _ _ _ Hc Ha' Hb'). lia.
Qed.

(* ------------------------------------------------------------------ *)
(** ** Fractal detector *)

Lemma inclusionStep_mapped klines i k st :
  nth_error klines i = Some k ->
  Forall (mappedBack klines) (fst st) ->
  Forall (mappedBack klines) (fst (inclusionStep i k st)).
Proof.
  intros Hk. destruct st as [[|x older] d]; simpl; [auto|].
  intro H. inversion H as [|? ? Hx Ho]; subst.
  destruct (isNextInLast x k || isLastInNext x k); simpl.
  - constructor; [|exact Ho]. exists k. split; [exact Hk|reflexivity].
  - constructor; [|exact H]. exists k. split; [exact Hk|reflexivity].
Qed.

Lemma inclusionLoop_mapped klines rest : forall i st,
  (forall j k, nth_error rest j = Some k -> nth_error klines (i + j) = Some k) ->
  Forall (mappedBack klines) (fst st) ->
  Forall (mappedBack klines) (fst (inclusionLoop i rest st)).
Proof.
  induction rest as [|k rest IH]; intros i st Hr H; simpl; [exact H|].
  apply IH.
  - intros j k' Hj. replace (S i + j) with (i + S j) by lia. apply Hr. exact Hj.
  - apply inclusionStep_mapped; [|exact H].
    rewrite <- (Nat.add_0_r i). apply Hr. reflexivity.
Qed.

Lemma processInclusionStrict_mapped klines m :
  In m (processInclusionStrict klines) -> mappedBack klines m.
Proof.
  destruct klines as [|k0 rest]; simpl; [tauto|].
  intro Hin. apply in_rev in Hin. revert m Hin. apply Forall_forall.
  apply inclusionLoop_mapped.
  - intros j k Hj. exact Hj.
  - constructor; [|constructor]. exists k0. split; reflexivity.
Qed.

Lemma fractalAt_cons prev tl i :
  fractalAt (prev :: tl) (S (S i)) = fractalAt tl (S i).
Proof. reflexivity. Qed.

Lemma identifyFractals_by_position klines :
  identifyFractals klines
  = flat_map (fun i => pushed (fractalAt klines i)) (seq 1 (length klines - 2)).
Proof.
  induction klines as [|prev tl IH]; [reflexivity|].
  destruct tl as [|curr [|next rest]]; [reflexivity|reflexivity|].
  change (identifyFractals (prev :: curr :: next :: rest))
    with (pushed (fractalOf prev curr next) ++ identifyFractals (curr :: next :: rest)).
  rewrite IH.
  replace (length (prev :: curr :: next :: rest) - 2) with (S (length rest)) by (simpl; lia).
  replace (length (curr :: next :: rest) - 2) with (length rest) by (simpl; lia).
  change (seq 1 (S (length rest))) with (1 :: seq 2 (length rest)).
  rewrite <- (seq_shift (length rest) 1). cbn [flat_map]. f_equal.
  rewrite !flat_map_concat_map, map_map. f_equal.
  apply map_ext_in. intros j Hj. apply in_seq in Hj.
  destruct j as [|j]; [lia|reflexivity].
Qed.

Lemma fractalOf_top prev curr next :
  (exists p, fractalOf prev curr next = Some p /\ p_type p = top)
  <-> (m_high prev < m_high curr /\ m_high next < m_high curr)%Q.
Proof.
  unfold fractalOf.
  destruct (Qlt_bool (m_high prev) (m_high curr) && Qlt_bool (m_high next) (m_high curr)) eqn:T.
  - qbool. split; [tauto|]. intros _. eexists. split; reflexivity.
  - split.
    + intros [p [Hp Ht]].
      destruct (Qlt_bool (m_low curr) (m_low prev) && Qlt_bool (m_low curr) (m_low next));
        [|discriminate].
      injection Hp as <-. discriminate.
    + intros [H1 H2]. exfalso. qbool; lra.
Qed.

(** On neighbours that are strict steps the bottom test is never masked by
    the top test that precedes it. *)
Lemma fractalOf_bottom prev curr next :
  stepRel prev curr ->
  (exists p, fractalOf prev curr next = Some p /\ p_type p = bottom)
  <-> (m_low curr < m_low prev /\ m_low curr < m_low next)%Q.
Proof.
  intro Hs. unfold fractalOf.
  destruct (Qlt_bool (m_high prev) (m_high curr) && Qlt_bool (m_high next) (m_high curr)) eqn:T.
  - split.
    + intros [p [Hp Ht]]. injection Hp as <-. discriminate.
    + intros [H1 H2]. exfalso. qbool. destruct Hs as [[? ?]|[? ?]]; lra.
  - destruct (Qlt_bool (m_low curr) (m_low prev) && Qlt_bool (m_low curr) (m_low next)) eqn:B.
    + split; [intros _|intros _; eexists; split; reflexivity].
      clear T. qbool. tauto.
    + split; [intros [p [Hp _]]; discriminate|].
      intros [H1 H2]. exfalso. clear T. qbool; lra.
Qed.

Lemma fractalOf_fields prev curr next p :
  fractalOf prev curr next = Some p ->
  p_time p = m_time curr
  /\ p_price p = match p_type p with top => m_high curr | bottom => m_low curr end
  /\ p_index p = originalEndIndex curr.
Proof.
  unfold fractalOf.
  destruct (_ && _); [intro H; injection H as <-; auto|].
  destruct (_ && _); [intro H; injection H as <-; auto|discriminate].
Qed.

(* ------------------------------------------------------------------ *)
(** ** Alternation filter *)

Lemma PointType_eqb_eq a b : PointType_eqb a b = true <-> a = b.
Proof. destruct a, b; simpl; split; congruence. Qed.

Lemma PointType_eqb_neq a b : PointType_eqb a b = false <-> a <> b.
Proof. destruct a, b; simpl; split; congruence. Qed.

Lemma Forall2_rev_both (A B : Type) (R : A -> B -> Prop) l l' :
  Forall2 R l l' -> Forall2 R (rev l) (rev l').
Proof.
  induction 1 as [|a b l l' Hab H IH]; simpl; [constructor|].
  apply Forall2_app; [exact IH|]. constructor; [exact Hab|constructor].
Qed.

Lemma atLeastAsExtreme_refl p : atLeastAsExtreme p p.
Proof. unfold atLeastAsExtreme. destruct (p_type p); lra. Qed.

Lemma keptOfRun_extend_same run lastPt curr :
  keptOfRun run lastPt -> p_type curr = p_type lastPt ->
  atLeastAsExtreme lastPt curr ->
  keptOfRun (run ++ [curr]) lastPt.
Proof.
  intros [Hin Hall] Ht He. split; [apply in_or_app; left; exact Hin|].
  intros q Hq. apply in_app_or in Hq. destruct Hq as [Hq|[<-|[]]].
  - apply Hall, Hq.
  - split; assumption.
Qed.

Lemma keptOfRun_extend_replace run lastPt curr :
  keptOfRun run lastPt -> p_type curr = p_type lastPt ->
  strictlyMoreExtreme curr lastPt ->
  keptOfRun (run ++ [curr]) curr.
Proof.
  intros [Hin Hall] Ht He. split; [apply in_or_app; right; left; reflexivity|].
  intros q Hq. apply in_app_or in Hq. destruct Hq as [Hq|[<-|[]]].
  - destruct (Hall q Hq) as [Hqt Hqe]. split; [congruence|].
    unfold atLeastAsExtreme, strictlyMoreExtreme in *. rewrite Ht in *.
    destruct (p_type lastPt); lra.
  - split; [reflexivity|apply atLeastAsExtreme_refl].
Qed.

Lemma alternationStep_inv rawPoints runs curr :
  rawPoints <> [] -> altChain rawPoints -> Forall2 keptOfRun runs rawPoints ->
  exists runs',
    Forall2 keptOfRun runs' (alternationStep rawPoints curr)
    /\ altChain (alternationStep rawPoints curr)
    /\ alternationStep rawPoints curr <> []
    /\ concat (rev runs') = concat (rev runs) ++ [curr].
Proof.
  intros Hne Hc Hr. destruct rawPoints as [|lastPt older]; [congruence|].
  inversion Hr as [|run ? rs ? Hrun Hrs]; subst. clear Hne.
  assert (Hcat : concat (rev ((run ++ [curr]) :: rs)) = concat (rev (run :: rs)) ++ [curr]).
  { simpl. rewrite !concat_app. simpl. rewrite !app_nil_r, app_assoc. reflexivity. }
  unfold alternationStep.
  destruct (PointType_eqb (p_type curr) (p_type lastPt)) eqn:Et.
  - apply PointType_eqb_eq in Et.
    assert (Hc' : altChain (curr :: older)).
    { destruct older as [|y rest]; [exact I|]. destruct Hc as [Hy Hc].
      split; [congruence|exact Hc]. }
    destruct (PointType_eqb (p_type curr) top && Qlt_bool (p_price lastPt) (p_price curr)) eqn:E1.
    + exists ((run ++ [curr]) :: rs). apply andb_true_iff in E1. destruct E1 as [E1 E2].
      apply PointType_eqb_eq in E1. apply Qlt_bool_iff in E2.
      repeat split; try assumption; try discriminate.
      constructor; [|exact Hrs].
      apply keptOfRun_extend_replace with lastPt; try assumption.
      unfold strictlyMoreExtreme. rewrite E1. exact E2.
    + destruct (PointType_eqb (p_type curr) bottom && Qlt_bool (p_price curr) (p_price lastPt)) eqn:E2.
      * exists ((run ++ [curr]) :: rs). apply andb_true_iff in E2. destruct E2 as [E2 E3].
        apply PointType_eqb_eq in E2. apply Qlt_bool_iff in E3.
        repeat split; try assumption; try discriminate.
        constructor; [|exact Hrs].
        apply keptOfRun_extend_replace with lastPt; try assumption.
        unfold strictlyMoreExtreme. rewrite E2. exact E3.
      * exists ((run ++ [curr]) :: rs).
        repeat split; try assumption; try discriminate.
        constructor; [|exact Hrs].
        apply keptOfRun_extend_same; try assumption.
        unfold atLeastAsExtreme. rewrite <- Et.
        destruct (p_type curr); simpl in E1, E2.
        -- apply Qlt_bool_false in E1. exact E1.
        -- apply Qlt_bool_false in E2. exact E2.
  - apply PointType_eqb_neq in Et.
    exists ([curr] :: run :: rs). repeat split; try discriminate.
    + constructor; [|exact Hr]. split; [left; reflexivity|].
      intros q [<-|[]]. split; [reflexivity|apply atLeastAsExtreme_refl].
    + congruence.
    + exact Hc.
    + simpl. rewrite !concat_app. simpl. rewrite !app_nil_r. reflexivity.
Qed.

Lemma alternationFold_inv rest : forall rawPoints runs,
  rawPoints <> [] -> altChain rawPoints -> Forall2 keptOfRun runs rawPoints ->
  exists runs',
    Forall2 keptOfRun runs' (fold_left alternationStep rest rawPoints)
    /\ altChain (fold_left alternationStep rest rawPoints)
    /\ concat (rev runs') = concat (rev runs) ++ rest.
Proof.
  induction rest as [|curr rest IH]; intros rawPoints runs Hne Hc Hr; simpl.
  - exists runs. rewrite app_nil_r. auto.
  - destruct (alternationStep_inv rawPoints runs curr Hne Hc Hr)
      as [runs1 [Hr1 [Hc1 [Hne1 Hcat1]]]].
    destruct (IH _ _ Hne1 Hc1 Hr1) as [runs2 [Hr2 [Hc2 Hcat2]]].
    exists runs2. repeat split; try assumption.
    rewrite Hcat2, Hcat1, <- app_assoc. reflexivity.
Qed.

Lemma altChain_nth rawPoints : forall j a b,
  altChain rawPoints ->
  nth_error rawPoints (S j) = Some a -> nth_error rawPoints j = Some b ->
  p_type a <> p_type b.
Proof.
  induction rawPoints as [|x older IH]; intros j a b Hc Ha Hb.
  - destruct j; discriminate.
  - destruct older as [|y rest]; [destruct j; discriminate|].
    destruct Hc as [Hyx Hc]. destruct j as [|j].
    + simpl in Ha, Hb. injection Ha as <-. injection Hb as <-. exact Hyx.
    + apply (IH j); assumption.
Qed.

(* ------------------------------------------------------------------ *)
(** ** Validity filter *)

Lemma validBiLoop_filter klines settings rawPoints :
  validBiLoop klines settings rawPoints
  = map (fun se => biOf (fst se) (snd se))
        (filter (fun se => biIsValid settings (kCount klines (fst se) (snd se)))
                (adjacentPairs rawPoints)).
Proof.
  induction rawPoints as [|start tl IH]; [reflexivity|].
  destruct tl as [|end_ rest]; [reflexivity|].
  change (validBiLoop klines settings (start :: end_ :: rest))
    with ((if biIsValid settings (kCount klines start end_)
           then [biOf start end_] else [])
          ++ validBiLoop klines settings (end_ :: rest)).
  rewrite IH. unfold adjacentPairs. simpl.
  destruct (biIsValid settings (kCount klines start end_)); reflexivity.
Qed.

Lemma biIsValid_accepts settings count :
  biIsValid settings count = true <-> accepts settings count.
Proof.
  unfold biIsValid, accepts, biKCountOrDefault.
  destruct (biType settings); rewrite ?Z.leb_le; tauto.
Qed.

Lemma continuityLoop_keeps_all rest : forall currentBi,
  continuityLoop currentBi rest = currentBi :: rest.
Proof.
  induction rest as [|next rest IH]; intro currentBi; simpl; [reflexivity|].
  rewrite IH. destruct (_ =? _)%Z; reflexivity.
Qed.

Lemma generateBi_is_validBi fractals klines settings :
  generateBi fractals klines settings
  = validBiLoop klines settings (alternationFilter fractals).
Proof.
  unfold generateBi.
  destruct (Nat.ltb_spec (length fractals) 2) as [L|L].
  - destruct fractals as [|f0 [|f1 rest]]; [reflexivity|reflexivity|simpl in L; lia].
  - destruct (Nat.ltb_spec (length (alternationFilter fractals)) 2) as [L'|L'].
    + destruct (alternationFilter fractals) as [|r0 [|r1 rest]];
        [reflexivity|reflexivity|simpl in L'; lia].
    + destruct (validBiLoop klines settings (alternationFilter fractals));
        [reflexivity|apply continuityLoop_keeps_all].
Qed.

(* ------------------------------------------------------------------ *)
(** ** Destruction test *)

Lemma Dir_eqb_eq a b : Dir_eqb a b = true <-> a = b.
Proof. destruct a, b; simpl; split; congruence. Qed.

Lemma overlap_test f1 f2 :
  Qle_bool (biHigh f2) (biHigh f1) && Qle_bool (biLow f1) (biLow f2)
  || Qle_bool (biHigh f1) (biHigh f2) && Qle_bool (biLow f2) (biLow f1) = true
  <-> rangesOverlap f1 f2.
Proof.
  unfold rangesOverlap.
  rewrite orb_true_iff, !andb_true_iff, !Qle_bool_iff. tauto.
Qed.

Lemma turnConfirmed_spec type h1 l1 h2 l2 rebound candidate :
  turnConfirmed type h1 l1 h2 l2 rebound (p_price (bi_end candidate)) = true
  <-> movesOpposite type h1 l1 h2 l2 /\ closesBackThrough type rebound candidate.
Proof.
  unfold turnConfirmed, movesOpposite, closesBackThrough.
  destruct type.
  - destruct (Qlt_bool h2 h1 && Qlt_bool l2 l1) eqn:E.
    + apply andb_true_iff in E. rewrite !Qlt_bool_iff in E.
      rewrite Qlt_bool_iff. tauto.
    + split; [discriminate|]. intros [[H1 H2] _].
      apply Qlt_bool_iff in H1, H2. rewrite H1, H2 in E. discriminate.
  - destruct (Qlt_bool h1 h2 && Qlt_bool l1 l2) eqn:E.
    + apply andb_true_iff in E. rewrite !Qlt_bool_iff in E.
      rewrite Qlt_bool_iff. tauto.
    + split; [discriminate|]. intros [[H1 H2] _].
      apply Qlt_bool_iff in H1, H2. rewrite H1, H2 in E. discriminate.
Qed.

Lemma destructionAt_spec biList i type :
  destructionAt biList i type = true <-> terminationConfirmed biList i type.
Proof.
  unfold destructionAt, terminationConfirmed. split.
  - destruct (nth_error biList i) as [candidate|]; [|discriminate].
    destruct (Dir_eqb (bi_type candidate) type) eqn:Et; [|discriminate]. simpl.
    apply Dir_eqb_eq in Et.
    destruct (length biList <=? i + 3); [discriminate|].
    destruct (nth_error biList (i + 1)) as [f1|]; [|discriminate].
    destruct (nth_error biList (i + 3)) as [f2|]; [|discriminate].
    destruct (_ || _) eqn:Eo.
    + apply overlap_test in Eo.
      destruct (i + 5 <? length biList); [|discriminate].
      destruct (nth_error biList (i + 5)) as [f3|]; [|discriminate].
      destruct (nth_error biList (i + 4)) as [rebound|]; [|discriminate].
      intro H. apply turnConfirmed_spec in H.
      exists candidate, f1, f2. repeat split; try assumption; try reflexivity.
      right. split; [exact Eo|]. exists f3, rebound.
      repeat split; try reflexivity; apply H.
    + assert (Hno : ~ rangesOverlap f1 f2).
      { intro Ho. apply overlap_test in Ho. congruence. }
      destruct (nth_error biList (i + 2)) as [rebound|]; [|discriminate].
      intro H. apply turnConfirmed_spec in H.
      exists candidate, f1, f2. repeat split; try assumption; try reflexivity.
      left. split; [exact Hno|]. exists rebound.
      repeat split; try reflexivity; apply H.
  - intros [candidate [f1 [f2 [Hc [Ht [H1 [H2 Hcase]]]]]]].
    rewrite Hc. apply Dir_eqb_eq in Ht. rewrite Ht. simpl.
    assert (L3 : i + 3 < length biList) by (apply nth_error_Some; congruence).
    destruct (Nat.leb_spec (length biList) (i + 3)) as [L|_]; [lia|].
    rewrite H1, H2.
    destruct Hcase as [[Hno [rebound [Hr Hturn]]]|[Ho [f3 [rebound [H5 [Hr Hturn]]]]]].
    + destruct (_ || _) eqn:Eo; [apply overlap_test in Eo; tauto|].
      rewrite Hr. apply turnConfirmed_spec. exact Hturn.
    + apply overlap_test in Ho. rewrite Ho.
      assert (L5 : i + 5 < length biList) by (apply nth_error_Some; congruence).
      destruct (Nat.ltb_spec (i + 5) (length biList)) as [_|L]; [|lia].
      rewrite H5, Hr. apply turnConfirmed_spec. exact Hturn.
Qed.

Lemma destructionScan_spec biList type count : forall i p,
  destructionScan biList type i count = Some p
  <-> i <= p < i + count
      /\ destructionAt biList p type = true
      /\ forall j, i <= j < p -> destructionAt biList j type = false.
Proof.
  induction count as [|count IH]; intros i p; simpl.
  - split; [discriminate|]. intros [H _]. lia.
  - destruct (destructionAt biList i type) eqn:E.
    + split.
      * intro H. injection H as <-. split; [lia|]. split; [exact E|].
        intros j Hj. lia.
      * intros [Hr [Hp Hmin]].
        destruct (Nat.eq_dec i p) as [->|Hne]; [reflexivity|].
        rewrite (Hmin i) in E by lia. discriminate.
    + rewrite IH. split.
      * intros [Hr [Hp Hmin]]. split; [lia|]. split; [exact Hp|].
        intros j Hj. destruct (Nat.eq_dec j i) as [->|Hne]; [exact E|].
        apply Hmin. lia.
      * intros [Hr [Hp Hmin]].
        assert (i <> p) by (intros ->; congruence).
        split; [lia|]. split; [exact Hp|]. intros j Hj. apply Hmin. lia.
Qed.

(* ------------------------------------------------------------------ *)
(** ** Segment loop *)

Lemma checkSegmentDestruction_found biList startIndex type p :
  checkSegmentDestruction biList startIndex type = Some p ->
  startIndex <= p /\ p + 3 < length biList
  /\ exists b, nth_error biList p = Some b /\ bi_type b = type.
Proof.
  unfold checkSegmentDestruction. intro H.
  apply destructionScan_spec in H. destruct H as [Hr [Hp _]].
  split; [lia|]. split; [lia|].
  apply destructionAt_spec in Hp.
  destruct Hp as [b [_ [_ [Hb [Ht _]]]]]. exists b. auto.
Qed.

Lemma flipDir_neq d : Dir_eqb d (flipDir d) = false.
Proof. destruct d; reflexivity. Qed.

Lemma tl_skipn (A : Type) (l : list A) n : tl (skipn n l) = skipn (S n) l.
Proof.
  change (tl (skipn n l)) with (skipn 1 (skipn n l)) at 1.
  - apply skipn_skipn.
Qed.

Lemma joinShared_tl owned :
  sharesBoundaries owned -> concat (map (@tl ChanBi) owned) = tl (joinShared owned).
Proof.
  destruct owned as [|a rest]; [reflexivity|].
  intros [Ha _]. simpl. destruct a; [congruence|reflexivity].
Qed.

Lemma slice_length (A : Type) (l : list A) a b :
  b <= length l -> length (slice l a b) = b - a.
Proof.
  intro H. unfold slice. rewrite length_firstn, length_skipn. lia.
Qed.

Lemma slice_nth (A : Type) (l : list A) a b i :
  i < b - a -> nth_error (slice l a b) i = nth_error l (a + i).
Proof.
  intro H. unfold slice. rewrite nth_error_firstn.
  destruct (Nat.ltb_spec i (b - a)) as [_|L]; [|lia].
  apply nth_error_skipn.
Qed.

Lemma slice_then_rest (A : Type) (l : list A) a p :
  a <= p -> slice l a (p + 1) ++ skipn (S p) l = skipn a l.
Proof.
  intro H. unfold slice.
  replace (S p) with ((p + 1 - a) + a) by lia.
  rewrite <- skipn_skipn. apply firstn_skipn.
Qed.

Lemma segmentLoop_covers biList : forall fuel startBiIndex type,
  startBiIndex < length biList ->
  segmentMeasure biList startBiIndex type < fuel ->
  exists segments,
    segmentLoop fuel biList startBiIndex type startBiIndex = Some segments
    /\ segments <> []
    /\ joinShared (map seg_biList segments) = skipn startBiIndex biList
    /\ sharesBoundaries (map seg_biList segments).
Proof.
  induction fuel as [|fuel IH]; intros start type Hs Hm; [lia|].
  simpl segmentLoop.
  destruct (Nat.ltb_spec start (length biList)) as [_|L]; [|lia].
  destruct (nth_error biList start) as [first|] eqn:Hfirst;
    [|apply nth_error_None in Hfirst; lia].
  simpl bind.
  assert (Hne : skipn start biList <> []).
  { intro E. apply (f_equal (@length _)) in E. rewrite length_skipn in E.
    simpl in E. lia. }
  destruct (checkSegmentDestruction biList start type) as [p|] eqn:Hchk.
  - destruct (checkSegmentDestruction_found _ _ _ _ Hchk) as [Hsp [Hp3 [b [Hb Hbt]]]].
    rewrite Hb. simpl bind.
    assert (Hm' : segmentMeasure biList p (flipDir type) < fuel).
    { unfold segmentMeasure in *. rewrite Hb, Hbt, flipDir_neq.
      rewrite Hfirst in Hm.
      destruct (Nat.eq_dec p start) as [->|Hne'].
      - assert (first = b) by congruence. subst first.
        rewrite Hbt in Hm. destruct type; simpl in Hm; lia.
      - destruct (Dir_eqb (bi_type first) type); lia. }
    destruct (IH p (flipDir type)) as [more [Hmore [Hmne [Hjoin Hshare]]]];
      [lia|exact Hm'|].
    rewrite Hmore. simpl bind.
    eexists. split; [reflexivity|]. split; [discriminate|].
    assert (Hsl : length (slice biList start (p + 1)) = p + 1 - start)
      by (apply slice_length; lia).
    split.
    + cbn [map seg_biList joinShared].
      rewrite (joinShared_tl _ Hshare), Hjoin, tl_skipn.
      apply slice_then_rest. exact Hsp.
    + cbn [map seg_biList sharesBoundaries]. split; [|split; [|exact Hshare]].
      * intro E. rewrite E in Hsl. simpl in Hsl. lia.
      * destruct more as [|s1 more']; [congruence|]. cbn [map].
        rewrite Hsl, slice_nth by lia.
        replace (start + (p + 1 - start - 1)) with p by lia.
        rewrite <- hd_error_skipn, <- Hjoin. cbn [map joinShared].
        destruct Hshare as [Hs1 _]. cbn [map] in Hs1.
        destruct (seg_biList s1); [congruence|reflexivity].
  - destruct (nth_error biList (length biList - 1)) as [lastBi|] eqn:Hlast;
      [|apply nth_error_None in Hlast; lia].
    simpl bind. eexists. split; [reflexivity|]. split; [discriminate|].
    cbn [map seg_biList joinShared sharesBoundaries concat].
    rewrite app_nil_r. unfold sliceFrom. auto.
Qed.

(** The segment stage always returns. *)
Lemma generateSegmentsStrict_total (biList : list ChanBi) :
  exists segments, generateSegmentsStrict biList = Some segments.
Proof.
  unfold generateSegmentsStrict.
  destruct biList as [|b0 rest] eqn:E; [exists []; reflexivity|].
  rewrite <- E.
  destruct (Nat.ltb_spec (length biList) 3) as [L|L]; [exists []; reflexivity|].
  destruct (segmentLoop_covers biList (2 * length biList + 2) 0 (bi_type b0))
    as [segments [Hrun _]].
  - lia.
  - unfold segmentMeasure. destruct (nth_error biList 0) as [b|]; [|lia].
    destruct (Dir_eqb (bi_type b) (bi_type b0)); lia.
  - exists segments. exact Hrun.
Qed.

(* ------------------------------------------------------------------ *)
(** ** Pivot builders *)

Lemma extendPivot_bounds rest : forall j zg zd e g d e' g' d',
  extendPivot rest j zg zd e g d = (e', g', d') ->
  (e' = e \/ j <= e' < j + length rest) /\ (g <= g')%Q /\ (d' <= d)%Q.
Proof.
  induction rest as [|nextBi rest IH]; intros j zg zd e g d e' g' d'; simpl.
  - intro H. injection H as <- <- <-. repeat split; (auto || lra).
  - destruct (Qlt_bool _ _).
    + intro H. apply IH in H. destruct H as [He [Hg Hd]].
      split; [lia|]. split; qminmax; lra.
    + intro H. injection H as <- <- <-. repeat split; (auto || lra).
Qed.

Lemma base_pivot_valid h1 h2 h3 l1 l2 l3 g d :
  (Math_max3 l1 l2 l3 < Math_min3 h1 h2 h3)%Q ->
  (Math_max3 h1 h2 h3 <= g)%Q -> (d <= Math_min3 l1 l2 l3)%Q ->
  (Math_min3 h1 h2 h3 <= g)%Q /\ (d <= Math_max3 l1 l2 l3)%Q.
Proof.
  intros H Hg Hd. split; qminmax; lra.
Qed.

Lemma pivotLoop_valid biList : forall fuel i pivots,
  Forall pivotValid pivots ->
  length biList - i <= fuel -> 1 <= fuel ->
  exists result,
    pivotLoop fuel biList i pivots = Some result /\ Forall pivotValid result.
Proof.
  induction fuel as [|fuel IH]; intros i pivots Hv Hf H1; [lia|].
  simpl pivotLoop.
  destruct (Nat.leb_spec (i + 3) (length biList)) as [L|L].
  - destruct (nth_error biList i) as [b1|] eqn:E1;
      [|apply nth_error_None in E1; lia].
    destruct (nth_error biList (i + 1)) as [b2|] eqn:E2;
      [|apply nth_error_None in E2; lia].
    destruct (nth_error biList (i + 2)) as [b3|] eqn:E3;
      [|apply nth_error_None in E3; lia].
    simpl bind.
    destruct (Dir_eqb (bi_type b1) (bi_type b2)); [apply IH; [assumption|lia|lia]|].
    destruct (Qlt_bool _ _) eqn:Ez; [|apply IH; [assumption|lia|lia]].
    apply Qlt_bool_iff in Ez.
    destruct (extendPivot _ _ _ _ _ _ _) as [[endBiIdx currentGG] currentDD] eqn:Ee.
    apply extendPivot_bounds in Ee. rewrite length_skipn in Ee.
    destruct Ee as [He [Hg Hd]].
    destruct (match pivots with [] => true | lastP :: _ => endBiIndex lastP <? i end);
      [|apply IH; [assumption|lia|lia]].
    destruct (nth_error biList endBiIdx) as [endBi|] eqn:Eend;
      [|apply nth_error_None in Eend; lia].
    simpl bind. apply IH; [|lia|lia].
    constructor; [|exact Hv].
    unfold pivotValid; simpl. split; [exact Ez|].
    apply base_pivot_valid; assumption.
  - exists (rev pivots). split; [reflexivity|]. apply Forall_rev, Hv.
Qed.

Lemma generatePivotsFromBi_valid biList :
  exists result,
    generatePivotsFromBi biList = Some result /\ Forall pivotValid result.
Proof.
  unfold generatePivotsFromBi.
  destruct (Nat.ltb_spec (length biList) 3) as [L|L].
  - exists []. split; [reflexivity|constructor].
  - apply pivotLoop_valid; [constructor|lia|lia].
Qed.

Lemma generatePivotsFromSeg_valid segList :
  exists result,
    generatePivotsFromSeg segList = Some result /\ Forall pivotValid result.
Proof.
  unfold generatePivotsFromSeg.
  destruct (generatePivotsFromBi_valid (map pseudoBi segList)) as [raw [Hr Hv]].
  rewrite Hr. simpl. eexists. split; [reflexivity|]. clear Hr.
  induction Hv as [|p raw' Hp _ IH]; simpl; [constructor|].
  constructor; [exact Hp|exact IH].
Qed.

Lemma insertByStartTime_valid p l :
  pivotValid p -> Forall pivotValid l -> Forall pivotValid (insertByStartTime p l).
Proof.
  intros Hp Hl. induction Hl as [|q l Hq Hl IH]; simpl.
  - constructor; [exact Hp|constructor].
  - destruct (_ <=? _)%Z; constructor; auto.
Qed.

Lemma sortByStartTime_valid l :
  Forall pivotValid l -> Forall pivotValid (sortByStartTime l).
Proof.
  induction 1 as [|p l Hp Hl IH]; simpl; [constructor|].
  apply insertByStartTime_valid; assumption.
Qed.

(** The engine returns a result on every input. *)
Lemma calculateChanLun_pivots klines settings :
  exists r, calculateChanLun klines settings = Some r /\ Forall pivotValid (pivots r).
Proof.
  unfold calculateChanLun.
  destruct (length klines <? 10).
  - exists emptyResult. split; [reflexivity|constructor].
  - set (merged := processInclusionStrict klines).
    set (strokes := generateBi (identifyFractals merged) merged settings).
    destruct (generateSegmentsStrict_total strokes) as [segs Hs].
    rewrite Hs. simpl bind.
    destruct (generatePivotsFromBi_valid strokes) as [bp [Hb Hbv]].
    rewrite Hb. simpl bind.
    destruct (generatePivotsFromSeg_valid segs) as [sp [Hsp Hspv]].
    rewrite Hsp. simpl bind.
    unfold analyzeStructure. eexists. split; [reflexivity|]. simpl.
    apply sortByStartTime_valid, Forall_app. auto.
Qed.

(* ------------------------------------------------------------------ *)
(** ** Signal analyzer *)

Lemma skipn_nth_cons (A : Type) (l : list A) : forall n x,
  nth_error l n = Some x -> skipn n l = x :: skipn (S n) l.
Proof.
  induction l as [|a l IH]; intros [|n] x H; try discriminate.
  - injection H as <-. reflexivity.
  - simpl in H. rewrite skipn_cons. apply IH, H.
Qed.

Lemma getRangeMACD_fold macd : forall n startIndex acc,
  startIndex + n <= length macd ->
  fold_left
    (fun area i =>
       match nth_error macd i with
       | Some m => fadd area (Qabs (hist m))
       | None => area
       end)
    (seq startIndex n) acc
  = fold_left (fun area m => fadd area (Qabs (hist m)))
              (firstn n (skipn startIndex macd)) acc.
Proof.
  induction n as [|n IH]; intros s acc H; [reflexivity|].
  destruct (nth_error macd s) as [m|] eqn:E; [|apply nth_error_None in E; lia].
  rewrite (skipn_nth_cons _ _ _ _ E). cbn [seq fold_left firstn]. rewrite E.
  apply IH. lia.
Qed.

Lemma getRangeMACD_sum macd startIndex endIndex :
  endIndex < length macd ->
  getRangeMACD macd startIndex endIndex
  = sumAbsHist (barRange macd startIndex endIndex).
Proof.
  intro H. unfold getRangeMACD, barRange, sumAbsHist.
  destruct (Nat.leb_spec (length macd) endIndex) as [L|_]; [lia|].
  destruct (Nat.le_gt_cases startIndex endIndex) as [Hle|Hgt].
  - apply getRangeMACD_fold. lia.
  - replace (S endIndex - startIndex) with 0 by lia. reflexivity.
Qed.

Lemma divergenceSignal_spec type currEnd prevEnd currForce prevForce threshold
      descB descS segLevel :
  ((exists s, In s (divergenceSignal type currEnd prevEnd currForce prevForce
                                     threshold descB descS segLevel))
   <-> newExtreme type currEnd prevEnd /\ (currForce < fmul prevForce threshold)%Q)
  /\ (forall s, In s (divergenceSignal type currEnd prevEnd currForce prevForce
                                       threshold descB descS segLevel) ->
        divergenceSignal type currEnd prevEnd currForce prevForce
                         threshold descB descS segLevel = [s]
        /\ s_type s = firstTypeOf type /\ isSegmentLevel s = segLevel
        /\ s_price s = p_price currEnd /\ s_time s = p_time currEnd).
Proof.
  unfold divergenceSignal, newExtreme.
  destruct type; simpl.
  - destruct (Qlt_bool (p_price prevEnd) (p_price currEnd)) eqn:Ep;
      [destruct (Qlt_bool currForce (fmul prevForce threshold)) eqn:Ef|];
      qbool; simpl; split.
    + split; [intros _; split; assumption|intros _; eexists; left; reflexivity].
    + intros s [<-|[]]; auto.
    + split; [intros [s []]|intros [_ H]; exfalso; lra].
    + intros s [].
    + split; [intros [s []]|intros [H _]; exfalso; lra].
    + intros s [].
  - destruct (Qlt_bool (p_price currEnd) (p_price prevEnd)) eqn:Ep;
      [destruct (Qlt_bool currForce (fmul prevForce threshold)) eqn:Ef|];
      qbool; simpl; split.
    + split; [intros _; split; assumption|intros _; eexists; left; reflexivity].
    + intros s [<-|[]]; auto.
    + split; [intros [s []]|intros [_ H]; exfalso; lra].
    + intros s [].
    + split; [intros [s []]|intros [H _]; exfalso; lra].
    + intros s [].
Qed.

Lemma thirdTypeAt_not_first biPivots i curr breakout s :
  In s (thirdTypeAt biPivots i curr breakout) -> ~ isFirstType s.
Proof.
  unfold thirdTypeAt, isFirstType.
  destruct (find _ biPivots) as [pivot|]; [|intros []].
  intro H. apply in_app_or in H.
  destruct H as [H|H];
    match type of H with In _ (if ?c then _ else _) => destruct c end;
    try (destruct H as [<-|[]]; simpl; intros [E|E]; discriminate E);
    destruct H.
Qed.

Lemma biSignalsAt_first_type macd biPivots biList i curr prev breakout s :
  nth_error biList i = Some curr ->
  nth_error biList (i - 2) = Some prev ->
  nth_error biList (i - 1) = Some breakout ->
  (In s (biSignalsAt macd biPivots biList i) /\ isFirstType s
   <-> In s (biDivergenceAt macd curr prev)).
Proof.
  intros Hc Hp Hb. unfold biSignalsAt. rewrite Hc, Hp, Hb. split.
  - intros [Hin Hf]. apply in_app_or in Hin. destruct Hin as [Hin|Hin]; [exact Hin|].
    exfalso. exact (thirdTypeAt_not_first _ _ _ _ _ Hin Hf).
  - intro Hin. split; [apply in_or_app; left; exact Hin|].
    unfold biDivergenceAt in Hin.
    destruct (proj2 (divergenceSignal_spec _ _ _ _ _ _ _ _ _) s Hin) as [_ [Ht _]].
    unfold isFirstType. rewrite Ht. destruct (bi_type curr); simpl; auto.
Qed.

(* ------------------------------------------------------------------ *)
(** ** The MACD series covers every bar *)

Lemma emaLoop_length k data : forall prev, length (emaLoop k prev data) = length data.
Proof.
  induction data as [|d data IH]; intro prev; simpl; [reflexivity|].
  rewrite IH. reflexivity.
Qed.

Lemma calculateEMA_length data period : length (calculateEMA data period) = length data.
Proof.
  destruct data as [|d0 data]; simpl; [reflexivity|].
  rewrite emaLoop_length. reflexivity.
Qed.

Lemma zipWith_length (A B C : Type) (f : A -> B -> C) l : forall l',
  length l' = length l -> length (zipWith f l l') = length l.
Proof.
  induction l as [|a l IH]; intros [|b l'] H; simpl in *; try lia.
  rewrite IH by lia. reflexivity.
Qed.

Lemma calculateMACD_length klines fastPeriod slowPeriod signalPeriod :
  length (calculateMACD klines fastPeriod slowPeriod signalPeriod) = length klines.
Proof.
  unfold calculateMACD. destruct klines as [|k0 rest] eqn:E; [reflexivity|].
  rewrite <- E. clear E.
  assert (Hd : length (zipWith fsub (calculateEMA (map k_close klines) fastPeriod)
                               (calculateEMA (map k_close klines) slowPeriod))
               = length klines).
  { rewrite zipWith_length; rewrite !calculateEMA_length, ?length_map; reflexivity. }
  rewrite zipWith_length; rewrite ?calculateEMA_length; [exact Hd|reflexivity].
Qed.

(* ------------------------------------------------------------------ *)
(** ** Every stroke and segment end point is a bar position *)

Lemma identifyFractals_source klines : forall p,
  In p (identifyFractals klines) ->
  exists curr, In curr klines /\ p_index p = originalEndIndex curr.
Proof.
  induction klines as [|prev tl IH]; intros p H; [destruct H|].
  destruct tl as [|curr [|next rest]]; try destruct H.
  change (identifyFractals (prev :: curr :: next :: rest))
    with (pushed (fractalOf prev curr next) ++ identifyFractals (curr :: next :: rest)) in H.
  apply in_app_or in H. destruct H as [H|H].
  - destruct (fractalOf prev curr next) as [q|] eqn:E; [|destruct H].
    destruct H as [<-|[]]. exists curr. split; [right; left; reflexivity|].
    apply (fractalOf_fields _ _ _ _ E).
  - destruct (IH p H) as [c [Hc Hi]]. exists c. split; [right; exact Hc|exact Hi].
Qed.

Lemma keptOfRun_members runs out p :
  Forall2 keptOfRun runs out -> In p out -> In p (concat runs).
Proof.
  induction 1 as [|run q runs out [Hq _] _ IH]; [intros []|].
  simpl. intro H. apply in_or_app.
  destruct H as [<-|H]; [left; exact Hq|right; exact (IH H)].
Qed.

Lemma alternationFilter_subset fractals p :
  In p (alternationFilter fractals) -> In p fractals.
Proof.
  destruct fractals as [|f0 rest]; [intros []|].
  unfold alternationFilter. intro H. apply in_rev in H.
  destruct (alternationFold_inv rest [f0] [[f0]]) as [runs [Hr [_ Hcat]]].
  - discriminate.
  - exact I.
  - constructor; [|constructor]. split; [left; reflexivity|].
    intros q [<-|[]]. split; [reflexivity|apply atLeastAsExtreme_refl].
  - apply (keptOfRun_members _ _ _ Hr) in H.
    apply in_concat in H. destruct H as [run [Hrun Hp]].
    simpl in Hcat. rewrite <- Hcat.
    apply in_concat. exists run. split; [apply in_rev in Hrun; exact Hrun|exact Hp].
Qed.

Lemma validBiLoop_points klines settings rawPoints : forall b,
  In b (validBiLoop klines settings rawPoints) ->
  In (bi_start b) rawPoints /\ In (bi_end b) rawPoints.
Proof.
  induction rawPoints as [|start tl IH]; intros b H; [destruct H|].
  destruct tl as [|end_ rest]; [destruct H|].
  change (validBiLoop klines settings (start :: end_ :: rest))
    with ((if biIsValid settings (kCount klines start end_)
           then [biOf start end_] else [])
          ++ validBiLoop klines settings (end_ :: rest)) in H.
  apply in_app_or in H. destruct H as [H|H].
  - destruct (biIsValid _ _); [|destruct H]. destruct H as [<-|[]].
    simpl. auto.
  - destruct (IH b H). split; right; assumption.
Qed.

Lemma segmentLoop_points biList : forall fuel startBiIndex type i segments,
  segmentLoop fuel biList startBiIndex type i = Some segments ->
  forall s, In s segments ->
    exists b1 b2, In b1 biList /\ In b2 biList
                  /\ seg_start s = bi_start b1 /\ seg_end s = bi_end b2.
Proof.
  induction fuel as [|fuel IH]; intros start type i segments H; [discriminate|].
  simpl in H. destruct (i <? length biList).
  - destruct (nth_error biList start) as [first|] eqn:Hf; [|discriminate].
    simpl in H.
    destruct (checkSegmentDestruction biList start type) as [p|].
    + destruct (nth_error biList p) as [endBi|] eqn:He; [|discriminate].
      simpl in H.
      destruct (segmentLoop fuel biList p (flipDir type) p) as [more|] eqn:Hm;
        [|discriminate].
      simpl in H. injection H as <-. intros s [<-|Hin].
      * exists first, endBi. simpl.
        repeat split; eauto using nth_error_In.
      * exact (IH _ _ _ _ Hm s Hin).
    + destruct (nth_error biList (length biList - 1)) as [lastBi|] eqn:Hl;
        [|discriminate].
      simpl in H. injection H as <-. intros s [<-|[]].
      exists first, lastBi. simpl. repeat split; eauto using nth_error_In.
  - injection H as <-. intros s [].
Qed.

Lemma generateSegmentsStrict_points biList segments :
  generateSegmentsStrict biList = Some segments ->
  forall s, In s segments ->
    exists b1 b2, In b1 biList /\ In b2 biList
                  /\ seg_start s = bi_start b1 /\ seg_end s = bi_end b2.
Proof.
  unfold generateSegmentsStrict. destruct biList as [|b0 rest] eqn:E.
  - intro H. injection H as <-. intros s [].
  - rewrite <- E. destruct (length biList <? 3).
    + intro H. injection H as <-. intros s [].
    + apply segmentLoop_points.
Qed.

(** The engine's stages all return, and its result is assembled from
    them. *)
Lemma calculateChanLun_stages klines settings :
  10 <= length klines ->
  let merged := processInclusionStrict klines in
  let strokes := generateBi (identifyFractals merged) merged settings in
  let macd := calculateMACD klines (macdFast settings) (macdSlow settings)
                            (macdSignal settings) in
  exists segments biPivots segPivots,
    generateSegmentsStrict strokes = Some segments
    /\ generatePivotsFromBi strokes = Some biPivots
    /\ generatePivotsFromSeg segments = Some segPivots
    /\ Forall pivotValid biPivots /\ Forall pivotValid segPivots
    /\ calculateChanLun klines settings
       = Some (mkFeatures merged (identifyFractals merged) strokes segments
                          (sortByStartTime (biPivots ++ segPivots))
                          (trendOf strokes biPivots segPivots)
                          (signalsOf macd biPivots strokes segments)
                          (latestDivergenceOf
                             (signalsOf macd biPivots strokes segments) klines)).
Proof.
  intros L merged strokes macd. unfold calculateChanLun.
  destruct (Nat.ltb_spec (length klines) 10) as [L'|_]; [lia|].
  fold merged. fold strokes.
  destruct (generateSegmentsStrict_total strokes) as [segs Hs].
  destruct (generatePivotsFromBi_valid strokes) as [bp [Hb Hbv]].
  destruct (generatePivotsFromSeg_valid segs) as [sp [Hsp Hspv]].
  exists segs, bp, sp.
  rewrite Hs. cbn [bind]. rewrite Hb. cbn [bind]. rewrite Hsp. cbn [bind].
  repeat split; assumption || reflexivity.
Qed.

Lemma stroke_points_in_range klines settings b :
  let merged := processInclusionStrict klines in
  In b (generateBi (identifyFractals merged) merged settings) ->
  p_index (bi_start b) < length klines /\ p_index (bi_end b) < length klines.
Proof.
  intros merged H. rewrite generateBi_is_validBi in H.
  apply validBiLoop_points in H.
  assert (Hp : forall p, In p (alternationFilter (identifyFractals merged)) ->
                         p_index p < length klines).
  { intros p Hin. apply alternationFilter_subset in Hin.
    apply identifyFractals_source in Hin. destruct Hin as [curr [Hc Hi]].
    destruct (processInclusionStrict_mapped klines curr Hc) as [k [Hk _]].
    rewrite Hi. apply nth_error_Some. congruence. }
  split; apply Hp; apply H.
Qed.

Lemma calculateChanLun_forces klines settings :
  let macd := calculateMACD klines (macdFast settings) (macdSlow settings)
                            (macdSignal settings) in
  exists r,
    calculateChanLun klines settings = Some r
    /\ (forall b, In b (biList r) ->
          getBiMACD macd b
          = sumAbsHist (barRange macd (p_index (bi_start b)) (p_index (bi_end b))))
    /\ (forall s, In s (segList r) ->
          getSegMACD macd s
          = sumAbsHist (barRange macd (p_index (seg_start s)) (p_index (seg_end s))))
    /\ exists biPivots,
         generatePivotsFromBi (biList r) = Some biPivots
         /\ buySellPoints r = signalsOf macd biPivots (biList r) (segList r).
Proof.
  intro macd.
  destruct (Nat.lt_ge_cases (length klines) 10) as [L|L].
  - exists emptyResult. unfold calculateChanLun.
    destruct (Nat.ltb_spec (length klines) 10) as [_|L']; [|lia].
    split; [reflexivity|]. split; [intros b []|]. split; [intros s []|].
    exists []. split; reflexivity.
  - destruct (calculateChanLun_stages klines settings L)
      as [segs [bp [sp [Hs [Hbp [_ [_ [_ Hr]]]]]]]].
    eexists. split; [exact Hr|]. simpl.
    split; [|split; [|exists bp; split; [exact Hbp|reflexivity]]].
    + intros b Hb. apply getRangeMACD_sum. unfold macd.
      rewrite calculateMACD_length. apply (stroke_points_in_range klines settings b Hb).
    + intros s Hin. apply getRangeMACD_sum. unfold macd.
      rewrite calculateMACD_length.
      destruct (generateSegmentsStrict_points _ _ Hs s Hin) as [b1 [b2 [_ [H2 [_ He]]]]].
      rewrite He. apply (stroke_points_in_range klines settings b2 H2).
Qed.

(* ------------------------------------------------------------------ *)
(** ** The engine's fractal list already alternates *)

Lemma stepsInOrder_of_nth klines :
  (forall i a b, nth_error klines i = Some a -> nth_error klines (S i) = Some b ->
                 stepRel a b) ->
  stepsInOrder klines.
Proof.
  induction klines as [|a tl IH]; intro H; [exact I|].
  destruct tl as [|b rest]; [exact I|]. split.
  - exact (H 0 a b eq_refl eq_refl).
  - apply IH. intros i x y Hx Hy. exact (H (S i) x y Hx Hy).
Qed.

Lemma fractalOf_turn prev curr next p :
  stepRel prev curr -> stepRel curr next ->
  fractalOf prev curr next = Some p ->
  p_type p = turnAfter prev curr /\ turnAfter curr next <> turnAfter prev curr.
Proof.
  unfold fractalOf, turnAfter, stepRel. intros S1 S2.
  destruct (Qlt_bool (m_high prev) (m_high curr)) eqn:E1;
    destruct (Qlt_bool (m_high curr) (m_high next)) eqn:E2;
    destruct (Qlt_bool (m_high next) (m_high curr)) eqn:E3;
    destruct (Qlt_bool (m_low curr) (m_low prev)) eqn:E4;
    destruct (Qlt_bool (m_low curr) (m_low next)) eqn:E5;
    simpl; intro H; try discriminate H;
    try (injection H as <-; simpl; split; [reflexivity|discriminate]);
    exfalso; qbool; destruct S1 as [[? ?]|[? ?]]; destruct S2 as [[? ?]|[? ?]]; lra.
Qed.

Lemma fractalOf_none_turn prev curr next :
  stepRel prev curr -> stepRel curr next ->
  fractalOf prev curr next = None ->
  turnAfter curr next = turnAfter prev curr.
Proof.
  unfold fractalOf, turnAfter, stepRel. intros S1 S2.
  destruct (Qlt_bool (m_high prev) (m_high curr)) eqn:E1;
    destruct (Qlt_bool (m_high curr) (m_high next)) eqn:E2;
    destruct (Qlt_bool (m_high next) (m_high curr)) eqn:E3;
    destruct (Qlt_bool (m_low curr) (m_low prev)) eqn:E4;
    destruct (Qlt_bool (m_low curr) (m_low next)) eqn:E5;
    simpl; intro H; try discriminate H; try reflexivity;
    exfalso; qbool; destruct S1 as [[? ?]|[? ?]]; destruct S2 as [[? ?]|[? ?]]; lra.
Qed.

Lemma identifyFractals_alternatesFrom tl : forall prev curr,
  stepsInOrder (prev :: curr :: tl) ->
  alternatesFrom (turnAfter prev curr) (identifyFractals (prev :: curr :: tl)).
Proof.
  induction tl as [|next rest IH]; intros prev curr H; [exact I|].
  change (identifyFractals (prev :: curr :: next :: rest))
    with (pushed (fractalOf prev curr next) ++ identifyFractals (curr :: next :: rest)).
  destruct H as [S1 H]. pose proof H as [S2 _].
  specialize (IH curr next H).
  destruct (fractalOf prev curr next) as [p|] eqn:E; simpl.
  - destruct (fractalOf_turn _ _ _ _ S1 S2 E) as [Hp Hturn]. split; [exact Hp|].
    replace (match turnAfter prev curr with top => bottom | bottom => top end)
      with (turnAfter curr next); [exact IH|].
    destruct (turnAfter curr next), (turnAfter prev curr); congruence.
  - rewrite <- (fractalOf_none_turn _ _ _ S1 S2 E). exact IH.
Qed.

Lemma alternatesFrom_strict points : forall first,
  alternatesFrom first points -> strictlyAlternates points.
Proof.
  induction points as [|p rest IH]; intros first H i a b Ha Hb.
  - destruct i; discriminate.
  - destruct H as [Hp H]. destruct i as [|i].
    + simpl in Ha, Hb. injection Ha as <-.
      destruct rest as [|q rest']; [discriminate|]. simpl in Hb. injection Hb as <-.
      destruct H as [Hq _]. rewrite Hp, Hq. destruct first; discriminate.
    + exact (IH _ H i a b Ha Hb).
Qed.

(** On the merged bars of any input the detector's output already
    alternates between top and bottom. *)
Lemma engine_fractals_alternate klines :
  strictlyAlternates (identifyFractals (processInclusionStrict klines)).
Proof.
  pose proof (stepsInOrder_of_nth _ (processInclusionStrict_steps klines)) as H.
  destruct (processInclusionStrict klines) as [|prev [|curr tl]];
    try (intros [|i] a b Ha; discriminate).
  exact (alternatesFrom_strict _ _ (identifyFractals_alternatesFrom tl prev curr H)).
Qed.

Lemma alternation_fold_identity rest : forall rawPoints,
  rawPoints <> [] ->
  strictlyAlternates (rev rawPoints ++ rest) ->
  fold_left alternationStep rest rawPoints = rev rest ++ rawPoints.
Proof.
  induction rest as [|curr rest IH]; intros rawPoints Hne H; [reflexivity|].
  simpl fold_left. destruct rawPoints as [|lastPt older]; [congruence|].
  assert (Ht : p_type lastPt <> p_type curr).
  { apply (H (length (rev older)) lastPt curr).
    - simpl rev. rewrite <- app_assoc. rewrite nth_error_app2 by lia.
      rewrite Nat.sub_diag. reflexivity.
    - simpl rev. rewrite <- app_assoc. rewrite nth_error_app2 by lia.
      replace (S (length (rev older)) - length (rev older)) with 1 by lia.
      reflexivity. }
  unfold alternationStep at 2.
  destruct (PointType_eqb (p_type curr) (p_type lastPt)) eqn:E;
    [apply PointType_eqb_eq in E; congruence|].
  rewrite IH; [|discriminate|].
  - simpl rev. rewrite <- app_assoc. reflexivity.
  - simpl rev. simpl rev in H. rewrite <- !app_assoc in *. exact H.
Qed.

Lemma alternationFilter_identity fractals :
  strictlyAlternates fractals -> alternationFilter fractals = fractals.
Proof.
  destruct fractals as [|f0 rest]; intro H; [reflexivity|].
  unfold alternationFilter. rewrite alternation_fold_identity; [|discriminate|exact H].
  rewrite rev_app_distr, rev_involutive. reflexivity.
Qed.

(** Inside the engine the alternation filter changes nothing. *)
Lemma engine_alternation_filter_identity klines :
  alternationFilter (identifyFractals (processInclusionStrict klines))
  = identifyFractals (processInclusionStrict klines).
Proof. apply alternationFilter_identity, engine_fractals_alternate. Qed.

(* ------------------------------------------------------------------ *)
(** ** The count of the validity filter is a distance of positions *)

Lemma inclusionStep_children klines i k st :
  nth_error klines i = Some k -> spanInv i st ->
  Forall (childrenInSpan klines) (fst st) ->
  Forall (childrenInSpan klines) (fst (inclusionStep i k st)).
Proof.
  intros Hk [He Hs]. destruct st as [[|x older] d]; simpl in *; [tauto|].
  destruct Hs as [Hle _].
  intro H. pose proof (Forall_inv H) as Hx. pose proof (Forall_inv_tail H) as Ho.
  destruct (isNextInLast x k || isLastInNext x k); simpl.
  - constructor; [|exact Ho]. intros c Hc. simpl in *.
    apply in_app_or in Hc. destruct Hc as [Hc|[Hc|[]]].
    + destruct (Hx c Hc) as [idx [Hr Hn]]. exists idx. split; [lia|exact Hn].
    + exists i. split; [lia|congruence].
  - constructor; [|exact H]. intros c [Hc|[]]. exists i. simpl.
    split; [lia|congruence].
Qed.

Lemma inclusionLoop_children klines rest : forall i st,
  (forall j k, nth_error rest j = Some k -> nth_error klines (i + j) = Some k) ->
  spanInv i st ->
  Forall (childrenInSpan klines) (fst st) ->
  Forall (childrenInSpan klines) (fst (inclusionLoop i rest st)).
Proof.
  induction rest as [|k rest IH]; intros i st Hr Hs H; simpl; [exact H|].
  assert (Hk : nth_error klines i = Some k).
  { rewrite <- (Nat.add_0_r i). apply Hr. reflexivity. }
  apply IH.
  - intros j k' Hj. replace (S i + j) with (i + S j) by lia. apply Hr. exact Hj.
  - apply inclusionStep_spans, Hs.
  - apply inclusionStep_children; assumption.
Qed.

Lemma processInclusionStrict_children klines m :
  In m (processInclusionStrict klines) -> childrenInSpan klines m.
Proof.
  destruct klines as [|k0 rest]; simpl; [tauto|].
  intro Hin. apply in_rev in Hin. revert m Hin. apply Forall_forall.
  apply inclusionLoop_children.
  - intros j k Hj. exact Hj.
  - split; simpl; auto.
  - constructor; [|constructor]. intros c [<-|[]]. exists 0. simpl. split; [lia|reflexivity].
Qed.

Lemma spans_ordered klines : forall n j a b,
  nth_error (processInclusionStrict klines) j = Some a ->
  nth_error (processInclusionStrict klines) (j + S n) = Some b ->
  originalEndIndex a < originalStartIndex b.
Proof.
  induction n as [|n IH]; intros j a b Ha Hb.
  - replace (j + 1) with (S j) in Hb by lia.
    rewrite (processInclusionStrict_span_adjacent klines j a b Ha Hb). lia.
  - destruct (nth_error (processInclusionStrict klines) (j + S n)) as [c|] eqn:Hc.
    + pose proof (IH j a c Ha Hc) as H1.
      replace (j + S (S n)) with (S (j + S n)) in Hb by lia.
      rewrite (processInclusionStrict_span_adjacent klines _ c b Hc Hb).
      pose proof (processInclusionStrict_span_nonempty klines c (nth_error_In _ _ Hc)).
      lia.
    + apply nth_error_None in Hc.
      assert (j + S (S n) < length (processInclusionStrict klines))
        by (apply nth_error_Some; congruence).
      lia.
Qed.

Lemma holdsTime_source klines m t :
  In m (processInclusionStrict klines) ->
  holdsTime t m = true ->
  exists idx k, originalStartIndex m <= idx <= originalEndIndex m
                /\ nth_error klines idx = Some k /\ k_time k = t.
Proof.
  intros Hin H. unfold holdsTime in H. apply orb_true_iff in H.
  pose proof (processInclusionStrict_span_nonempty klines m Hin) as Hle.
  destruct H as [H|H].
  - apply Z.eqb_eq in H.
    destruct (processInclusionStrict_mapped klines m Hin) as [k [Hk Ht]].
    exists (originalEndIndex m), k. split; [lia|]. split; [exact Hk|congruence].
  - apply existsb_exists in H. destruct H as [c [Hc Ht]]. apply Z.eqb_eq in Ht.
    destruct (processInclusionStrict_children klines m Hin c Hc) as [idx [Hr Hn]].
    exists idx, c. auto.
Qed.

Lemma findIndexFrom_first (A : Type) (f : A -> bool) (l : list A) : forall i0 j x,
  nth_error l j = Some x -> f x = true ->
  (forall j' x', j' < j -> nth_error l j' = Some x' -> f x' = false) ->
  findIndexFrom f l i0 = (i0 + Z.of_nat j)%Z.
Proof.
  induction l as [|a l IH]; intros i0 j x Hj Hx Hmin; [destruct j; discriminate|].
  destruct j as [|j]; simpl.
  - injection Hj as <-. rewrite Hx. lia.
  - rewrite (Hmin 0 a) by (lia || reflexivity).
    rewrite (IH (i0 + 1)%Z j x Hj Hx).
    + lia.
    + intros j' x' Hlt Hn. apply (Hmin (S j') x'); [lia|exact Hn].
Qed.

Lemma findIndex_of_merged_time klines j m :
  timesIncrease klines ->
  nth_error (processInclusionStrict klines) j = Some m ->
  findIndex (holdsTime (m_time m)) (processInclusionStrict klines) = Z.of_nat j.
Proof.
  intros Hinc Hj. unfold findIndex.
  rewrite (findIndexFrom_first _ _ _ 0%Z j m Hj); [lia| |].
  - unfold holdsTime. rewrite Z.eqb_refl. reflexivity.
  - intros j' m' Hlt Hj'.
    destruct (holdsTime (m_time m) m') eqn:E; [|reflexivity]. exfalso.
    destruct (holdsTime_source klines m' _ (nth_error_In _ _ Hj') E)
      as [idx [k [Hr [Hk Ht]]]].
    destruct (processInclusionStrict_mapped klines m (nth_error_In _ _ Hj))
      as [k2 [Hk2 Ht2]].
    assert (Hord : originalEndIndex m' < originalStartIndex m).
    { apply (spans_ordered klines (j - j' - 1) j' m' m Hj').
      replace (j' + S (j - j' - 1)) with j by lia. exact Hj. }
    pose proof (processInclusionStrict_span_nonempty klines m (nth_error_In _ _ Hj)).
    assert (idx < originalEndIndex m) by lia.
    pose proof (Hinc idx (originalEndIndex m) k k2 H0 Hk Hk2). lia.
Qed.

(** With strictly increasing bar times, the count of two points taken from
    the merged bars at positions [js] and [je] is the distance of the
    positions. *)
Lemma kCount_position_distance klines js je ms me s e :
  timesIncrease klines ->
  nth_error (processInclusionStrict klines) js = Some ms ->
  nth_error (processInclusionStrict klines) je = Some me ->
  p_time s = m_time ms -> p_time e = m_time me ->
  kCount (processInclusionStrict klines) s e = Z.abs (Z.of_nat je - Z.of_nat js).
Proof.
  intros Hinc Hs He Hts Hte. unfold kCount. rewrite Hts, Hte.
  rewrite (findIndex_of_merged_time klines js ms Hinc Hs).
  rewrite (findIndex_of_merged_time klines je me Hinc He). reflexivity.
Qed.

(* ------------------------------------------------------------------ *)
(** ** Inclusion loop: children and carried values *)

Lemma firstn_S_nth (A : Type) (l : list A) : forall i k,
  nth_error l i = Some k -> firstn (S i) l = firstn i l ++ [k].
Proof.
  induction l as [|a l IH]; intros [|i] k H; try discriminate.
  - injection H as <-. reflexivity.
  - simpl in H. rewrite !firstn_cons, (IH i k H). reflexivity.
Qed.

Lemma slice_snoc (A : Type) (l : list A) a b x :
  a <= b -> nth_error l b = Some x -> slice l a (S b) = slice l a b ++ [x].
Proof.
  intros Hab Hx. unfold slice.
  replace (S b - a) with (S (b - a)) by lia.
  apply firstn_S_nth. rewrite nth_error_skipn.
  replace (a + (b - a)) with b by lia. exact Hx.
Qed.

Lemma inclusionStep_childrenInv klines i k st :
  nth_error klines i = Some k -> spanInv i st ->
  childrenInv klines i st -> childrenInv klines (S i) (inclusionStep i k st).
Proof.
  intros Hk [He Hs] [Hcat Hall].
  destruct st as [[|x older] d]; simpl in *; [tauto|].
  destruct Hs as [Hle _].
  pose proof (Forall_inv Hall) as Hx. pose proof (Forall_inv_tail Hall) as Ho.
  unfold childrenInv.
  rewrite (firstn_S_nth _ _ _ _ Hk), <- Hcat.
  destruct (isNextInLast x k || isLastInNext x k); simpl.
  - split.
    + rewrite !map_app, !concat_app. simpl. rewrite !app_nil_r, app_assoc. reflexivity.
    + constructor; [|exact Ho]. simpl.
      simpl in Hx. rewrite He in Hx.
      rewrite Hx, (slice_snoc _ klines (originalStartIndex x) i k); [reflexivity|lia|exact Hk].
  - split.
    + rewrite !map_app, !concat_app. simpl. rewrite !app_nil_r. reflexivity.
    + constructor; [|exact Hall]. simpl.
      unfold slice. replace (S i - i) with 1 by lia.
      rewrite (skipn_nth_cons _ _ _ _ Hk). reflexivity.
Qed.

Lemma inclusionLoop_childrenInv klines rest : forall i st,
  (forall j k, nth_error rest j = Some k -> nth_error klines (i + j) = Some k) ->
  spanInv i st -> childrenInv klines i st ->
  childrenInv klines (i + length rest) (inclusionLoop i rest st).
Proof.
  induction rest as [|k rest IH]; intros i st Hr Hs H; simpl.
  - rewrite Nat.add_0_r. exact H.
  - assert (Hk : nth_error klines i = Some k).
    { rewrite <- (Nat.add_0_r i). apply Hr. reflexivity. }
    replace (i + S (length rest)) with (S i + length rest) by lia.
    apply IH.
    + intros j k' Hj. replace (S i + j) with (i + S j) by lia. apply Hr. exact Hj.
    + apply inclusionStep_spans, Hs.
    + apply inclusionStep_childrenInv; assumption.
Qed.

Lemma Math_max_cases x y : Math_max x y = x \/ Math_max x y = y.
Proof.
  unfold Math_max, Qmax, GenericMinMax.gmax. destruct (x ?= y)%Q; auto.
Qed.

Lemma Math_min_cases x y : Math_min x y = x \/ Math_min x y = y.
Proof.
  unfold Math_min, Qmin, GenericMinMax.gmin. destruct (x ?= y)%Q; auto.
Qed.

Lemma inclusionStep_carries i k st :
  Forall carriesChildValues (fst st) ->
  Forall carriesChildValues (fst (inclusionStep i k st)).
Proof.
  destruct st as [[|x older] d]; simpl; [auto|].
  intro H. pose proof (Forall_inv H) as Hx. pose proof (Forall_inv_tail H) as Ho.
  destruct Hx as [[ch [Hch Hh]] [[cl [Hcl Hl]] [[c0 [others [Hc0 Hoc]]] _]]].
  destruct (isNextInLast x k || isLastInNext x k); simpl.
  - constructor; [|exact Ho].
    unfold carriesChildValues, m_high, m_low, m_time in *. simpl.
    repeat split.
    + destruct (_ =? 1)%Z;
        [destruct (Math_max_cases (k_high (bar x)) (k_high k)) as [E|E]
        |destruct (Math_min_cases (k_high (bar x)) (k_high k)) as [E|E]];
        rewrite E;
        solve [exists ch; split; [apply in_or_app; left; exact Hch|exact Hh]
              |exists k; split; [apply in_or_app; right; left; reflexivity|reflexivity]].
    + destruct (_ =? 1)%Z;
        [destruct (Math_max_cases (k_low (bar x)) (k_low k)) as [E|E]
        |destruct (Math_min_cases (k_low (bar x)) (k_low k)) as [E|E]];
        rewrite E;
        solve [exists cl; split; [apply in_or_app; left; exact Hcl|exact Hl]
              |exists k; split; [apply in_or_app; right; left; reflexivity|reflexivity]].
    + exists c0, (others ++ [k]). rewrite Hc0. simpl. tauto.
    + exists (children x), k. split; reflexivity.
  - constructor; [|exact H].
    unfold carriesChildValues, m_high, m_low, m_time. simpl.
    repeat split.
    + exists k. split; [left; reflexivity|reflexivity].
    + exists k. split; [left; reflexivity|reflexivity].
    + exists k, []. repeat split; reflexivity.
    + exists [], k. split; reflexivity.
Qed.

Lemma inclusionLoop_carries rest : forall i st,
  Forall carriesChildValues (fst st) ->
  Forall carriesChildValues (fst (inclusionLoop i rest st)).
Proof.
  induction rest as [|k rest IH]; intros i st H; simpl; [exact H|].
  apply IH, inclusionStep_carries, H.
Qed.

Lemma inclusionStep_lowBelowHigh i k st :
  lowBelowHigh k ->
  Forall (fun m => lowBelowHigh (bar m)) (fst st) ->
  Forall (fun m => lowBelowHigh (bar m)) (fst (inclusionStep i k st)).
Proof.
  intro Hk. destruct st as [[|x older] d]; simpl; [auto|].
  intro H. pose proof (Forall_inv H) as Hx. pose proof (Forall_inv_tail H) as Ho.
  unfold lowBelowHigh in *.
  destruct (isNextInLast x k || isLastInNext x k); simpl.
  - constructor; [|exact Ho]. unfold m_high, m_low. simpl.
    destruct (_ =? 1)%Z; qminmax; lra.
  - constructor; [exact Hk|exact H].
Qed.

Lemma inclusionLoop_lowBelowHigh rest : forall i st,
  Forall lowBelowHigh rest ->
  Forall (fun m => lowBelowHigh (bar m)) (fst st) ->
  Forall (fun m => lowBelowHigh (bar m)) (fst (inclusionLoop i rest st)).
Proof.
  induction rest as [|k rest IH]; intros i st Hr H; simpl; [exact H|].
  apply IH; [exact (Forall_inv_tail Hr)|].
  apply inclusionStep_lowBelowHigh; [exact (Forall_inv Hr)|exact H].
Qed.

Lemma processInclusionStrict_carries klines :
  Forall carriesChildValues (processInclusionStrict klines).
Proof.
  destruct klines as [|k0 rest]; [constructor|].
  simpl processInclusionStrict. apply Forall_rev.
  apply inclusionLoop_carries. constructor; [|constructor].
  unfold carriesChildValues, m_high, m_low, m_time. simpl.
  split; [exists k0; split; [left|]; reflexivity|].
  split; [exists k0; split; [left|]; reflexivity|].
  split; [exists k0, []; repeat split; reflexivity|].
  exists [], k0. split; reflexivity.
Qed.

Lemma fractal_price_from_child klines curr p :
  In curr (processInclusionStrict klines) ->
  p_price p = match p_type p with top => m_high curr | bottom => m_low curr end ->
  exists idx c,
    originalStartIndex curr <= idx <= originalEndIndex curr
    /\ nth_error klines idx = Some c
    /\ p_price p = extremeOf (p_type p) c.
Proof.
  intros Hin Hp.
  pose proof (proj1 (Forall_forall _ _) (processInclusionStrict_carries klines) curr Hin)
    as [[ch [Hch Hh]] [[cl [Hcl Hl]] _]].
  pose proof (processInclusionStrict_children klines curr Hin) as Hspan.
  unfold extremeOf. destruct (p_type p).
  - destruct (Hspan ch Hch) as [idx [Hi Hk]].
    exists idx, ch. repeat split; try tauto. congruence.
  - destruct (Hspan cl Hcl) as [idx [Hi Hk]].
    exists idx, cl. repeat split; try tauto. congruence.
Qed.

Lemma signalsOf_in macd biPivots biList segList s :
  In s (signalsOf macd biPivots biList segList)
  <-> (exists i, 2 <= i < length biList /\ In s (biSignalsAt macd biPivots biList i))
      \/ (exists i, 2 <= i < length segList /\ In s (segSignalsAt macd segList i)).
Proof.
  unfold signalsOf. rewrite in_app_iff, !in_flat_map.
  split; intros [[i [Hi H]]|[i [Hi H]]]; [left|right|left|right]; exists i;
    (split; [|exact H]); try (apply in_seq in Hi; lia); apply in_seq; lia.
Qed.

(* ------------------------------------------------------------------ *)
(** * Main theorems *)

(** C1 (amended). The segment stage always returns.  With fewer than three
    strokes it returns no segment.  Otherwise every segment owns a non-empty
    run of strokes, each segment after the first begins with the stroke that
    ends the segment before it, and joining the owned runs with that shared
    first stroke dropped from every segment after the first gives back the
    stroke chain exactly. *)
Theorem segments_cover_chain_sharing_boundaries (biList : list ChanBi) :
  exists segments,
    generateSegmentsStrict biList = Some segments
    /\ ((length biList < 3 /\ segments = [])
        \/ (3 <= length biList
            /\ joinShared (map seg_biList segments) = biList
            /\ sharesBoundaries (map seg_biList segments))).
Proof.
  unfold generateSegmentsStrict.
  destruct biList as [|b0 rest] eqn:E.
  - exists []. split; [reflexivity|]. left. simpl. split; [lia|reflexivity].
  - rewrite <- E.
    destruct (Nat.ltb_spec (length biList) 3) as [L|L].
    + exists []. split; [reflexivity|]. left. auto.
    + destruct (segmentLoop_covers biList (2 * length biList + 2) 0 (bi_type b0))
        as [segments [Hrun [_ [Hjoin Hshare]]]].
      * lia.
      * unfold segmentMeasure. destruct (nth_error biList 0) as [b|]; [|lia].
        destruct (Dir_eqb (bi_type b) (bi_type b0)); lia.
      * exists segments. split; [exact Hrun|]. right. auto.
Qed.

(** C1 (as stated) fails: on the strokes of the zig-zag the segments do not
    partition the chain, the strokes on segment boundaries are owned twice
    (8 strokes, 10 owned strokes over 3 segments). *)
Lemma segments_partition_counterexample :
  exists segments,
    generateSegmentsStrict zigzagStrokes = Some segments
    /\ ~ partitionsExactly zigzagStrokes segments.
Proof.
  eexists. split; [vm_compute; reflexivity|].
  unfold partitionsExactly. intro H.
  apply (f_equal (@length _)) in H. vm_compute in H. discriminate H.
Qed.

(** C2. In the merged-bar list produced by [processInclusionStrict], no two
    adjacent merged bars satisfy the containment predicate: the output is
    maximally merged. *)
Theorem merged_bars_never_contained (klines : list Kline) (i : nat)
        (a b : MergedKline) :
  nth_error (processInclusionStrict klines) i = Some a ->
  nth_error (processInclusionStrict klines) (S i) = Some b ->
  containment a b = false.
Proof.
  intros Ha Hb. apply stepRel_not_contained.
  exact (processInclusionStrict_steps _ _ _ _ Ha Hb).
Qed.

(** C3. The loop body confirms termination at a candidate stroke exactly
    when the candidate has the segment's direction and (a) the feature pair
    -- elements 1 and 2, or, when their ranges overlap, their merge under
    the opposite rule compared with element 3 -- moves strictly opposite the
    segment direction, and (b) the rebound / retrace stroke between the two
    compared elements ends beyond the candidate's end price; and
    [checkSegmentDestruction] returns the first position from [startIndex]
    at which termination is confirmed. *)
Theorem destruction_test_iff (biList : list ChanBi) (type : Dir) :
  (forall i, destructionAt biList i type = true <-> terminationConfirmed biList i type)
  /\ (forall startIndex p,
        checkSegmentDestruction biList startIndex type = Some p
        <-> startIndex <= p
            /\ terminationConfirmed biList p type
            /\ forall j, startIndex <= j < p -> ~ terminationConfirmed biList j type).
Proof.
  split; [intro i; apply destructionAt_spec|].
  intros startIndex p. unfold checkSegmentDestruction.
  rewrite destructionScan_spec. split.
  - intros [Hr [Hp Hmin]]. split; [lia|]. split; [apply destructionAt_spec, Hp|].
    intros j Hj Hc. apply destructionAt_spec in Hc. rewrite (Hmin j Hj) in Hc.
    discriminate.
  - intros [Hr [Hp Hmin]].
    assert (L : p + 3 < length biList).
    { destruct Hp as [c [f1 [f2 [_ [_ [_ [H2 _]]]]]]]. apply nth_error_Some. congruence. }
    split; [lia|]. split; [apply destructionAt_spec, Hp|].
    intros j Hj. destruct (destructionAt biList j type) eqn:E; [|reflexivity].
    exfalso. apply (Hmin j Hj). apply destructionAt_spec, E.
Qed.

(** C4. Both pivot builders always return, and every pivot they emit --
    base pivot or extended -- has zg > zd, gg >= zg and dd <= zd; the same
    holds for every pivot of the engine's combined, sorted pivot list. *)
Theorem pivots_are_valid (biList : list ChanBi) (segList : list ChanSeg)
        (klines : list Kline) (settings : AppSettings) :
  (exists result,
      generatePivotsFromBi biList = Some result /\ Forall pivotValid result)
  /\ (exists result,
         generatePivotsFromSeg segList = Some result /\ Forall pivotValid result)
  /\ (exists r,
         calculateChanLun klines settings = Some r /\ Forall pivotValid (pivots r)).
Proof.
  split; [apply generatePivotsFromBi_valid|].
  split; [apply generatePivotsFromSeg_valid|apply calculateChanLun_pivots].
Qed.

(** C5 (amended). The validity filter walks the adjacent pairs of the
    alternating point list and accepts exactly those whose count meets the
    mode's threshold: at least 4 for [old], at least 3 for [new], always for
    [fractal], and for [custom] at least the configured bar count minus 1,
    where a configured count of 0 counts as 5.  Every accepted pair, and
    nothing else, reaches the stroke list.  The count is the distance
    between the positions of the first merged bars holding the two points'
    times; when bar times strictly increase this is the distance between
    the positions of the two fractals' own merged bars, one more than the
    number of merged bars strictly between them. *)
Theorem validity_filter_thresholds (klines : list MergedKline)
        (settings : AppSettings) (fractals : list ChanPoint) :
  let rawPoints := alternationFilter fractals in
  validBiLoop klines settings rawPoints
  = map (fun se => biOf (fst se) (snd se))
        (filter (fun se => biIsValid settings (kCount klines (fst se) (snd se)))
                (adjacentPairs rawPoints))
  /\ (forall count, biIsValid settings count = true <-> accepts settings count)
  /\ generateBi fractals klines settings = validBiLoop klines settings rawPoints
  /\ (forall bars js je ms me s e,
         timesIncrease bars ->
         nth_error (processInclusionStrict bars) js = Some ms ->
         nth_error (processInclusionStrict bars) je = Some me ->
         p_time s = m_time ms -> p_time e = m_time me ->
         kCount (processInclusionStrict bars) s e
         = Z.abs (Z.of_nat je - Z.of_nat js)).
Proof.
  intro rawPoints. split; [apply validBiLoop_filter|].
  split; [intro count; apply biIsValid_accepts|].
  split; [apply generateBi_is_validBi|].
  intros bars js je ms me s e. apply kCount_position_distance.
Qed.

(** C5 (as stated) fails: with mode [custom] and a configured bar count of
    0 the stated threshold is -1, so every pair would be accepted, but the
    first fractal pair of the zig-zag (count 2) is rejected. *)
Lemma validity_filter_custom_zero_counterexample :
  ~ validityAsStated (processInclusionStrict zigzagBars) customZeroSettings
      (alternationFilter (identifyFractals (processInclusionStrict zigzagBars))).
Proof.
  set (merged := processInclusionStrict zigzagBars). intro H.
  destruct (H 0 (mkPoint 2 (inject_Z 15) top 2%Z true)
              (mkPoint 4 (inject_Z 9) bottom 4%Z true)) as [_ Hin];
    [vm_compute; reflexivity|vm_compute; reflexivity|].
  assert (Hs : statedAccepts customZeroSettings
                 (kCount merged (mkPoint 2 (inject_Z 15) top 2%Z true)
                         (mkPoint 4 (inject_Z 9) bottom 4%Z true))).
  { vm_compute. discriminate. }
  specialize (Hin Hs). vm_compute in Hin.
  repeat (destruct Hin as [Hin|Hin]; [discriminate Hin|]). exact Hin.
Qed.

(** C6. The output of the alternation filter strictly alternates between
    top and bottom, and the input splits into consecutive runs of same-type
    points, one per output point, such that the output point is a member of
    its run and no point of the run is more extreme (higher for a top, lower
    for a bottom): of consecutive points sharing a type only the more
    extreme one is kept. *)
Theorem alternation_filter_keeps_run_extremes (fractals : list ChanPoint) :
  strictlyAlternates (alternationFilter fractals)
  /\ exists runs,
       concat runs = fractals
       /\ Forall2 keptOfRun runs (alternationFilter fractals).
Proof.
  destruct fractals as [|f0 rest].
  - split; [intros [|i] a b Ha; discriminate|]. exists []. split; [reflexivity|constructor].
  - unfold alternationFilter.
    assert (H0 : Forall2 keptOfRun [[f0]] [f0]).
    { constructor; [|constructor]. split; [left; reflexivity|].
      intros q [<-|[]]. split; [reflexivity|apply atLeastAsExtreme_refl]. }
    destruct (alternationFold_inv rest [f0] [[f0]]) as [runs [Hr [Hc Hcat]]];
      [discriminate|exact I|exact H0|].
    split.
    + intros i a b Ha Hb.
      destruct (rev_neighbours _ _ _ _ _ Ha Hb) as [j [Ha' Hb']].
      exact (altChain_nth _ _ _ _ Hc Ha' Hb').
    + exists (rev runs). split; [exact Hcat|].
      apply Forall2_rev_both, Hr.
Qed.

(** C7 (amended). On the merged-bar list of any input, the fractal detector
    visits every interior position; it emits a top fractal there exactly
    when the bar's high strictly exceeds both neighbours' highs and a bottom
    fractal exactly when its low is strictly below both neighbours' lows
    (ties never qualify).  The emitted point's price is the merged bar's
    high or low, which is the high or low of one of the original bars merged
    into it; its time and its index are those of the last original bar
    merged into it, which need not be the bar holding that price. *)
Theorem fractal_detector_strict_extrema (klines : list Kline)
        (i : nat) (prev curr next : MergedKline) :
  let merged := processInclusionStrict klines in
  nth_error merged i = Some prev ->
  nth_error merged (S i) = Some curr ->
  nth_error merged (S (S i)) = Some next ->
  identifyFractals merged
  = flat_map (fun j => pushed (fractalAt merged j)) (seq 1 (length merged - 2))
  /\ ((exists p, fractalAt merged (S i) = Some p /\ p_type p = top)
      <-> (m_high prev < m_high curr /\ m_high next < m_high curr)%Q)
  /\ ((exists p, fractalAt merged (S i) = Some p /\ p_type p = bottom)
      <-> (m_low curr < m_low prev /\ m_low curr < m_low next)%Q)
  /\ (forall p, fractalAt merged (S i) = Some p ->
        p_time p = m_time curr
        /\ p_price p = match p_type p with top => m_high curr | bottom => m_low curr end
        /\ p_index p = originalEndIndex curr
        /\ (exists k, nth_error klines (p_index p) = Some k /\ k_time k = p_time p)
        /\ (exists idx c,
              originalStartIndex curr <= idx <= p_index p
              /\ nth_error klines idx = Some c
              /\ p_price p = extremeOf (p_type p) c)).
Proof.
  intros merged Hp Hc Hn.
  assert (Hat : fractalAt merged (S i) = fractalOf prev curr next).
  { unfold fractalAt. rewrite Hp, Hc, Hn. reflexivity. }
  rewrite Hat.
  split; [apply identifyFractals_by_position|].
  split; [apply fractalOf_top|].
  split; [apply fractalOf_bottom; exact (processInclusionStrict_steps _ _ _ _ Hp Hc)|].
  intros p Hf. destruct (fractalOf_fields _ _ _ _ Hf) as [Ht [Hpr Hi]].
  pose proof (nth_error_In _ _ Hc) as Hin.
  split; [exact Ht|]. split; [exact Hpr|]. split; [exact Hi|]. split.
  - destruct (processInclusionStrict_mapped klines curr Hin) as [k [Hk Hkt]].
    exists k. rewrite Hi, Ht. split; assumption.
  - rewrite Hi. exact (fractal_price_from_child klines curr p Hin Hpr).
Qed.

(** C7 (as stated) fails: in [insideBars] bar 6 (high 14) is merged into
    bar 5 (high 15); the engine's top fractal there has index 6 and time 6,
    those of bar 6, but price 15, the high of bar 5, so no bar of the input
    has both its time and its price. *)
Lemma fractal_point_not_from_one_bar_counterexample :
  ~ (exists r,
        calculateChanLun insideBars fractalSettings = Some r
        /\ Forall (takenFromExtremeBar insideBars) (fractals r)).
Proof.
  intros [r [Hr Hall]].
  assert (Hin : In (mkPoint 6 (inject_Z 15) top 6%Z true) (fractals r)).
  { vm_compute in Hr. injection Hr as <-. left. reflexivity. }
  destruct (proj1 (Forall_forall _ _) Hall _ Hin) as [k [Hk [Htime Hprice]]].
  vm_compute in Hk.
  repeat (destruct Hk as [<-|Hk];
          [vm_compute in Htime; try discriminate Htime;
           vm_compute in Hprice; discriminate Hprice|]).
  destruct Hk.
Qed.

(** C8. The analyzer's signal list holds a first-type signal for a stroke
    and the stroke two places before it exactly when the later stroke sets a
    new price extreme (a lower end for a down stroke, giving 1B; a higher
    end for an up stroke, giving 1S) and its force is strictly below 90% of
    the earlier stroke's force: every such pair puts its signal in the list,
    at the stroke's end price and time and not segment-level, and every
    first-type signal of the list comes from such a pair or from a pair of
    segments, which follow the identical rule with 80% and are tagged
    segment-level.  The 90% and 80% of a force are the doubles the source
    computes, [prevForce * 0.9] and [prevForce * 0.8].  At most one
    first-type signal is emitted per pair.  The force is the sum, added up in
    bar order in double arithmetic, of the absolute histogram values over
    the swing's bar index range, and inside the engine (with MACD periods
    other than -1, where the source's smoothing factor is infinite) every
    stroke and segment is in the range of the MACD series. *)
Theorem first_type_divergence_rule (macd : list MACDResult)
        (strokes : list ChanBi) (segments : list ChanSeg)
        (biPivots segPivots : list ChanPivot) (klines : list Kline) :
  let signals :=
    fst (fst (analyzeStructure strokes segments biPivots segPivots macd klines)) in
  (forall i curr prev,
      2 <= i -> nth_error strokes i = Some curr ->
      nth_error strokes (i - 2) = Some prev ->
      firstTypeRule (fl (9 # 10)) (bi_type curr) (bi_end curr) (bi_end prev)
                    (getBiMACD macd curr) (getBiMACD macd prev) ->
      exists s, In s signals /\ firstTypeSignal (bi_type curr) (bi_end curr) false s)
  /\ (forall i curr prev,
         2 <= i -> nth_error segments i = Some curr ->
         nth_error segments (i - 2) = Some prev ->
         firstTypeRule (fl (8 # 10)) (seg_type curr) (seg_end curr) (seg_end prev)
                       (getSegMACD macd curr) (getSegMACD macd prev) ->
         exists s, In s signals
                   /\ firstTypeSignal (seg_type curr) (seg_end curr) true s)
  /\ (forall s, In s signals -> isFirstType s ->
        (exists i curr prev,
            2 <= i /\ nth_error strokes i = Some curr
            /\ nth_error strokes (i - 2) = Some prev
            /\ firstTypeRule (fl (9 # 10)) (bi_type curr) (bi_end curr) (bi_end prev)
                             (getBiMACD macd curr) (getBiMACD macd prev)
            /\ firstTypeSignal (bi_type curr) (bi_end curr) false s)
        \/ (exists i curr prev,
               2 <= i /\ nth_error segments i = Some curr
               /\ nth_error segments (i - 2) = Some prev
               /\ firstTypeRule (fl (8 # 10)) (seg_type curr) (seg_end curr)
                                (seg_end prev)
                                (getSegMACD macd curr) (getSegMACD macd prev)
               /\ firstTypeSignal (seg_type curr) (seg_end curr) true s))
  /\ (forall curr prev : ChanBi,
         ((exists s, In s (biDivergenceAt macd curr prev))
          <-> firstTypeRule (fl (9 # 10)) (bi_type curr) (bi_end curr) (bi_end prev)
                            (getBiMACD macd curr) (getBiMACD macd prev))
         /\ (forall s, In s (biDivergenceAt macd curr prev) ->
               biDivergenceAt macd curr prev = [s]
               /\ firstTypeSignal (bi_type curr) (bi_end curr) false s))
  /\ (forall curr prev : ChanSeg,
         ((exists s, In s (segDivergenceAt macd curr prev))
          <-> firstTypeRule (fl (8 # 10)) (seg_type curr) (seg_end curr) (seg_end prev)
                            (getSegMACD macd curr) (getSegMACD macd prev))
         /\ (forall s, In s (segDivergenceAt macd curr prev) ->
               segDivergenceAt macd curr prev = [s]
               /\ firstTypeSignal (seg_type curr) (seg_end curr) true s))
  /\ (forall i curr prev breakout s,
         nth_error strokes i = Some curr ->
         nth_error strokes (i - 2) = Some prev ->
         nth_error strokes (i - 1) = Some breakout ->
         (In s (biSignalsAt macd biPivots strokes i) /\ isFirstType s
          <-> In s (biDivergenceAt macd curr prev)))
  /\ (forall i curr prev,
         nth_error segments i = Some curr ->
         nth_error segments (i - 2) = Some prev ->
         segSignalsAt macd segments i = segDivergenceAt macd curr prev)
  /\ (forall startIndex endIndex,
         endIndex < length macd ->
         getRangeMACD macd startIndex endIndex
         = sumAbsHist (barRange macd startIndex endIndex))
  /\ (forall bars settings,
         let series := calculateMACD bars (macdFast settings) (macdSlow settings)
                                     (macdSignal settings) in
         finitePeriods settings ->
         exists r,
           calculateChanLun bars settings = Some r
           /\ (forall b, In b (biList r) ->
                 getBiMACD series b
                 = sumAbsHist (barRange series (p_index (bi_start b))
                                        (p_index (bi_end b))))
           /\ (forall s, In s (segList r) ->
                 getSegMACD series s
                 = sumAbsHist (barRange series (p_index (seg_start s))
                                        (p_index (seg_end s))))
           /\ exists pivotsOfStrokes,
                generatePivotsFromBi (biList r) = Some pivotsOfStrokes
                /\ buySellPoints r
                   = signalsOf series pivotsOfStrokes (biList r) (segList r)).
Proof.
  intro signals.
  assert (Hsig : signals = signalsOf macd biPivots strokes segments) by reflexivity.
  assert (Hbi : forall curr prev s,
             In s (biDivergenceAt macd curr prev) ->
             biDivergenceAt macd curr prev = [s]
             /\ firstTypeSignal (bi_type curr) (bi_end curr) false s).
  { intros curr prev s Hs.
    destruct (proj2 (divergenceSignal_spec _ _ _ _ _ _ _ _ _) s Hs)
      as [H1 [H2 [H3 [H4 H5]]]].
    split; [exact H1|]. unfold firstTypeSignal. auto. }
  assert (Hseg : forall curr prev s,
             In s (segDivergenceAt macd curr prev) ->
             segDivergenceAt macd curr prev = [s]
             /\ firstTypeSignal (seg_type curr) (seg_end curr) true s).
  { intros curr prev s Hs.
    destruct (proj2 (divergenceSignal_spec _ _ _ _ _ _ _ _ _) s Hs)
      as [H1 [H2 [H3 [H4 H5]]]].
    split; [exact H1|]. unfold firstTypeSignal. auto. }
  assert (HbiR : forall curr prev,
             (exists s, In s (biDivergenceAt macd curr prev))
             <-> firstTypeRule (fl (9 # 10)) (bi_type curr) (bi_end curr) (bi_end prev)
                               (getBiMACD macd curr) (getBiMACD macd prev)).
  { intros curr prev. unfold biDivergenceAt, firstTypeRule.
    exact (proj1 (divergenceSignal_spec _ _ _ _ _ _ _ _ _)). }
  assert (HsegR : forall curr prev,
             (exists s, In s (segDivergenceAt macd curr prev))
             <-> firstTypeRule (fl (8 # 10)) (seg_type curr) (seg_end curr)
                               (seg_end prev)
                               (getSegMACD macd curr) (getSegMACD macd prev)).
  { intros curr prev. unfold segDivergenceAt, firstTypeRule.
    exact (proj1 (divergenceSignal_spec _ _ _ _ _ _ _ _ _)). }
  split; [|split; [|split; [|split; [|split; [|split; [|split; [|split]]]]]]].
  - (* a stroke pair under the rule emits *)
    intros i curr prev Hi Hc Hp Hrule.
    destruct (proj2 (HbiR curr prev) Hrule) as [s Hs].
    exists s. split; [|exact (proj2 (Hbi curr prev s Hs))].
    rewrite Hsig. apply signalsOf_in. left. exists i.
    assert (Hlen : i < length strokes) by (apply nth_error_Some; congruence).
    split; [lia|].
    destruct (nth_error strokes (i - 1)) as [breakout|] eqn:Eb;
      [|apply nth_error_None in Eb; lia].
    exact (proj1 (proj2 (biSignalsAt_first_type macd biPivots strokes i curr prev
                           breakout s Hc Hp Eb) Hs)).
  - (* a segment pair under the rule emits *)
    intros i curr prev Hi Hc Hp Hrule.
    destruct (proj2 (HsegR curr prev) Hrule) as [s Hs].
    exists s. split; [|exact (proj2 (Hseg curr prev s Hs))].
    rewrite Hsig. apply signalsOf_in. right. exists i.
    assert (Hlen : i < length segments) by (apply nth_error_Some; congruence).
    split; [lia|]. unfold segSignalsAt. rewrite Hc, Hp. exact Hs.
  - (* every first-type signal comes from a pair under the rule *)
    intros s Hin Hfirst. rewrite Hsig in Hin. apply signalsOf_in in Hin.
    destruct Hin as [[i [Hi Hs]]|[i [Hi Hs]]]; [left|right].
    + destruct (nth_error strokes i) as [curr|] eqn:Ec;
        [|apply nth_error_None in Ec; lia].
      destruct (nth_error strokes (i - 2)) as [prev|] eqn:Ep;
        [|apply nth_error_None in Ep; lia].
      destruct (nth_error strokes (i - 1)) as [breakout|] eqn:Eb;
        [|apply nth_error_None in Eb; lia].
      pose proof (proj1 (biSignalsAt_first_type macd biPivots strokes i curr prev
                           breakout s Ec Ep Eb) (conj Hs Hfirst)) as Hd.
      exists i, curr, prev. split; [lia|]. split; [exact Ec|].
      split; [exact Ep|]. split; [|exact (proj2 (Hbi curr prev s Hd))].
      apply (proj1 (HbiR curr prev)). exists s. exact Hd.
    + unfold segSignalsAt in Hs.
      destruct (nth_error segments i) as [curr|] eqn:Ec; [|destruct Hs].
      destruct (nth_error segments (i - 2)) as [prev|] eqn:Ep; [|destruct Hs].
      exists i, curr, prev. split; [lia|]. split; [exact Ec|].
      split; [exact Ep|]. split; [|exact (proj2 (Hseg curr prev s Hs))].
      apply (proj1 (HsegR curr prev)). exists s. exact Hs.
  - intros curr prev. split; [exact (HbiR curr prev)|exact (Hbi curr prev)].
  - intros curr prev. split; [exact (HsegR curr prev)|exact (Hseg curr prev)].
  - intros i curr prev breakout s Hc Hp Hb.
    exact (biSignalsAt_first_type macd biPivots strokes i curr prev breakout s Hc Hp Hb).
  - intros i curr prev Hc Hp. unfold segSignalsAt. rewrite Hc, Hp. reflexivity.
  - intros startIndex endIndex H. exact (getRangeMACD_sum macd startIndex endIndex H).
  - intros bars settings series _. exact (calculateChanLun_forces bars settings).
Qed.

(** C9. A bar list shorter than 10 bars gives the canonical empty result,
    and not an error: no merged bars, fractals, strokes, segments, pivots or
    signals, trend consolidation, divergence inactive. *)
Theorem short_input_gives_empty_result (klines : list Kline)
        (settings : AppSettings) :
  length klines < 10 ->
  calculateChanLun klines settings = Some emptyResult
  /\ f_klines emptyResult = [] /\ fractals emptyResult = []
  /\ biList emptyResult = [] /\ segList emptyResult = []
  /\ pivots emptyResult = [] /\ buySellPoints emptyResult = []
  /\ trend emptyResult = consolidation
  /\ isDivergent (divergence emptyResult) = false.
Proof.
  intro H. unfold calculateChanLun.
  destruct (Nat.ltb_spec (length klines) 10) as [_|L]; [|lia].
  repeat split; reflexivity.
Qed.

(** C10. For a non-empty input of [n] bars the original-index spans of the
    merged bars partition [0 .. n-1]: the first span starts at 0, the last
    ends at [n - 1], every span has start <= end, and each span starts one
    past the end of the previous one. *)
Theorem merged_spans_partition_input (klines : list Kline) :
  klines <> [] ->
  let merged := processInclusionStrict klines in
  (exists first, nth_error merged 0 = Some first /\ originalStartIndex first = 0)
  /\ (exists last, nth_error merged (length merged - 1) = Some last
                   /\ originalEndIndex last = length klines - 1)
  /\ (forall m, In m merged -> originalStartIndex m <= originalEndIndex m)
  /\ (forall i a b, nth_error merged i = Some a -> nth_error merged (S i) = Some b ->
                    originalStartIndex b = originalEndIndex a + 1).
Proof.
  intros Hne merged. destruct klines as [|k0 rest]; [congruence|].
  destruct (processInclusionStrict_spans k0 rest) as [x [older [Hrev [Hend Hc]]]].
  fold merged in Hrev.
  assert (Hm : merged = rev (x :: older)) by (rewrite <- Hrev, rev_involutive; reflexivity).
  repeat split.
  - destruct (spanChain_oldest _ _ Hc) as [first [Hf H0]].
    exists first. split; [|exact H0]. rewrite Hm.
    destruct (rev (x :: older)); [discriminate|exact Hf].
  - exists x. split; [|lia]. rewrite Hm, nth_error_rev, length_rev.
    simpl length.
    destruct (Nat.ltb_spec (S (length older) - 1) (S (length older))) as [_|L]; [|lia].
    replace (S (length older) - S (S (length older) - 1)) with 0 by lia. reflexivity.
  - intros m Hin. rewrite Hm in Hin. apply in_rev in Hin.
    exact (proj1 (Forall_forall _ _) (spanChain_nonempty _ Hc) m Hin).
  - intros i a b Ha Hb. rewrite Hm in Ha, Hb.
    destruct (rev_neighbours _ _ _ _ _ Ha Hb) as [j [Ha' Hb']].
    rewrite (spanChain_nth _ _ _ _ Hc Ha' Hb'). lia.
Qed.

(* ------------------------------------------------------------------ *)
(** ** The theorems at concrete inputs *)

(** The first two merged bars of [peakBars] are not in containment. *)
Lemma merged_bars_never_contained_witness :
  exists a b,
    nth_error (processInclusionStrict peakBars) 0 = Some a
    /\ nth_error (processInclusionStrict peakBars) 1 = Some b
    /\ containment a b = false.
Proof.
  eexists. eexists.
  split; [vm_compute; reflexivity|]. split; [vm_compute; reflexivity|].
  apply (merged_bars_never_contained peakBars 0); vm_compute; reflexivity.
Defined.

(** The six bars of [peakBars] merge into five spans covering 0 .. 5. *)
Lemma merged_spans_partition_input_witness :
  peakBars <> []
  /\ (exists first,
         nth_error (processInclusionStrict peakBars) 0 = Some first
         /\ originalStartIndex first = 0).
Proof.
  assert (H : peakBars <> []) by (vm_compute; discriminate).
  split; [exact H|].
  exact (proj1 (merged_spans_partition_input peakBars H)).
Defined.

(** The merged bar at position 5 of [insideBars], made of bars 5 and 6, is a
    top fractal. *)
Lemma fractal_detector_strict_extrema_witness :
  exists p,
    fractalAt (processInclusionStrict insideBars) 5 = Some p /\ p_type p = top.
Proof.
  edestruct (fractal_detector_strict_extrema insideBars 4) as [_ [Htop _]];
    [vm_compute; reflexivity|vm_compute; reflexivity|vm_compute; reflexivity|].
  apply Htop. vm_compute. split; reflexivity.
Defined.

(** Nine bars give the empty result. *)
Lemma short_input_gives_empty_result_witness :
  length nineBars < 10
  /\ calculateChanLun nineBars fractalSettings = Some emptyResult.
Proof.
  assert (H : length nineBars < 10) by (vm_compute; lia).
  split; [exact H|].
  exact (proj1 (short_input_gives_empty_result nineBars fractalSettings H)).
Defined.

(* ------------------------------------------------------------------ *)
(** * Further lemmas *)

(* ------------------------------------------------------------------ *)
(** ** Inputs without containment *)

Lemma inclusionLoop_no_containment rest : forall i prev older d,
  neighbours (fun a b => barsContained a b = false) (prev :: rest) ->
  exists d',
    inclusionLoop (S i) rest (mkMergedKline prev i i [prev] :: older, d)
    = (rev (wrapFrom (S i) rest) ++ mkMergedKline prev i i [prev] :: older, d').
Proof.
  induction rest as [|k rest IH]; intros i prev older d H.
  - exists d. reflexivity.
  - destruct H as [Hc H]. simpl inclusionLoop.
    unfold inclusionStep, isNextInLast, isLastInNext, m_high, m_low. simpl bar.
    unfold barsContained in Hc. rewrite Hc.
    match goal with
    | |- context [inclusionLoop _ _ (_, ?d0)] =>
        destruct (IH (S i) k (mkMergedKline prev i i [prev] :: older) d0 H) as [d' Hd]
    end.
    exists d'. rewrite Hd. simpl wrapFrom. simpl rev.
    rewrite <- app_assoc. reflexivity.
Qed.

Lemma processInclusionStrict_no_containment klines :
  neighbours (fun a b => barsContained a b = false) klines ->
  processInclusionStrict klines = wrapFrom 0 klines.
Proof.
  destruct klines as [|k0 rest]; intro H; [reflexivity|].
  simpl processInclusionStrict.
  destruct (inclusionLoop_no_containment rest 0 k0 [] 0%Z H) as [d' Hd].
  rewrite Hd. simpl. rewrite rev_app_distr, rev_involutive. reflexivity.
Qed.

Lemma neighbours_impl (A : Type) (R R' : A -> A -> Prop) (l : list A) :
  (forall a b, R a b -> R' a b) -> neighbours R l -> neighbours R' l.
Proof.
  intro HR. induction l as [|a tl IH]; [auto|].
  destruct tl as [|b rest]; [auto|].
  intros [Hab H]. split; [exact (HR a b Hab)|exact (IH H)].
Qed.

Lemma risesTo_not_contained a b : risesTo a b -> barsContained a b = false.
Proof.
  intros [H1 H2]. unfold barsContained.
  apply orb_false_iff. split; apply andb_false_iff.
  - left. apply Qle_bool_false. exact H1.
  - right. apply Qle_bool_false. exact H2.
Qed.

Lemma fallsTo_not_contained a b : fallsTo a b -> barsContained a b = false.
Proof.
  intros [H1 H2]. unfold barsContained.
  apply orb_false_iff. split; apply andb_false_iff.
  - right. apply Qle_bool_false. exact H2.
  - left. apply Qle_bool_false. exact H1.
Qed.

Lemma identifyFractals_rising rest : forall i,
  neighbours risesTo rest -> identifyFractals (wrapFrom i rest) = [].
Proof.
  induction rest as [|a tl IH]; intros i H; [reflexivity|].
  destruct tl as [|b [|c rest]]; [reflexivity|reflexivity|].
  destruct H as [[Hab1 Hab2] H]. pose proof H as [[Hbc1 Hbc2] _].
  change (identifyFractals (wrapFrom i (a :: b :: c :: rest)))
    with (pushed (fractalOf (mkMergedKline a i i [a])
                            (mkMergedKline b (S i) (S i) [b])
                            (mkMergedKline c (S (S i)) (S (S i)) [c]))
          ++ identifyFractals (wrapFrom (S i) (b :: c :: rest))).
  rewrite (IH (S i) H). unfold fractalOf, m_high, m_low. simpl.
  assert (E1 : Qlt_bool (k_high c) (k_high b) = false) by (apply Qlt_bool_false; lra).
  assert (E2 : Qlt_bool (k_low b) (k_low a) = false) by (apply Qlt_bool_false; lra).
  rewrite E1, E2, andb_false_r. reflexivity.
Qed.

Lemma identifyFractals_falling rest : forall i,
  neighbours fallsTo rest -> identifyFractals (wrapFrom i rest) = [].
Proof.
  induction rest as [|a tl IH]; intros i H; [reflexivity|].
  destruct tl as [|b [|c rest]]; [reflexivity|reflexivity|].
  destruct H as [[Hab1 Hab2] H]. pose proof H as [[Hbc1 Hbc2] _].
  change (identifyFractals (wrapFrom i (a :: b :: c :: rest)))
    with (pushed (fractalOf (mkMergedKline a i i [a])
                            (mkMergedKline b (S i) (S i) [b])
                            (mkMergedKline c (S (S i)) (S (S i)) [c]))
          ++ identifyFractals (wrapFrom (S i) (b :: c :: rest))).
  rewrite (IH (S i) H). unfold fractalOf, m_high, m_low. simpl.
  assert (E1 : Qlt_bool (k_high a) (k_high b) = false) by (apply Qlt_bool_false; lra).
  assert (E2 : Qlt_bool (k_low b) (k_low c) = false) by (apply Qlt_bool_false; lra).
  rewrite E1, E2, andb_false_r. reflexivity.
Qed.

(** Without fractals the engine finds nothing. *)
Lemma calculateChanLun_without_fractals klines settings :
  identifyFractals (processInclusionStrict klines) = [] ->
  exists r, calculateChanLun klines settings = Some r /\ noStructure r.
Proof.
  intro H. unfold calculateChanLun.
  destruct (length klines <? 10).
  - exists emptyResult. split; [reflexivity|]. repeat split.
  - rewrite H. eexists. split; [reflexivity|]. repeat split.
Qed.

(* ------------------------------------------------------------------ *)
(** ** The run of the segment loop *)

Lemma segmentLoop_run biList : forall fuel startBiIndex type segments,
  startBiIndex < length biList ->
  segmentLoop fuel biList startBiIndex type startBiIndex = Some segments ->
  segmentRun biList startBiIndex type segments.
Proof.
  induction fuel as [|fuel IH]; intros start type segments Hs H; [discriminate|].
  simpl in H.
  destruct (Nat.ltb_spec start (length biList)) as [_|L]; [|lia].
  destruct (nth_error biList start) as [first|] eqn:Hf; [|discriminate].
  simpl in H.
  destruct (checkSegmentDestruction biList start type) as [p|] eqn:Hchk.
  - destruct (nth_error biList p) as [endBi|] eqn:He; [|discriminate].
    simpl in H.
    destruct (segmentLoop fuel biList p (flipDir type) p) as [more|] eqn:Hm;
      [|discriminate].
    simpl in H. injection H as <-.
    destruct (checkSegmentDestruction_found _ _ _ _ Hchk) as [_ [Hp3 _]].
    assert (Hrun : segmentRun biList p (flipDir type) more)
      by (apply (IH p (flipDir type) more); [lia|exact Hm]).
    simpl. split; [reflexivity|]. split; [exists first; auto|].
    destruct more as [|s1 more']; [destruct Hrun|].
    exists p, endBi. rewrite Hchk. auto.
  - destruct (nth_error biList (length biList - 1)) as [lastBi|] eqn:Hl;
      [|discriminate].
    simpl in H. injection H as <-.
    simpl. split; [reflexivity|]. split; [exists first; auto|].
    rewrite Hchk. split; [reflexivity|]. split; [reflexivity|].
    exists lastBi. auto.
Qed.

Lemma generateSegmentsStrict_run biList segments b0 :
  3 <= length biList -> hd_error biList = Some b0 ->
  generateSegmentsStrict biList = Some segments ->
  segmentRun biList 0 (bi_type b0) segments.
Proof.
  intros L Hb H. unfold generateSegmentsStrict in H.
  destruct biList as [|b rest] eqn:E; [discriminate|].
  simpl in Hb. injection Hb as ->. rewrite <- E in *.
  destruct (Nat.ltb_spec (length biList) 3) as [L'|_]; [lia|].
  apply (segmentLoop_run biList (2 * length biList + 2) 0 (bi_type b0) segments);
    [lia|exact H].
Qed.

Lemma segmentRun_alternates biList : forall segments startBiIndex type,
  segmentRun biList startBiIndex type segments ->
  segmentsAlternateFrom type segments.
Proof.
  induction segments as [|s more IH]; intros start type H; [exact I|].
  destruct H as [Ht [_ H]]. split; [exact Ht|].
  destruct more as [|s1 more']; [exact I|].
  destruct H as [p [endBi [_ [_ [_ [_ H]]]]]]. exact (IH p (flipDir type) H).
Qed.

Lemma segmentRun_spans biList : forall segments startBiIndex type,
  startBiIndex < length biList ->
  segmentRun biList startBiIndex type segments ->
  Forall segmentSpansOwned segments.
Proof.
  induction segments as [|s more IH]; intros start type Hs H; [constructor|].
  destruct H as [_ [[first [Hf Hst]] H]].
  destruct more as [|s1 more'].
  - destruct H as [_ [Hown [lastBi [Hl Hend]]]].
    constructor; [|constructor].
    exists first, lastBi. rewrite Hown. unfold sliceFrom.
    rewrite hd_error_skipn, nth_error_skipn, length_skipn.
    replace (start + (length biList - start - 1)) with (length biList - 1) by lia.
    auto.
  - destruct H as [p [endBi [Hchk [Hp [Hend [Hown H]]]]]].
    destruct (checkSegmentDestruction_found _ _ _ _ Hchk) as [Hsp [Hp3 _]].
    constructor; [|apply (IH p (flipDir type)); [lia|exact H]].
    exists first, endBi. rewrite Hown.
    rewrite slice_length by lia.
    assert (H0 : hd_error (slice biList start (p + 1)) = nth_error (slice biList start (p + 1)) 0)
      by (destruct (slice biList start (p + 1)); reflexivity).
    rewrite H0, !slice_nth by lia.
    replace (start + 0) with start by lia.
    replace (start + (p + 1 - start - 1)) with p by lia. auto.
Qed.

(* ------------------------------------------------------------------ *)
(** ** Strokes: end point types and order *)

Lemma alternationFilter_alternates fractals :
  strictlyAlternates (alternationFilter fractals).
Proof.
  destruct fractals as [|f0 rest]; [intros [|i] a b Ha; discriminate|].
  unfold alternationFilter.
  destruct (alternationFold_inv rest [f0] [[f0]]) as [runs [_ [Hc _]]].
  - discriminate.
  - exact I.
  - constructor; [|constructor]. split; [left; reflexivity|].
    intros q [<-|[]]. split; [reflexivity|apply atLeastAsExtreme_refl].
  - intros i a b Ha Hb.
    destruct (rev_neighbours _ _ _ _ _ Ha Hb) as [j [Ha' Hb']].
    exact (altChain_nth _ _ _ _ Hc Ha' Hb').
Qed.

Lemma strictlyAlternates_tail p rest :
  strictlyAlternates (p :: rest) -> strictlyAlternates rest.
Proof. intros H i a b Ha Hb. exact (H (S i) a b Ha Hb). Qed.

Lemma validBiLoop_joins klines settings rawPoints :
  strictlyAlternates rawPoints ->
  Forall biJoinsOppositeTypes (validBiLoop klines settings rawPoints).
Proof.
  induction rawPoints as [|s tl IH]; intro H; [constructor|].
  destruct tl as [|e rest]; [constructor|].
  change (validBiLoop klines settings (s :: e :: rest))
    with ((if biIsValid settings (kCount klines s e) then [biOf s e] else [])
          ++ validBiLoop klines settings (e :: rest)).
  apply Forall_app. split; [|exact (IH (strictlyAlternates_tail _ _ H))].
  destruct (biIsValid _ _); constructor; [|constructor].
  pose proof (H 0 s e eq_refl eq_refl) as Hne.
  unfold biJoinsOppositeTypes, biOf. simpl.
  destruct (p_type s), (p_type e); simpl; auto; congruence.
Qed.

Lemma validBiLoop_fractal_mode klines settings rawPoints :
  biType settings = bi_fractal ->
  validBiLoop klines settings rawPoints
  = map (fun se => biOf (fst se) (snd se)) (adjacentPairs rawPoints).
Proof.
  intro Hm. rewrite validBiLoop_filter. f_equal.
  apply forallb_filter_id. apply forallb_forall. intros x _.
  unfold biIsValid. rewrite Hm. reflexivity.
Qed.

Lemma adjacent_strokes_connected rawPoints :
  neighbours (fun a b => bi_end a = bi_start b)
             (map (fun se => biOf (fst se) (snd se)) (adjacentPairs rawPoints)).
Proof.
  induction rawPoints as [|s tl IH]; [exact I|].
  destruct tl as [|e [|e' rest]]; [exact I|exact I|].
  split; [reflexivity|exact IH].
Qed.

Lemma adjacentPairs_length (A : Type) (l : list A) :
  length (adjacentPairs l) = length l - 1.
Proof.
  unfold adjacentPairs. rewrite length_combine.
  destruct l as [|a rest]; [reflexivity|].
  cbn [tl length]. rewrite Nat.min_r by lia. lia.
Qed.

Lemma StronglySorted_of_nth (A : Type) (R : A -> A -> Prop) (l : list A) :
  (forall i j a b, i < j -> nth_error l i = Some a -> nth_error l j = Some b -> R a b) ->
  StronglySorted R l.
Proof.
  induction l as [|x l IH]; intro H; constructor.
  - apply IH. intros i j a b Hij Ha Hb. apply (H (S i) (S j) a b); [lia|exact Ha|exact Hb].
  - apply Forall_forall. intros y Hy. apply In_nth_error in Hy. destruct Hy as [n Hn].
    apply (H 0 (S n) x y); [lia|reflexivity|exact Hn].
Qed.

Lemma merged_ends_sorted klines :
  StronglySorted (fun a b => originalEndIndex a < originalEndIndex b)
                 (processInclusionStrict klines).
Proof.
  apply StronglySorted_of_nth. intros i j a b Hij Ha Hb.
  pose proof (spans_ordered klines (j - i - 1) i a b Ha) as H.
  replace (i + S (j - i - 1)) with j in H by lia. specialize (H Hb).
  pose proof (processInclusionStrict_span_nonempty klines b (nth_error_In _ _ Hb)).
  lia.
Qed.

Lemma identifyFractals_from_tail l : forall a p,
  In p (identifyFractals (a :: l)) ->
  exists m, In m l /\ p_index p = originalEndIndex m.
Proof.
  induction l as [|curr tl IH]; intros a p H; [destruct H|].
  destruct tl as [|next rest]; [destruct H|].
  change (identifyFractals (a :: curr :: next :: rest))
    with (pushed (fractalOf a curr next) ++ identifyFractals (curr :: next :: rest)) in H.
  apply in_app_or in H. destruct H as [H|H].
  - destruct (fractalOf a curr next) as [q|] eqn:E; [|destruct H].
    destruct H as [<-|[]]. exists curr. split; [left; reflexivity|].
    apply (fractalOf_fields _ _ _ _ E).
  - destruct (IH curr p H) as [m [Hm Hi]]. exists m. split; [right; exact Hm|exact Hi].
Qed.

Lemma identifyFractals_sorted l :
  StronglySorted (fun a b => originalEndIndex a < originalEndIndex b) l ->
  StronglySorted lt (map p_index (identifyFractals l)).
Proof.
  induction l as [|prev tl IH]; intro H; [constructor|].
  destruct tl as [|curr [|next rest]]; [constructor|constructor|].
  change (identifyFractals (prev :: curr :: next :: rest))
    with (pushed (fractalOf prev curr next) ++ identifyFractals (curr :: next :: rest)).
  apply StronglySorted_inv in H. destruct H as [H _].
  specialize (IH H).
  destruct (fractalOf prev curr next) as [q|] eqn:E; cbn [pushed app map]; [|exact IH].
  constructor; [exact IH|].
  apply Forall_forall. intros n Hn. apply in_map_iff in Hn.
  destruct Hn as [p [<- Hp]].
  destruct (identifyFractals_from_tail _ _ _ Hp) as [m [Hm Hi]].
  apply StronglySorted_inv in H. destruct H as [_ Hall].
  rewrite (proj2 (proj2 (fractalOf_fields _ _ _ _ E))), Hi.
  exact (proj1 (Forall_forall _ _) Hall m Hm).
Qed.

Lemma validBiLoop_forward klines settings rawPoints :
  StronglySorted lt (map p_index rawPoints) ->
  Forall biForward (validBiLoop klines settings rawPoints)
  /\ StronglySorted biBefore (validBiLoop klines settings rawPoints).
Proof.
  induction rawPoints as [|s tl IH]; intro H; [split; constructor|].
  destruct tl as [|e rest]; [split; constructor|].
  change (validBiLoop klines settings (s :: e :: rest))
    with ((if biIsValid settings (kCount klines s e) then [biOf s e] else [])
          ++ validBiLoop klines settings (e :: rest)).
  simpl map in H. apply StronglySorted_inv in H. destruct H as [H Hs].
  destruct (IH H) as [IHf IHs].
  pose proof (Forall_inv Hs) as Hse.
  destruct (biIsValid _ _); cbn [app]; [|split; assumption].
  split; [constructor; [exact Hse|exact IHf]|].
  constructor; [exact IHs|].
  apply Forall_forall. intros b Hb.
  destruct (validBiLoop_points klines settings (e :: rest) b Hb) as [Hin _].
  unfold biBefore. cbn [biOf bi_end].
  destruct Hin as [<-|Hin]; [lia|].
  apply StronglySorted_inv in H. destruct H as [_ He].
  pose proof (proj1 (Forall_forall _ _) He (p_index (bi_start b))
                    (in_map _ _ _ Hin)). lia.
Qed.

Lemma biBefore_positions strokes : forall i j a b,
  Forall biForward strokes -> StronglySorted biBefore strokes ->
  i <= j -> nth_error strokes i = Some a -> nth_error strokes j = Some b ->
  p_index (bi_start a) < p_index (bi_end b).
Proof.
  induction strokes as [|x l IH]; intros i j a b Hf Hs Hij Ha Hb;
    [destruct i; discriminate|].
  apply StronglySorted_inv in Hs. destruct Hs as [Hs Hx].
  destruct i as [|i].
  - simpl in Ha. injection Ha as <-. pose proof (Forall_inv Hf) as Hfx.
    destruct j as [|j].
    + simpl in Hb. injection Hb as <-. exact Hfx.
    + simpl in Hb. pose proof (nth_error_In _ _ Hb) as Hin.
      pose proof (proj1 (Forall_forall _ _) Hx b Hin) as Hxb.
      pose proof (proj1 (Forall_forall _ _) (Forall_inv_tail Hf) b Hin) as Hfb.
      unfold biForward, biBefore in *. lia.
  - destruct j as [|j]; [lia|].
    apply (IH i j a b (Forall_inv_tail Hf) Hs); [lia|exact Ha|exact Hb].
Qed.

Lemma segmentRun_forward biList : forall segments startBiIndex type,
  Forall biForward biList -> StronglySorted biBefore biList ->
  startBiIndex < length biList ->
  segmentRun biList startBiIndex type segments ->
  Forall segForward segments.
Proof.
  induction segments as [|s more IH]; intros start type Hf Hs Hlt H; [constructor|].
  destruct H as [_ [[first [Hfirst Hst]] H]].
  destruct more as [|s1 more'].
  - destruct H as [_ [_ [lastBi [Hl Hend]]]]. constructor; [|constructor].
    unfold segForward. rewrite Hst, Hend.
    apply (biBefore_positions biList start (length biList - 1) first lastBi);
      try assumption; lia.
  - destruct H as [p [endBi [Hchk [Hp [Hend [_ H]]]]]].
    destruct (checkSegmentDestruction_found _ _ _ _ Hchk) as [Hsp [Hp3 _]].
    constructor; [|apply (IH p (flipDir type)); try assumption; lia].
    unfold segForward. rewrite Hst, Hend.
    apply (biBefore_positions biList start p first endBi); assumption.
Qed.

Lemma generateSegmentsStrict_cases biList segments :
  generateSegmentsStrict biList = Some segments ->
  (length biList < 3 /\ segments = [])
  \/ (3 <= length biList
      /\ exists b0, hd_error biList = Some b0
                    /\ segmentRun biList 0 (bi_type b0) segments).
Proof.
  intro H. pose proof H as H'. unfold generateSegmentsStrict in H.
  destruct biList as [|b0 rest] eqn:E.
  - injection H as <-. left. simpl. split; [lia|reflexivity].
  - rewrite <- E in *.
    destruct (Nat.ltb_spec (length biList) 3) as [L|L].
    + injection H as <-. left. auto.
    + right. split; [exact L|]. exists b0. split; [rewrite E; reflexivity|].
      apply generateSegmentsStrict_run; [exact L|rewrite E; reflexivity|exact H'].
Qed.

Lemma segmentRun_terminated biList : forall segments startBiIndex type init final,
  startBiIndex < length biList ->
  segmentRun biList startBiIndex type segments ->
  segments = init ++ [final] ->
  Forall endsOnOwnDirection init
  /\ exists q, seg_biList final = sliceFrom biList q
               /\ (init <> [] -> q + 3 < length biList).
Proof.
  induction segments as [|s more IH]; intros start type init final Hlt H E;
    [destruct init; discriminate|].
  destruct H as [Ht [_ H]].
  destruct init as [|s' init'].
  - simpl in E. injection E as E1 E2. subst s more.
    destruct H as [_ [Hown _]].
    split; [constructor|]. exists start. split; [exact Hown|congruence].
  - simpl in E. injection E as E1 E2. subst s' more.
    destruct (init' ++ [final]) as [|s1 more'] eqn:Em; [destruct init'; discriminate|].
    destruct H as [p [endBi [Hchk [Hp [_ [Hown H]]]]]].
    destruct (checkSegmentDestruction_found _ _ _ _ Hchk) as [Hsp [Hp3 [b [Hb Hbt]]]].
    assert (b = endBi) by congruence. subst b.
    destruct (IH p (flipDir type) init' final) as [Hinit [q [Hq Hq3]]];
      [lia|exact H|symmetry; exact Em|].
    split.
    + constructor; [|exact Hinit].
      exists endBi. rewrite Hown, slice_length, slice_nth by lia.
      replace (start + (p + 1 - start - 1)) with p by lia.
      split; [exact Hp|congruence].
    + destruct init' as [|s2 init''].
      * simpl in Em. injection Em as E1 E2. subst s1 more'.
        destruct H as [_ [_ [_ [Hown' _]]]].
        exists p. split; [exact Hown'|]. intros _. exact Hp3.
      * exists q. split; [exact Hq|]. intros _. apply Hq3. discriminate.
Qed.

Lemma identifyFractals_bar klines : forall p,
  In p (identifyFractals klines) ->
  exists curr, In curr klines
               /\ p_index p = originalEndIndex curr /\ p_time p = m_time curr.
Proof.
  induction klines as [|prev tl IH]; intros p H; [destruct H|].
  destruct tl as [|curr [|next rest]]; try destruct H.
  change (identifyFractals (prev :: curr :: next :: rest))
    with (pushed (fractalOf prev curr next) ++ identifyFractals (curr :: next :: rest)) in H.
  apply in_app_or in H. destruct H as [H|H].
  - destruct (fractalOf prev curr next) as [q|] eqn:E; [|destruct H].
    destruct H as [<-|[]]. exists curr. split; [right; left; reflexivity|].
    destruct (fractalOf_fields _ _ _ _ E) as [Ht [_ Hi]]. auto.
  - destruct (IH p H) as [c [Hc Hi]]. exists c. split; [right; exact Hc|exact Hi].
Qed.

Lemma engine_fractal_on_bar klines p :
  In p (identifyFractals (processInclusionStrict klines)) -> pointOnBar klines p.
Proof.
  intro H. destruct (identifyFractals_bar _ _ H) as [curr [Hc [Hi Ht]]].
  destruct (processInclusionStrict_mapped klines curr Hc) as [k [Hk Hkt]].
  exists k. rewrite Hi, Ht. auto.
Qed.

Lemma engine_strokes_from_fractals klines settings b :
  let merged := processInclusionStrict klines in
  In b (generateBi (identifyFractals merged) merged settings) ->
  In (bi_start b) (identifyFractals merged) /\ In (bi_end b) (identifyFractals merged).
Proof.
  intros merged H. rewrite generateBi_is_validBi in H.
  unfold merged in H. rewrite engine_alternation_filter_identity in H.
  exact (validBiLoop_points _ _ _ _ H).
Qed.

Lemma engine_strokes_forward klines settings :
  let merged := processInclusionStrict klines in
  Forall biForward (generateBi (identifyFractals merged) merged settings)
  /\ StronglySorted biBefore (generateBi (identifyFractals merged) merged settings).
Proof.
  intro merged. rewrite generateBi_is_validBi.
  unfold merged. rewrite engine_alternation_filter_identity.
  apply validBiLoop_forward, identifyFractals_sorted, merged_ends_sorted.
Qed.

(* ------------------------------------------------------------------ *)
(** ** Pivot loop: ranges and bands *)

Lemma extendPivot_spec rest : forall j zg zd e g d e' g' d',
  extendPivot rest j zg zd e g d = (e', g', d') ->
  e + 1 = j ->
  exists n,
    n <= length rest /\ e' + 1 = j + n
    /\ (forall t b, t < n -> nth_error rest t = Some b ->
          swingOverlapsBand b zg zd /\ (biHigh b <= g')%Q /\ (d' <= biLow b)%Q)
    /\ (forall b, nth_error rest n = Some b -> ~ swingOverlapsBand b zg zd)
    /\ (g <= g')%Q /\ (d' <= d)%Q
    /\ (g' = g \/ exists t b, t < n /\ nth_error rest t = Some b /\ g' = biHigh b)
    /\ (d' = d \/ exists t b, t < n /\ nth_error rest t = Some b /\ d' = biLow b).
Proof.
  induction rest as [|nextBi rest IH]; intros j zg zd e g d e' g' d' H He.
  - simpl in H. injection H as <- <- <-. exists 0.
    split; [simpl; lia|]. split; [lia|].
    split; [intros t b Ht; lia|].
    split; [intros b Hb; discriminate Hb|].
    split; [lra|]. split; [lra|]. split; left; reflexivity.
  - simpl in H.
    destruct (Qlt_bool (Math_max (biLow nextBi) zd) (Math_min (biHigh nextBi) zg)) eqn:Eo.
    + apply Qlt_bool_iff in Eo.
      destruct (IH _ _ _ _ _ _ _ _ _ H (Nat.add_1_r j))
        as [n [Hn [He' [Hin [Hout [Hg [Hd [Hga Hda]]]]]]]].
      assert (Hg0 : (g <= g' /\ biHigh nextBi <= g')%Q)
        by (split; revert Hg; qminmax; lra).
      assert (Hd0 : (d' <= d /\ d' <= biLow nextBi)%Q)
        by (split; revert Hd; qminmax; lra).
      exists (S n). simpl. split; [lia|]. split; [lia|].
      split; [|split; [exact Hout|split; [tauto|split; [tauto|split]]]].
      * intros [|t] b Ht Hb.
        -- simpl in Hb. injection Hb as <-. unfold swingOverlapsBand. tauto.
        -- apply (Hin t b); [lia|exact Hb].
      * destruct Hga as [Hga|[t [b [Ht [Hb Hga]]]]].
        -- destruct (Math_max_cases g (biHigh nextBi)) as [E|E]; rewrite E in Hga.
           ++ left. exact Hga.
           ++ right. exists 0, nextBi. split; [lia|]. split; [reflexivity|exact Hga].
        -- right. exists (S t), b. split; [lia|]. split; [exact Hb|exact Hga].
      * destruct Hda as [Hda|[t [b [Ht [Hb Hda]]]]].
        -- destruct (Math_min_cases d (biLow nextBi)) as [E|E]; rewrite E in Hda.
           ++ left. exact Hda.
           ++ right. exists 0, nextBi. split; [lia|]. split; [reflexivity|exact Hda].
        -- right. exists (S t), b. split; [lia|]. split; [exact Hb|exact Hda].
    + apply Qlt_bool_false in Eo. injection H as <- <- <-. exists 0. simpl.
      split; [lia|]. split; [lia|].
      split; [intros t b Ht; lia|].
      split; [|split; [lra|split; [lra|split; left; reflexivity]]].
      intros b Hb. injection Hb as <-. unfold swingOverlapsBand. lra.
Qed.

Lemma Math_max3_cases a b c :
  Math_max3 a b c = a \/ Math_max3 a b c = b \/ Math_max3 a b c = c.
Proof.
  unfold Math_max3.
  destruct (Math_max_cases (Math_max a b) c) as [E|E]; rewrite E; [|auto].
  destruct (Math_max_cases a b) as [E'|E']; rewrite E'; auto.
Qed.

Lemma Math_min3_cases a b c :
  Math_min3 a b c = a \/ Math_min3 a b c = b \/ Math_min3 a b c = c.
Proof.
  unfold Math_min3.
  destruct (Math_min_cases (Math_min a b) c) as [E|E]; rewrite E; [|auto].
  destruct (Math_min_cases a b) as [E'|E']; rewrite E'; auto.
Qed.

Lemma Math_max3_bounds a b c :
  (a <= Math_max3 a b c /\ b <= Math_max3 a b c /\ c <= Math_max3 a b c)%Q.
Proof. repeat split; qminmax; lra. Qed.

Lemma Math_min3_bounds a b c :
  (Math_min3 a b c <= a /\ Math_min3 a b c <= b /\ Math_min3 a b c <= c)%Q.
Proof. repeat split; qminmax; lra. Qed.

(** The pivot pushed at position [i]. *)
Lemma new_pivot_over biList i b1 b2 b3 endBi endBiIdx currentGG currentDD :
  i + 3 <= length biList ->
  nth_error biList i = Some b1 ->
  nth_error biList (i + 1) = Some b2 ->
  nth_error biList (i + 2) = Some b3 ->
  bi_type b1 <> bi_type b2 ->
  extendPivot (skipn (i + 3) biList) (i + 3)
              (Math_min3 (biHigh b1) (biHigh b2) (biHigh b3))
              (Math_max3 (biLow b1) (biLow b2) (biLow b3)) (i + 2)
              (Math_max3 (biHigh b1) (biHigh b2) (biHigh b3))
              (Math_min3 (biLow b1) (biLow b2) (biLow b3))
  = (endBiIdx, currentGG, currentDD) ->
  nth_error biList endBiIdx = Some endBi ->
  pivotOver biList
    (mkPivot i endBiIdx
             (Math_min3 (biHigh b1) (biHigh b2) (biHigh b3))
             (Math_max3 (biLow b1) (biLow b2) (biLow b3))
             currentGG currentDD neutral
             (p_time (bi_start b1)) (p_time (bi_end endBi)) level_bi).
Proof.
  intros L E1 E2 E3 Ht Ee Eend.
  destruct (extendPivot_spec _ _ _ _ _ _ _ _ _ _ Ee) as
      [n [Hn [He [Hin [Hout [Hg [Hd [Hga Hda]]]]]]]]; [lia|].
  rewrite length_skipn in Hn.
  pose proof (Math_max3_bounds (biHigh b1) (biHigh b2) (biHigh b3)) as [Hx1 [Hx2 Hx3]].
  pose proof (Math_min3_bounds (biLow b1) (biLow b2) (biLow b3)) as [Hn1 [Hn2 Hn3]].
  assert (Hrest : forall j, i + 3 <= j ->
            nth_error (skipn (i + 3) biList) (j - (i + 3)) = nth_error biList j).
  { intros j Hj. rewrite nth_error_skipn. f_equal. lia. }
  split; [|split; [|reflexivity]].
  - unfold pivotRange. simpl. split; [lia|]. split; [lia|]. split; [reflexivity|].
    exists b1, b2, b3, endBi. repeat split; assumption.
  - unfold pivotBands. simpl. split; [|split; [|split; [|split]]].
    + intros j b Hj Hb.
      destruct (Nat.lt_ge_cases j (i + 3)) as [Hlt|Hge].
      * assert (Hc : j = i \/ j = i + 1 \/ j = i + 2) by lia.
        destruct Hc as [-> | [-> | ->]];
          [assert (b = b1) by congruence
          |assert (b = b2) by congruence
          |assert (b = b3) by congruence]; subst b; split; lra.
      * rewrite <- (Hrest j Hge) in Hb.
        destruct (Hin (j - (i + 3)) b) as [_ [Hh Hl]]; [lia|exact Hb|]. tauto.
    + destruct Hga as [-> | [t [b [Ht' [Hb ->]]]]].
      * destruct (Math_max3_cases (biHigh b1) (biHigh b2) (biHigh b3)) as [E|[E|E]];
          rewrite E;
          [exists i, b1|exists (i + 1), b2|exists (i + 2), b3];
          (split; [lia|split; [assumption|reflexivity]]).
      * exists (i + 3 + t), b. split; [lia|]. split; [|reflexivity].
        rewrite <- Hb, nth_error_skipn. reflexivity.
    + destruct Hda as [-> | [t [b [Ht' [Hb ->]]]]].
      * destruct (Math_min3_cases (biLow b1) (biLow b2) (biLow b3)) as [E|[E|E]];
          rewrite E;
          [exists i, b1|exists (i + 1), b2|exists (i + 2), b3];
          (split; [lia|split; [assumption|reflexivity]]).
      * exists (i + 3 + t), b. split; [lia|]. split; [|reflexivity].
        rewrite <- Hb, nth_error_skipn. reflexivity.
    + intros j b Hj Hb. rewrite <- (Hrest j) in Hb by lia.
      destruct (Hin (j - (i + 3)) b) as [Ho _]; [lia|exact Hb|exact Ho].
    + intros b Hb. apply Hout.
      rewrite <- Hb, nth_error_skipn. f_equal. lia.
Qed.

Lemma pivotLoop_shape biList : forall fuel i pivots result,
  pivotLoop fuel biList i pivots = Some result ->
  Forall (pivotOver biList) pivots -> pivotChain pivots ->
  Forall (pivotOver biList) result /\ pivotChain (rev result).
Proof.
  induction fuel as [|fuel IH]; intros i pivots result H Hv Hc; [discriminate|].
  simpl in H.
  destruct (Nat.leb_spec (i + 3) (length biList)) as [L|L].
  - destruct (nth_error biList i) as [b1|] eqn:E1; [|discriminate].
    destruct (nth_error biList (i + 1)) as [b2|] eqn:E2; [|discriminate].
    destruct (nth_error biList (i + 2)) as [b3|] eqn:E3; [|discriminate].
    simpl in H.
    destruct (Dir_eqb (bi_type b1) (bi_type b2)) eqn:Et;
      [exact (IH _ _ _ H Hv Hc)|].
    destruct (Qlt_bool _ _) eqn:Ez; [|exact (IH _ _ _ H Hv Hc)].
    destruct (extendPivot _ _ _ _ _ _ _) as [[endBiIdx currentGG] currentDD] eqn:Ee.
    destruct (match pivots with [] => true | lastP :: _ => endBiIndex lastP <? i end)
      eqn:Eg; [|exact (IH _ _ _ H Hv Hc)].
    destruct (nth_error biList endBiIdx) as [endBi|] eqn:Eend; [|discriminate].
    simpl in H. apply (IH _ _ _ H).
    + constructor; [|exact Hv].
      apply new_pivot_over; try assumption.
      intro E. rewrite E in Et. destruct (bi_type b2); discriminate.
    + destruct pivots as [|lastP older]; [exact I|].
      apply Nat.ltb_lt in Eg. split; [exact Eg|exact Hc].
  - injection H as <-. rewrite rev_involutive. split; [apply Forall_rev, Hv|exact Hc].
Qed.

Lemma pivotChain_nth pivots : forall j p q,
  pivotChain pivots ->
  nth_error pivots (S j) = Some p -> nth_error pivots j = Some q ->
  endBiIndex p < startBiIndex q.
Proof.
  induction pivots as [|x older IH]; intros j p q Hc Hp Hq.
  - destruct j; discriminate.
  - destruct older as [|y rest]; [destruct j; discriminate|].
    destruct Hc as [Hyx Hc]. destruct j as [|j].
    + simpl in Hp, Hq. injection Hp as <-. injection Hq as <-. exact Hyx.
    + apply (IH j); assumption.
Qed.

Lemma generatePivotsFromBi_shape biList :
  exists result,
    generatePivotsFromBi biList = Some result
    /\ Forall (pivotOver biList) result
    /\ forall k p q, nth_error result k = Some p -> nth_error result (S k) = Some q ->
                     endBiIndex p < startBiIndex q.
Proof.
  destruct (generatePivotsFromBi_valid biList) as [result [H _]].
  exists result. split; [exact H|].
  unfold generatePivotsFromBi in H.
  destruct (length biList <? 3).
  - injection H as <-. split; [constructor|]. intros [|k] p q Hp; discriminate.
  - destruct (pivotLoop_shape _ _ _ _ _ H (Forall_nil _) I) as [Hv Hc].
    split; [exact Hv|]. intros k p q Hp Hq.
    rewrite <- (rev_involutive result) in Hp, Hq.
    destruct (rev_neighbours _ _ _ _ _ Hp Hq) as [j [Hp' Hq']].
    exact (pivotChain_nth _ _ _ _ Hc Hp' Hq').
Qed.

(* ------------------------------------------------------------------ *)
(** ** Sorting the pivots *)

Lemma insertByStartTime_perm p l : Permutation (p :: l) (insertByStartTime p l).
Proof.
  induction l as [|q l IH]; simpl; [apply Permutation_refl|].
  destruct (_ <=? _)%Z; [apply Permutation_refl|].
  apply perm_trans with (q :: p :: l); [apply perm_swap|].
  apply perm_skip, IH.
Qed.

Lemma sortByStartTime_perm l : Permutation l (sortByStartTime l).
Proof.
  induction l as [|p l IH]; simpl; [apply perm_nil|].
  apply perm_trans with (p :: sortByStartTime l); [apply perm_skip, IH|].
  apply insertByStartTime_perm.
Qed.

Lemma insertByStartTime_sorted p l :
  StronglySorted startsNoLater l -> StronglySorted startsNoLater (insertByStartTime p l).
Proof.
  induction l as [|q l IH]; intro H; simpl.
  - constructor; [constructor|constructor].
  - apply StronglySorted_inv in H. destruct H as [Hl Hq].
    destruct (Z.leb_spec (startTime p) (startTime q)) as [L|L].
    + constructor; [constructor; assumption|].
      constructor; [exact L|].
      apply Forall_forall. intros x Hx.
      pose proof (proj1 (Forall_forall _ _) Hq x Hx) as Hqx.
      unfold startsNoLater in *. lia.
    + constructor; [exact (IH Hl)|].
      apply Forall_forall. intros x Hx.
      apply (Permutation_in _ (Permutation_sym (insertByStartTime_perm p l))) in Hx.
      destruct Hx as [<-|Hx].
      * unfold startsNoLater. lia.
      * exact (proj1 (Forall_forall _ _) Hq x Hx).
Qed.

Lemma sortByStartTime_sorted l : StronglySorted startsNoLater (sortByStartTime l).
Proof.
  induction l as [|p l IH]; simpl; [constructor|].
  apply insertByStartTime_sorted, IH.
Qed.

(* ------------------------------------------------------------------ *)
(** ** Signals: levels and counts *)

Lemma divergenceSignal_length type currEnd prevEnd currForce prevForce threshold
      descB descS segLevel :
  length (divergenceSignal type currEnd prevEnd currForce prevForce threshold
                           descB descS segLevel) <= 1.
Proof.
  unfold divergenceSignal.
  repeat match goal with |- context [if ?c then _ else _] => destruct c end;
    simpl; lia.
Qed.

Lemma thirdTypeAt_shape biPivots i curr breakout :
  (forall s, In s (thirdTypeAt biPivots i curr breakout) ->
     isThirdType s /\ isSegmentLevel s = false)
  /\ length (thirdTypeAt biPivots i curr breakout) <= 1.
Proof.
  unfold thirdTypeAt.
  destruct (find _ biPivots) as [pivot|]; [|split; [intros s []|simpl; lia]].
  destruct (bi_type curr), (bi_type breakout); simpl;
    repeat match goal with |- context [if ?c then _ else _] => destruct c end;
    simpl; (split; [|lia]); intros s Hs;
    repeat (destruct Hs as [<-|Hs]; [unfold isThirdType; simpl; auto|]);
    destruct Hs.
Qed.



(* ------------------------------------------------------------------ *)
(** ** Prices along the fractals *)

Lemma identifyFractals_prices tl : forall prev curr,
  stepsInOrder (prev :: curr :: tl) ->
  Forall (fun m => lowBelowHigh (bar m)) (prev :: curr :: tl) ->
  firstPointBound prev curr (identifyFractals (prev :: curr :: tl))
  /\ neighbours priceTurns (identifyFractals (prev :: curr :: tl)).
Proof.
  induction tl as [|next rest IH]; intros prev curr H Hw; [split; exact I|].
  change (identifyFractals (prev :: curr :: next :: rest))
    with (pushed (fractalOf prev curr next) ++ identifyFractals (curr :: next :: rest)).
  destruct H as [S1 H]. pose proof H as [S2 _].
  pose proof (Forall_inv (Forall_inv_tail Hw)) as Hc.
  destruct (IH curr next H (Forall_inv_tail Hw)) as [Hb Hn].
  unfold lowBelowHigh in Hc. fold (m_low curr) (m_high curr) in Hc.
  destruct (fractalOf prev curr next) as [p|] eqn:E; cbn [pushed app].
  - destruct (fractalOf_turn _ _ _ _ S1 S2 E) as [Hp Hturn].
    destruct (fractalOf_fields _ _ _ _ E) as [_ [Hprice _]].
    unfold turnAfter in Hp, Hturn.
    split.
    + unfold firstPointBound.
      destruct (Qlt_bool (m_high prev) (m_high curr));
        rewrite Hp in Hprice; rewrite Hprice; split; auto; lra.
    + destruct (identifyFractals (curr :: next :: rest)) as [|q more] eqn:Eq;
        [exact I|].
      split; [|exact Hn].
      unfold firstPointBound in Hb. unfold priceTurns. rewrite Hp.
      destruct S2 as [[U1 U2]|[D1 D2]].
      * assert (E2 : Qlt_bool (m_high curr) (m_high next) = true)
          by (apply Qlt_bool_iff; exact U1).
        rewrite E2 in Hb, Hturn. destruct Hb as [_ Hq].
        destruct (Qlt_bool (m_high prev) (m_high curr)); [congruence|].
        rewrite Hp in Hprice. rewrite Hprice. lra.
      * assert (E2 : Qlt_bool (m_high curr) (m_high next) = false)
          by (apply Qlt_bool_false; lra).
        rewrite E2 in Hb, Hturn. destruct Hb as [_ Hq].
        destruct (Qlt_bool (m_high prev) (m_high curr)); [|congruence].
        rewrite Hp in Hprice. rewrite Hprice. lra.
  - pose proof (fractalOf_none_turn _ _ _ S1 S2 E) as Hsame.
    unfold turnAfter in Hsame.
    split; [|exact Hn].
    destruct (identifyFractals (curr :: next :: rest)) as [|q more]; [exact I|].
    unfold firstPointBound in *.
    destruct S2 as [[U1 U2]|[D1 D2]].
    + assert (E2 : Qlt_bool (m_high curr) (m_high next) = true)
        by (apply Qlt_bool_iff; exact U1).
      rewrite E2 in Hb, Hsame.
      destruct (Qlt_bool (m_high prev) (m_high curr)); [|discriminate].
      split; [tauto|]. destruct Hb. lra.
    + assert (E2 : Qlt_bool (m_high curr) (m_high next) = false)
        by (apply Qlt_bool_false; lra).
      rewrite E2 in Hb, Hsame.
      destruct (Qlt_bool (m_high prev) (m_high curr)); [discriminate|].
      split; [tauto|]. destruct Hb. lra.
Qed.

Lemma validBiLoop_moves klines settings rawPoints :
  neighbours priceTurns rawPoints ->
  Forall biMovesItsWay (validBiLoop klines settings rawPoints).
Proof.
  induction rawPoints as [|s tl IH]; intro H; [constructor|].
  destruct tl as [|e rest]; [constructor|].
  change (validBiLoop klines settings (s :: e :: rest))
    with ((if biIsValid settings (kCount klines s e) then [biOf s e] else [])
          ++ validBiLoop klines settings (e :: rest)).
  destruct H as [Hse H].
  apply Forall_app. split; [|exact (IH H)].
  destruct (biIsValid _ _); constructor; [|constructor].
  unfold biMovesItsWay, biOf, priceTurns in *. simpl.
  destruct (p_type s); exact Hse.
Qed.

Lemma engine_fractal_prices klines :
  Forall lowBelowHigh klines ->
  neighbours priceTurns (identifyFractals (processInclusionStrict klines)).
Proof.
  intro Hw.
  pose proof (stepsInOrder_of_nth _ (processInclusionStrict_steps klines)) as Hs.
  assert (Hm : Forall (fun m => lowBelowHigh (bar m)) (processInclusionStrict klines)).
  { destruct klines as [|k0 rest]; [constructor|].
    simpl processInclusionStrict. apply Forall_rev.
    apply inclusionLoop_lowBelowHigh; [exact (Forall_inv_tail Hw)|].
    constructor; [exact (Forall_inv Hw)|constructor]. }
  destruct (processInclusionStrict klines) as [|prev [|curr tl]];
    [exact I|exact I|].
  exact (proj2 (identifyFractals_prices tl prev curr Hs Hm)).
Qed.

Lemma flat_map_length_bound (A B : Type) (f : A -> list B) (k : nat) (l : list A) :
  (forall x, length (f x) <= k) -> length (flat_map f l) <= k * length l.
Proof.
  intro H. induction l as [|a l IH]; simpl; [lia|].
  rewrite length_app. specialize (H a). lia.
Qed.

Lemma biSignalsAt_stroke_level macd biPivots biList i :
  Forall (fun s => isSegmentLevel s = false) (biSignalsAt macd biPivots biList i)
  /\ length (biSignalsAt macd biPivots biList i) <= 2.
Proof.
  unfold biSignalsAt.
  destruct (nth_error biList i) as [curr|]; [|split; [constructor|simpl; lia]].
  destruct (nth_error biList (i - 2)) as [prev|]; [|split; [constructor|simpl; lia]].
  destruct (nth_error biList (i - 1)) as [breakout|]; [|split; [constructor|simpl; lia]].
  destruct (thirdTypeAt_shape biPivots i curr breakout) as [H3 L3].
  split.
  - apply Forall_app. split; apply Forall_forall; intros s Hs.
    + unfold biDivergenceAt in Hs.
      apply (proj2 (divergenceSignal_spec _ _ _ _ _ _ _ _ _) s Hs).
    + apply (H3 s Hs).
  - rewrite length_app. unfold biDivergenceAt.
    pose proof (divergenceSignal_length (bi_type curr) (bi_end curr) (bi_end prev)
                  (getBiMACD macd curr) (getBiMACD macd prev) (fl (9 # 10))
                  "一买 (盘背)" "一卖 (盘背)" false).
    lia.
Qed.

Lemma segSignalsAt_segment_level macd segList i :
  Forall (fun s => isSegmentLevel s = true /\ isFirstType s) (segSignalsAt macd segList i)
  /\ length (segSignalsAt macd segList i) <= 1.
Proof.
  unfold segSignalsAt.
  destruct (nth_error segList i) as [curr|]; [|split; [constructor|simpl; lia]].
  destruct (nth_error segList (i - 2)) as [prev|]; [|split; [constructor|simpl; lia]].
  split.
  - apply Forall_forall. intros s Hs. unfold segDivergenceAt in Hs.
    destruct (proj2 (divergenceSignal_spec _ _ _ _ _ _ _ _ _) s Hs) as [_ [Ht [Hl _]]].
    split; [exact Hl|]. unfold isFirstType. rewrite Ht.
    destruct (seg_type curr); simpl; auto.
  - apply divergenceSignal_length.
Qed.

Lemma Forall_flat_map (A B : Type) (P : B -> Prop) (f : A -> list B) (l : list A) :
  (forall x, Forall P (f x)) -> Forall P (flat_map f l).
Proof.
  intro H. induction l as [|a l IH]; simpl; [constructor|].
  apply Forall_app. split; [apply H|exact IH].
Qed.

(* ------------------------------------------------------------------ *)
(** ** Trend and active divergence *)

Lemma rev_last_two (A : Type) (front : list A) (x y : A) :
  rev (front ++ [x; y]) = y :: x :: rev front.
Proof. rewrite rev_app_distr. reflexivity. Qed.

Lemma trendOf_from_pivots biList biPivots segPivots active front prevP lastP :
  active = (if 2 <=? length segPivots then segPivots else biPivots) ->
  active = front ++ [prevP; lastP] ->
  trendOf biList biPivots segPivots = pivotTrend prevP lastP.
Proof.
  intros Ha Hf. unfold trendOf. rewrite <- Ha, Hf.
  rewrite length_app. simpl length.
  destruct (Nat.leb_spec 2 (length front + 2)) as [_|L]; [|lia].
  rewrite rev_last_two. reflexivity.
Qed.

Lemma sumAbsHist_from entries : forall acc,
  (0 <= acc)%Q ->
  (0 <= fold_left (fun area m => fadd area (Qabs (hist m))) entries acc)%Q.
Proof.
  induction entries as [|m l IH]; intros acc H; [exact H|].
  cbn [fold_left]. apply IH. apply fl_nonneg.
  pose proof (Qabs_nonneg (hist m)). lra.
Qed.

Lemma sumAbsHist_nonneg entries : (0 <= sumAbsHist entries)%Q.
Proof. apply sumAbsHist_from. lra. Qed.

(* ------------------------------------------------------------------ *)
(** * Further theorems *)

(** X1. The merged bars own the input exactly: the children lists of the
    merged bars, concatenated in order, are the input bar list, and the
    children of each merged bar are the input bars at the positions of its
    original-index span. *)
Theorem merged_children_are_the_input (klines : list Kline) :
  concat (map children (processInclusionStrict klines)) = klines
  /\ forall m, In m (processInclusionStrict klines) ->
       children m = slice klines (originalStartIndex m) (originalEndIndex m + 1).
Proof.
  destruct klines as [|k0 rest]; [split; [reflexivity|intros m []]|].
  simpl processInclusionStrict.
  destruct (inclusionLoop_childrenInv (k0 :: rest) rest 1
              ([mkMergedKline k0 0 0 [k0]], 0%Z)) as [Hcat Hall].
  - intros j k Hj. exact Hj.
  - split; simpl; auto.
  - split; [reflexivity|]. constructor; [reflexivity|constructor].
  - split.
    + rewrite Hcat. apply firstn_all2. simpl. lia.
    + intros m Hin. apply in_rev in Hin.
      rewrite (proj1 (Forall_forall _ _) Hall m Hin).
      replace (originalEndIndex m + 1) with (S (originalEndIndex m)) by lia.
      reflexivity.
Qed.

(** X2. A merged bar never carries an invented value: its high is the high
    of one of its children and its low the low of one of its children; its
    open, close and volume stay those of the first bar of the run (a merge
    does not move the close), and its time is the time of the last bar
    merged into it. *)
Theorem merged_bar_carries_child_values (klines : list Kline) :
  Forall carriesChildValues (processInclusionStrict klines).
Proof.
  destruct klines as [|k0 rest]; [constructor|].
  simpl processInclusionStrict. apply Forall_rev.
  apply inclusionLoop_carries. constructor; [|constructor].
  unfold carriesChildValues, m_high, m_low, m_time. simpl. repeat split.
  - exists k0. split; [left; reflexivity|reflexivity].
  - exists k0. split; [left; reflexivity|reflexivity].
  - exists k0, []. repeat split; reflexivity.
  - exists [], k0. split; reflexivity.
Qed.

(** X3. Merging keeps bars well-formed: when no input bar has its low above
    its high, no merged bar has. *)
Theorem merged_bars_keep_low_below_high (klines : list Kline) :
  Forall lowBelowHigh klines ->
  Forall (fun m => lowBelowHigh (bar m)) (processInclusionStrict klines).
Proof.
  intro H. destruct klines as [|k0 rest]; [constructor|].
  simpl processInclusionStrict. apply Forall_rev.
  apply inclusionLoop_lowBelowHigh; [exact (Forall_inv_tail H)|].
  constructor; [exact (Forall_inv H)|constructor].
Qed.

(** X4. When no input bar is in containment with the bar before it, the
    merge stage changes nothing: every bar comes back as a merged bar of its
    own, with the span [i, i] and itself as only child. *)
Theorem merge_is_identity_without_containment (klines : list Kline) :
  neighbours (fun a b => barsContained a b = false) klines ->
  processInclusionStrict klines = wrapFrom 0 klines.
Proof.
  destruct klines as [|k0 rest]; intro H; [reflexivity|].
  simpl processInclusionStrict.
  destruct (inclusionLoop_no_containment rest 0 k0 [] 0%Z H) as [d' Hd].
  rewrite Hd. simpl. rewrite rev_app_distr, rev_involutive. reflexivity.
Qed.

(** X5. A strictly rising or strictly falling bar sequence (high and low
    both moving the same way at every bar) has no fractal, and the engine
    returns a result without strokes, segments, pivots or signals, with trend
    consolidation and no divergence. *)
Theorem monotone_input_has_no_structure (klines : list Kline)
        (settings : AppSettings) :
  neighbours risesTo klines \/ neighbours fallsTo klines ->
  identifyFractals (processInclusionStrict klines) = []
  /\ exists r, calculateChanLun klines settings = Some r /\ noStructure r.
Proof.
  intro H.
  assert (Hf : identifyFractals (processInclusionStrict klines) = []).
  { destruct H as [H|H].
    - rewrite processInclusionStrict_no_containment.
      + apply identifyFractals_rising, H.
      + exact (neighbours_impl _ _ _ _ risesTo_not_contained H).
    - rewrite processInclusionStrict_no_containment.
      + apply identifyFractals_falling, H.
      + exact (neighbours_impl _ _ _ _ fallsTo_not_contained H). }
  split; [exact Hf|]. apply calculateChanLun_without_fractals, Hf.
Qed.

(** X6. Every stroke joins fractals of opposite types: an up stroke starts
    at a bottom and ends at a top, a down stroke starts at a top and ends at
    a bottom, whatever the point list, the merged bars and the settings. *)
Theorem strokes_join_opposite_fractal_types (fractals : list ChanPoint)
        (klines : list MergedKline) (settings : AppSettings) :
  Forall biJoinsOppositeTypes (generateBi fractals klines settings).
Proof.
  rewrite generateBi_is_validBi.
  apply validBiLoop_joins, alternationFilter_alternates.
Qed.

(** X7. In [fractal] mode the stroke chain is continuous: there is one
    stroke per pair of neighbouring filtered points, and each stroke ends at
    the point where the next one starts. *)
Theorem fractal_mode_chain_is_continuous (fractals : list ChanPoint)
        (klines : list MergedKline) (settings : AppSettings) :
  biType settings = bi_fractal ->
  generateBi fractals klines settings
  = map (fun se => biOf (fst se) (snd se))
        (adjacentPairs (alternationFilter fractals))
  /\ length (generateBi fractals klines settings)
     = length (alternationFilter fractals) - 1
  /\ neighbours (fun a b => bi_end a = bi_start b)
                (generateBi fractals klines settings).
Proof.
  intro Hm.
  assert (E : generateBi fractals klines settings
              = map (fun se => biOf (fst se) (snd se))
                    (adjacentPairs (alternationFilter fractals))).
  { rewrite generateBi_is_validBi. apply validBiLoop_fractal_mode, Hm. }
  split; [exact E|]. rewrite E. split.
  - rewrite length_map. apply adjacentPairs_length.
  - apply adjacent_strokes_connected.
Qed.

(** X8. Everything the engine reports is anchored in the input: every
    fractal point carries the position and the time of an input bar, every
    stroke starts and ends at fractal points of the result, and every
    segment starts at the start of a stroke and ends at the end of a stroke
    of the result. *)
Theorem engine_points_sit_on_bars (klines : list Kline) (settings : AppSettings) :
  exists r,
    calculateChanLun klines settings = Some r
    /\ Forall (pointOnBar klines) (fractals r)
    /\ (forall b, In b (biList r) ->
          In (bi_start b) (fractals r) /\ In (bi_end b) (fractals r))
    /\ (forall s, In s (segList r) ->
          exists b1 b2, In b1 (biList r) /\ In b2 (biList r)
                        /\ seg_start s = bi_start b1 /\ seg_end s = bi_end b2).
Proof.
  destruct (Nat.lt_ge_cases (length klines) 10) as [L|L].
  - exists emptyResult. unfold calculateChanLun.
    destruct (Nat.ltb_spec (length klines) 10) as [_|L']; [|lia].
    split; [reflexivity|]. split; [constructor|]. split; [intros b []|intros s []].
  - destruct (calculateChanLun_stages klines settings L)
      as [segs [bp [sp [Hs [_ [_ [_ [_ Hr]]]]]]]].
    eexists. split; [exact Hr|]. simpl. split; [|split].
    + apply Forall_forall. intros p Hp. exact (engine_fractal_on_bar klines p Hp).
    + intros b Hb. exact (engine_strokes_from_fractals klines settings b Hb).
    + intros s Hin. exact (generateSegmentsStrict_points _ _ Hs s Hin).
Qed.

(** X9. The engine's structure runs forward in time: the fractal points
    have strictly increasing bar positions, every stroke starts at an
    earlier bar than it ends and ends no later than the next stroke starts,
    and every segment starts at an earlier bar than it ends. *)
Theorem engine_swings_run_forward (klines : list Kline) (settings : AppSettings) :
  exists r,
    calculateChanLun klines settings = Some r
    /\ StronglySorted lt (map p_index (fractals r))
    /\ Forall biForward (biList r)
    /\ StronglySorted biBefore (biList r)
    /\ Forall segForward (segList r).
Proof.
  destruct (Nat.lt_ge_cases (length klines) 10) as [L|L].
  - exists emptyResult. unfold calculateChanLun.
    destruct (Nat.ltb_spec (length klines) 10) as [_|L']; [|lia].
    split; [reflexivity|]. repeat split; constructor.
  - destruct (calculateChanLun_stages klines settings L)
      as [segs [bp [sp [Hs [_ [_ [_ [_ Hr]]]]]]]].
    destruct (engine_strokes_forward klines settings) as [Hf Ho].
    eexists. split; [exact Hr|]. simpl.
    split; [apply identifyFractals_sorted, merged_ends_sorted|].
    split; [exact Hf|]. split; [exact Ho|].
    destruct (generateSegmentsStrict_cases _ _ Hs) as [[_ ->]|[L3 [b0 [_ Hrun]]]];
      [constructor|].
    eapply segmentRun_forward; [exact Hf|exact Ho| |exact Hrun]. lia.
Qed.

(** X10. Segments alternate in direction: the first segment has the
    direction of the first stroke and every later segment the direction
    opposite to the one before it. *)
Theorem segments_alternate_direction (biList : list ChanBi) :
  exists segments,
    generateSegmentsStrict biList = Some segments
    /\ forall b0, hd_error biList = Some b0 ->
         segmentsAlternateFrom (bi_type b0) segments.
Proof.
  destruct (generateSegmentsStrict_total biList) as [segments H].
  exists segments. split; [exact H|]. intros b0 Hb.
  destruct (generateSegmentsStrict_cases _ _ H) as [[_ ->]|[_ [b [Hb' Hrun]]]];
    [exact I|].
  assert (b = b0) by congruence. subst b.
  exact (segmentRun_alternates _ _ _ _ Hrun).
Qed.

(** X11. A segment's end points are those of the strokes it owns: it starts
    at the start point of its first owned stroke and ends at the end point
    of its last owned stroke. *)
Theorem segment_spans_its_strokes (biList : list ChanBi) :
  exists segments,
    generateSegmentsStrict biList = Some segments
    /\ Forall segmentSpansOwned segments.
Proof.
  destruct (generateSegmentsStrict_total biList) as [segments H].
  exists segments. split; [exact H|].
  destruct (generateSegmentsStrict_cases _ _ H) as [[_ ->]|[L [b [_ Hrun]]]];
    [constructor|].
  apply (segmentRun_spans biList segments 0 (bi_type b)); [lia|exact Hrun].
Qed.

(** X12. Only the last segment is open-ended: every segment before the last
    ends with a stroke of its own direction (the confirmed peak or trough),
    and when there is more than one segment the last one owns at least four
    strokes, since a termination needs three strokes after the candidate. *)
Theorem terminated_segments_end_on_own_direction (biList : list ChanBi) :
  exists segments,
    generateSegmentsStrict biList = Some segments
    /\ forall init final, segments = init ++ [final] ->
         Forall endsOnOwnDirection init
         /\ (init <> [] -> 4 <= length (seg_biList final)).
Proof.
  destruct (generateSegmentsStrict_total biList) as [segments H].
  exists segments. split; [exact H|]. intros init final E.
  destruct (generateSegmentsStrict_cases _ _ H) as [[_ ->]|[L [b [_ Hrun]]]];
    [destruct init; discriminate|].
  destruct (segmentRun_terminated biList segments 0 (bi_type b) init final)
    as [Hi [q [Hq Hq3]]];
    [lia|exact Hrun|exact E|].
  split; [exact Hi|]. intro Hne. specialize (Hq3 Hne).
  rewrite Hq. unfold sliceFrom. rewrite length_skipn. lia.
Qed.

(** X13. Pivots sit on disjoint runs of swings: every stroke-level pivot
    covers at least three swings inside the stroke list, takes its band from
    its first three swings (the first two of opposite direction) and its
    times from the start of its first and the end of its last swing, and
    each pivot starts after the pivot before it ends.  Segment-level pivots
    are the same pivots computed over the segments, tagged segment-level. *)
Theorem pivots_cover_disjoint_runs (biList : list ChanBi) (segList : list ChanSeg) :
  (exists result,
      generatePivotsFromBi biList = Some result
      /\ Forall (fun p => pivotRange biList p /\ level p = level_bi) result
      /\ forall k p q, nth_error result k = Some p ->
                       nth_error result (S k) = Some q ->
                       endBiIndex p < startBiIndex q)
  /\ (exists result,
         generatePivotsFromSeg segList = Some result
         /\ Forall (fun p => startBiIndex p + 2 <= endBiIndex p
                             /\ endBiIndex p < length segList
                             /\ level p = level_seg) result
         /\ forall k p q, nth_error result k = Some p ->
                          nth_error result (S k) = Some q ->
                          endBiIndex p < startBiIndex q).
Proof.
  split.
  - destruct (generatePivotsFromBi_shape biList) as [result [H [Hv Hc]]].
    exists result. split; [exact H|]. split; [|exact Hc].
    apply Forall_forall. intros p Hp.
    destruct (proj1 (Forall_forall _ _) Hv p Hp) as [Hr [_ Hl]]. auto.
  - destruct (generatePivotsFromBi_shape (map pseudoBi segList)) as [raw [H [Hv Hc]]].
    unfold generatePivotsFromSeg. rewrite H. cbn [bind].
    exists (map asSegLevel raw). split; [reflexivity|]. split.
    + apply Forall_forall. intros p Hp. apply in_map_iff in Hp.
      destruct Hp as [p0 [<- Hp0]].
      destruct (proj1 (Forall_forall _ _) Hv p0 Hp0) as [[Hr1 [Hr2 _]] _].
      rewrite length_map in Hr2. simpl. auto.
    + intros k p q Hp Hq. rewrite nth_error_map in Hp. rewrite nth_error_map in Hq.
      
      destruct (nth_error raw k) as [p0|] eqn:Ep; [|discriminate].
      destruct (nth_error raw (S k)) as [q0|] eqn:Eq; [|discriminate].
      simpl in Hp, Hq. injection Hp as <-. injection Hq as <-. simpl.
      exact (Hc k p0 q0 Ep Eq).
Qed.

(** X14. The bands of a pivot describe the swings it covers: gg is the
    highest high and dd the lowest low among them, every swing absorbed by
    the extension overlaps the band between zd and zg, and the extension is
    maximal -- the swing right after the pivot, if there is one, does not
    overlap the band. *)
Theorem pivot_bands_describe_covered_swings (biList : list ChanBi) :
  exists result,
    generatePivotsFromBi biList = Some result
    /\ Forall (pivotBands biList) result.
Proof.
  destruct (generatePivotsFromBi_shape biList) as [result [H [Hv _]]].
  exists result. split; [exact H|].
  apply Forall_forall. intros p Hp.
  exact (proj1 (proj2 (proj1 (Forall_forall _ _) Hv p Hp))).
Qed.

(** X15. The engine's pivot list holds exactly the stroke-level and the
    segment-level pivots of its strokes and segments, in the order of their
    start times. *)
Theorem engine_pivots_sorted_by_start_time (klines : list Kline)
        (settings : AppSettings) :
  exists r biPivots segPivots,
    calculateChanLun klines settings = Some r
    /\ generatePivotsFromBi (biList r) = Some biPivots
    /\ generatePivotsFromSeg (segList r) = Some segPivots
    /\ Permutation (biPivots ++ segPivots) (pivots r)
    /\ StronglySorted startsNoLater (pivots r).
Proof.
  destruct (Nat.lt_ge_cases (length klines) 10) as [L|L].
  - exists emptyResult, [], []. unfold calculateChanLun.
    destruct (Nat.ltb_spec (length klines) 10) as [_|L']; [|lia].
    repeat split; constructor.
  - destruct (calculateChanLun_stages klines settings L)
      as [segs [bp [sp [Hs [Hb [Hsp [_ [_ Hr]]]]]]]].
    eexists. exists bp, sp. split; [exact Hr|]. simpl.
    split; [exact Hb|]. split; [exact Hsp|].
    split; [apply sortByStartTime_perm|apply sortByStartTime_sorted].
Qed.

(** X16. The signal list is laid out by level, not by time: first all
    stroke-level signals in stroke order (at most two per stroke position
    from the third stroke on), then all segment-level signals, which are
    first-type only (at most one per segment position from the third segment
    on).  With fewer than three strokes and fewer than three segments there
    is no signal. *)
Theorem signals_stroke_level_then_segment_level (macd : list MACDResult)
        (biPivots : list ChanPivot) (biList : list ChanBi) (segList : list ChanSeg) :
  exists strokeSignals segSignals,
    signalsOf macd biPivots biList segList = strokeSignals ++ segSignals
    /\ Forall (fun s => isSegmentLevel s = false) strokeSignals
    /\ Forall (fun s => isSegmentLevel s = true /\ isFirstType s) segSignals
    /\ length strokeSignals <= 2 * (length biList - 2)
    /\ length segSignals <= length segList - 2.
Proof.
  unfold signalsOf. eexists. eexists. split; [reflexivity|].
  split; [apply Forall_flat_map; intro i; apply biSignalsAt_stroke_level|].
  split; [apply Forall_flat_map; intro i; apply segSignalsAt_segment_level|].
  split.
  - pose proof (flat_map_length_bound _ _ (biSignalsAt macd biPivots biList) 2
                  (seq 2 (length biList - 2))
                  (fun i => proj2 (biSignalsAt_stroke_level macd biPivots biList i)))
      as Hb.
    rewrite length_seq in Hb. exact Hb.
  - pose proof (flat_map_length_bound _ _ (segSignalsAt macd segList) 1
                  (seq 2 (length segList - 2))
                  (fun i => proj2 (segSignalsAt_segment_level macd segList i)))
      as Hb.
    rewrite length_seq in Hb. lia.
Qed.

(** X17. Third-type signals: at a stroke position [i] a 3B is emitted
    exactly when a stroke pivot ends at [i - 2], the stroke is down, the
    stroke before it is up and both end strictly above the pivot's zg; a 3S
    exactly when the stroke is up, the one before it down and both end
    strictly below zd.  At most one third-type signal is emitted per
    position, at the stroke's end price and time, never segment-level. *)
Theorem third_type_signal_rule (biPivots : list ChanPivot) (i : nat)
        (curr breakout : ChanBi) :
  (forall s, In s (thirdTypeAt biPivots i curr breakout) ->
     isThirdType s /\ isSegmentLevel s = false
     /\ s_price s = p_price (bi_end curr) /\ s_time s = p_time (bi_end curr))
  /\ length (thirdTypeAt biPivots i curr breakout) <= 1
  /\ ((exists s, In s (thirdTypeAt biPivots i curr breakout) /\ s_type s = sig_3B)
      <-> exists pivot,
            find (fun p => endBiIndex p =? i - 2) biPivots = Some pivot
            /\ bi_type curr = down /\ bi_type breakout = up
            /\ (zg pivot < p_price (bi_end breakout))%Q
            /\ (zg pivot < p_price (bi_end curr))%Q)
  /\ ((exists s, In s (thirdTypeAt biPivots i curr breakout) /\ s_type s = sig_3S)
      <-> exists pivot,
            find (fun p => endBiIndex p =? i - 2) biPivots = Some pivot
            /\ bi_type curr = up /\ bi_type breakout = down
            /\ (p_price (bi_end breakout) < zd pivot)%Q
            /\ (p_price (bi_end curr) < zd pivot)%Q).
Proof.
  unfold thirdTypeAt.
  destruct (find (fun p => endBiIndex p =? i - 2) biPivots) as [pivot|].
  2:{ split; [intros s []|]. split; [simpl; lia|].
      split; (split; [intros [s [[] _]]|intros [p [H _]]; discriminate H]). }
  destruct (bi_type curr) eqn:Ec; destruct (bi_type breakout) eqn:Eb; simpl;
    try (split; [intros s []|]; split; [simpl; lia|];
         split; (split; [intros [s [[] _]]
                        |intros [p [_ [H1 [H2 _]]]]; discriminate]); fail).
  - (* curr up, breakout down: only 3S *)
    destruct (Qlt_bool (p_price (bi_end breakout)) (zd pivot)) eqn:E1;
      destruct (Qlt_bool (p_price (bi_end curr)) (zd pivot)) eqn:E2; simpl; qbool;
      (split; [intros s Hs; try destruct Hs as [<-|[]]; try destruct Hs;
               unfold isThirdType; simpl; auto|]);
      (split; [simpl; lia|]);
      (split; [split; [intros [s [Hs Ht]]; try destruct Hs as [<-|[]]; try destruct Hs;
                       discriminate Ht
                      |intros [p [_ [H1 _]]]; discriminate]|]).
    + split; [intros _; exists pivot; auto|].
      intros _. eexists. split; [left; reflexivity|reflexivity].
    + split; [intros [s [[] _]]|intros [p [Hp [_ [_ [_ H]]]]]].
      injection Hp as <-. lra.
    + split; [intros [s [[] _]]|intros [p [Hp [_ [_ [H _]]]]]].
      injection Hp as <-. lra.
    + split; [intros [s [[] _]]|intros [p [Hp [_ [_ [H _]]]]]].
      injection Hp as <-. lra.
  - (* curr down, breakout up: only 3B *)
    destruct (Qlt_bool (zg pivot) (p_price (bi_end breakout))) eqn:E1;
      destruct (Qlt_bool (zg pivot) (p_price (bi_end curr))) eqn:E2; simpl; qbool;
      (split; [intros s Hs; try destruct Hs as [<-|[]]; try destruct Hs;
               unfold isThirdType; simpl; auto|]);
      (split; [simpl; lia|]);
      (split; [|split; [intros [s [Hs Ht]]; try destruct Hs as [<-|[]]; try destruct Hs;
                        discriminate Ht
                       |intros [p [_ [H1 _]]]; discriminate]]).
    + split; [intros _; exists pivot; auto|].
      intros _. eexists. split; [left; reflexivity|reflexivity].
    + split; [intros [s [[] _]]|intros [p [Hp [_ [_ [_ H]]]]]].
      injection Hp as <-. lra.
    + split; [intros [s [[] _]]|intros [p [Hp [_ [_ [H _]]]]]].
      injection Hp as <-. lra.
    + split; [intros [s [[] _]]|intros [p [Hp [_ [_ [H _]]]]]].
      injection Hp as <-. lra.
Qed.

(** X18. The trend label reads only the two latest pivots: those of the
    segment level when there are at least two, else those of the stroke
    level when there are at least two; with fewer pivots it is the direction
    of the last stroke, and consolidation only when there is no stroke.  For
    two valid pivots the label is up exactly when the latest band lies
    strictly above the previous one, down exactly when strictly below, and
    consolidation exactly when the two bands overlap or touch. *)
Theorem trend_reads_the_two_latest_pivots (biList : list ChanBi)
        (biPivots segPivots : list ChanPivot) :
  (forall front prevP lastP,
      segPivots = front ++ [prevP; lastP] ->
      trendOf biList biPivots segPivots = pivotTrend prevP lastP)
  /\ (forall front prevP lastP,
         length segPivots < 2 -> biPivots = front ++ [prevP; lastP] ->
         trendOf biList biPivots segPivots = pivotTrend prevP lastP)
  /\ (forall front lastBi,
         length segPivots < 2 -> length biPivots < 2 ->
         biList = front ++ [lastBi] ->
         trendOf biList biPivots segPivots = strokeTrend lastBi)
  /\ (length segPivots < 2 -> length biPivots < 2 -> biList = [] ->
      trendOf biList biPivots segPivots = consolidation)
  /\ (forall prevP lastP,
         pivotValid prevP -> pivotValid lastP ->
         (pivotTrend prevP lastP = trend_up <-> (zg prevP < zd lastP)%Q)
         /\ (pivotTrend prevP lastP = trend_down <-> (zg lastP < zd prevP)%Q)
         /\ (pivotTrend prevP lastP = consolidation
             <-> (zd lastP <= zg prevP /\ zd prevP <= zg lastP)%Q)).
Proof.
  split; [|split; [|split; [|split]]].
  - intros front prevP lastP E.
    apply (trendOf_from_pivots biList biPivots segPivots segPivots front prevP lastP);
      [|exact E].
    rewrite E, length_app. simpl length.
    destruct (Nat.leb_spec 2 (length front + 2)) as [_|L]; [reflexivity|lia].
  - intros front prevP lastP Ls E.
    apply (trendOf_from_pivots biList biPivots segPivots biPivots front prevP lastP);
      [|exact E].
    destruct (Nat.leb_spec 2 (length segPivots)) as [L|_]; [lia|reflexivity].
  - intros front lastBi Ls Lb E. unfold trendOf, strokeTrend.
    destruct (Nat.leb_spec 2 (length segPivots)) as [L|_]; [lia|].
    destruct (Nat.leb_spec 2 (length biPivots)) as [L|_]; [lia|].
    rewrite E, rev_app_distr. reflexivity.
  - intros Ls Lb E. unfold trendOf.
    destruct (Nat.leb_spec 2 (length segPivots)) as [L|_]; [lia|].
    destruct (Nat.leb_spec 2 (length biPivots)) as [L|_]; [lia|].
    rewrite E. reflexivity.
  - intros prevP lastP [Hp _] [Hl _]. unfold pivotTrend.
    destruct (Qlt_bool (zg prevP) (zd lastP)) eqn:E1;
      [|destruct (Qlt_bool (zg lastP) (zd prevP)) eqn:E2]; qbool;
      repeat split; intros; try discriminate; try reflexivity; try lra.
Qed.

(** X19. The divergence summary is active exactly when the last signal of
    the list is a first-type signal whose time differs from the last bar's
    time by strictly less than 36,000,000 (the source's 3600 * 1000 * 10),
    counted in the unit of the bar times; it then reports bottom for 1B and
    top for 1S with the signal's description and strength 0.95.  In every
    other case -- no signal, no bar, a third-type signal last, or an older
    signal -- it is the inactive summary.  The constant carries no unit of
    its own: with bar times counted in seconds a last first-type signal up
    to 416 days away from the last bar is still active. *)
Theorem divergence_is_the_recent_last_signal (buySellPoints : list BuySellPoint)
        (klines : list Kline) :
  (isDivergent (latestDivergenceOf buySellPoints klines) = true
   <-> exists front lastSignal before lastK,
         buySellPoints = front ++ [lastSignal]
         /\ klines = before ++ [lastK]
         /\ isFirstType lastSignal
         /\ (Z.abs (s_time lastSignal - k_time lastK) < recencyWindow)%Z)
  /\ (forall front lastSignal,
         buySellPoints = front ++ [lastSignal] ->
         isDivergent (latestDivergenceOf buySellPoints klines) = true ->
         latestDivergenceOf buySellPoints klines
         = mkDivergence true
             (Some match s_type lastSignal with sig_1B => bottom | _ => top end)
             (fl (95 # 100)) (desc lastSignal))
  /\ (isDivergent (latestDivergenceOf buySellPoints klines) = false ->
      latestDivergenceOf buySellPoints klines = noDivergence)
  /\ (forall front lastSignal before lastK,
         buySellPoints = front ++ [lastSignal] ->
         klines = before ++ [lastK] ->
         isFirstType lastSignal ->
         (Z.abs (s_time lastSignal - k_time lastK) <= 416 * secondsPerDay)%Z ->
         isDivergent (latestDivergenceOf buySellPoints klines) = true).
Proof.
  enough (H : (isDivergent (latestDivergenceOf buySellPoints klines) = true
               <-> exists front lastSignal before lastK,
                     buySellPoints = front ++ [lastSignal]
                     /\ klines = before ++ [lastK]
                     /\ isFirstType lastSignal
                     /\ (Z.abs (s_time lastSignal - k_time lastK) < recencyWindow)%Z)
              /\ (forall front lastSignal,
                     buySellPoints = front ++ [lastSignal] ->
                     isDivergent (latestDivergenceOf buySellPoints klines) = true ->
                     latestDivergenceOf buySellPoints klines
                     = mkDivergence true
                         (Some match s_type lastSignal with
                               | sig_1B => bottom
                               | _ => top
                               end)
                         (fl (95 # 100)) (desc lastSignal))
              /\ (isDivergent (latestDivergenceOf buySellPoints klines) = false ->
                  latestDivergenceOf buySellPoints klines = noDivergence)).
  { destruct H as [H1 [H2 H3]].
    split; [exact H1|]. split; [exact H2|]. split; [exact H3|].
    intros front lastSignal before lastK Es Ek Hf Ht.
    apply (proj2 H1). exists front, lastSignal, before, lastK.
    repeat split; try assumption.
    unfold recencyWindow, secondsPerDay in *. lia. }
  unfold latestDivergenceOf, recencyWindow, isFirstType.
  destruct (rev buySellPoints) as [|lastSignal rfront] eqn:Es.
  { split; [|split]; try reflexivity.
    - split; [discriminate|]. intros [front [l [b [lk [E _]]]]].
      rewrite E, rev_app_distr in Es. discriminate.
    - intros front l E. rewrite E, rev_app_distr in Es. discriminate. }
  assert (Hs : buySellPoints = rev rfront ++ [lastSignal]).
  { rewrite <- (rev_involutive buySellPoints), Es. reflexivity. }
  assert (Hlast : forall front l, buySellPoints = front ++ [l] -> l = lastSignal).
  { intros front l E. rewrite E, rev_app_distr in Es. simpl in Es. congruence. }
  destruct (rev klines) as [|lastK rbefore] eqn:Ek.
  { assert (Hnone : match s_type lastSignal with
                    | sig_1B | sig_1S => noDivergence
                    | _ => noDivergence
                    end = noDivergence) by (destruct (s_type lastSignal); reflexivity).
    rewrite Hnone. split; [|split]; try reflexivity.
    - split; [discriminate|]. intros [front [l [b [lk [_ [E _]]]]]].
      rewrite E, rev_app_distr in Ek. discriminate.
    - discriminate. }
  assert (Hk : klines = rev rbefore ++ [lastK]).
  { rewrite <- (rev_involutive klines), Ek. reflexivity. }
  assert (HlastK : forall before lk, klines = before ++ [lk] -> lk = lastK).
  { intros before lk E. rewrite E, rev_app_distr in Ek. simpl in Ek. congruence. }
  destruct (s_type lastSignal) eqn:Et;
    try (split; [split; [discriminate
                        |intros [front [l [b [lk [E [_ [[H|H] _]]]]]]];
                         rewrite (Hlast _ _ E) in H; congruence]
                |split; [discriminate|reflexivity]]);
    destruct (Z.ltb_spec (Z.abs (s_time lastSignal - k_time lastK)) (3600 * 1000 * 10))
      as [Hr|Hr]; simpl;
    (split; [split; [intro H; try discriminate H;
                     exists (rev rfront), lastSignal, (rev rbefore), lastK;
                     repeat split; auto
                    |intros [front [l [b [lk [E [Ek' [_ H]]]]]]];
                     try reflexivity;
                     rewrite (Hlast _ _ E), (HlastK _ _ Ek') in H; lia]
            |split; [intros front l E H; try discriminate H;
                     rewrite (Hlast _ _ E), Et; reflexivity
                    |intro H; try discriminate H; reflexivity]]).
Qed.

(** X20. A force is never negative, and it is zero when the end index lies
    outside the MACD series or before the start index. *)
Theorem force_is_never_negative (macd : list MACDResult) (startIndex endIndex : nat) :
  (0 <= getRangeMACD macd startIndex endIndex)%Q
  /\ (length macd <= endIndex -> getRangeMACD macd startIndex endIndex = 0%Q)
  /\ (endIndex < startIndex -> getRangeMACD macd startIndex endIndex = 0%Q).
Proof.
  split; [|split].
  - destruct (Nat.le_gt_cases (length macd) endIndex) as [L|L].
    + unfold getRangeMACD.
      destruct (Nat.leb_spec (length macd) endIndex) as [_|L']; [lra|lia].
    + rewrite (getRangeMACD_sum macd startIndex endIndex L).
      apply sumAbsHist_nonneg.
  - intro L. unfold getRangeMACD.
    destruct (Nat.leb_spec (length macd) endIndex) as [_|L']; [reflexivity|lia].
  - intro L. unfold getRangeMACD.
    destruct (length macd <=? endIndex); [reflexivity|].
    replace (S endIndex - startIndex) with 0 by lia. reflexivity.
Qed.

(** X21. The MACD series is aligned with the bars: it has one entry per
    bar, and its first entry is zero in dif, dea and hist.  An EMA keeps the
    length of its input and starts at the first input value. *)
Theorem macd_series_is_aligned_with_bars (klines : list Kline)
        (fastPeriod slowPeriod signalPeriod : Z) :
  length (calculateMACD klines fastPeriod slowPeriod signalPeriod) = length klines
  /\ (forall m, hd_error (calculateMACD klines fastPeriod slowPeriod signalPeriod)
                = Some m ->
                (dif m == 0 /\ dea m == 0 /\ hist m == 0)%Q)
  /\ (forall data period,
         length (calculateEMA data period) = length data
         /\ hd_error (calculateEMA data period) = hd_error data).
Proof.
  split; [apply calculateMACD_length|]. split.
  - destruct klines as [|k0 rest]; [discriminate|].
    intros m H.
    assert (Hd : fsub (k_close k0) (k_close k0) = 0%Q) by (apply fl_zero; ring).
    unfold calculateMACD, calculateEMA in H. cbn [map zipWith hd_error] in H.
    injection H as <-. cbn [dif dea hist]. rewrite Hd.
    split; [reflexivity|]. split; [reflexivity|].
    vm_compute. reflexivity.
  - intros data period. split; [apply calculateEMA_length|].
    destruct data; reflexivity.
Qed.

(** X22. With well-formed input bars (no low above its high) prices zig-zag
    along the engine's structure: each fractal after a top is strictly
    lower than the top and each fractal after a bottom strictly higher, so
    every up stroke ends above its start and every down stroke below it. *)
Theorem engine_strokes_move_their_way (klines : list Kline) (settings : AppSettings) :
  Forall lowBelowHigh klines ->
  exists r,
    calculateChanLun klines settings = Some r
    /\ neighbours priceTurns (fractals r)
    /\ Forall biMovesItsWay (biList r).
Proof.
  intro Hw.
  destruct (Nat.lt_ge_cases (length klines) 10) as [L|L].
  - exists emptyResult. unfold calculateChanLun.
    destruct (Nat.ltb_spec (length klines) 10) as [_|L']; [|lia].
    split; [reflexivity|]. split; [exact I|constructor].
  - destruct (calculateChanLun_stages klines settings L)
      as [segs [bp [sp [_ [_ [_ [_ [_ Hr]]]]]]]].
    eexists. split; [exact Hr|]. simpl.
    pose proof (engine_fractal_prices klines Hw) as Hp.
    split; [exact Hp|].
    rewrite generateBi_is_validBi, engine_alternation_filter_identity.
    apply validBiLoop_moves, Hp.
Qed.

(* ------------------------------------------------------------------ *)
(** ** The further properties at concrete inputs *)

Lemma merged_bars_keep_low_below_high_witness :
  Forall lowBelowHigh zigzagBars
  /\ Forall (fun m => lowBelowHigh (bar m)) (processInclusionStrict zigzagBars).
Proof.
  assert (H : Forall lowBelowHigh zigzagBars).
  { unfold zigzagBars, barsAround. simpl.
    repeat (constructor; [vm_compute; discriminate|]). constructor. }
  split; [exact H|].
  exact (merged_bars_keep_low_below_high zigzagBars H).
Defined.

Lemma merge_is_identity_without_containment_witness :
  neighbours (fun a b => barsContained a b = false) risingBars
  /\ processInclusionStrict risingBars = wrapFrom 0 risingBars.
Proof.
  assert (H : neighbours (fun a b => barsContained a b = false) risingBars).
  { vm_compute. repeat split. }
  split; [exact H|].
  exact (merge_is_identity_without_containment risingBars H).
Defined.

Lemma monotone_input_has_no_structure_witness :
  neighbours risesTo risingBars
  /\ identifyFractals (processInclusionStrict risingBars) = []
  /\ exists r, calculateChanLun risingBars fractalSettings = Some r /\ noStructure r.
Proof.
  assert (H : neighbours risesTo risingBars).
  { vm_compute. repeat split. }
  split; [exact H|].
  exact (monotone_input_has_no_structure risingBars fractalSettings (or_introl H)).
Defined.

Lemma fractal_mode_chain_is_continuous_witness :
  biType fractalSettings = bi_fractal
  /\ length (generateBi (identifyFractals (processInclusionStrict zigzagBars))
                        (processInclusionStrict zigzagBars) fractalSettings)
     = length (alternationFilter
                 (identifyFractals (processInclusionStrict zigzagBars))) - 1.
Proof.
  split; [reflexivity|].
  exact (proj1 (proj2 (fractal_mode_chain_is_continuous
                         (identifyFractals (processInclusionStrict zigzagBars))
                         (processInclusionStrict zigzagBars) fractalSettings
                         eq_refl))).
Defined.

Lemma engine_strokes_move_their_way_witness :
  Forall lowBelowHigh zigzagBars
  /\ exists r,
       calculateChanLun zigzagBars fractalSettings = Some r
       /\ neighbours priceTurns (fractals r)
       /\ Forall biMovesItsWay (biList r).
Proof.
  assert (H : Forall lowBelowHigh zigzagBars).
  { unfold zigzagBars, barsAround. simpl.
    repeat (constructor; [vm_compute; discriminate|]). constructor. }
  split; [exact H|].
  exact (engine_strokes_move_their_way zigzagBars fractalSettings H).
Defined.
